(** * brimutil: checksummed reader and writer

    A shallow embedding of [ChecksummedReader] and [ChecksummedWriter]
    (package brimutil), the codec that embeds a 4-byte big-endian digest
    after every [checksumInterval] content bytes, together with the
    properties of the framing that the package documentation states.

    Go values are embedded as follows.
    - [int] and [int64] are [Z]; the arithmetic of [Seek], whose operands
      come from the caller, wraps at 64 bits ([wrap64]).  Slice lengths and
      byte counts are bounded by the address space and are not wrapped.
    - [[]byte] is [list byte]; [v[:k]] is [slice_to v k] and [v[k:]] is
      [slice_from v k].  An index out of range is a run-time panic.
    - [error] is the type [error]; the [nil] error is [None].
    - the interfaces [io.ReadSeeker], [io.Writer] and [io.Closer] are type
      classes.  The collaborator is shared with the caller, so its state is
      threaded beside the reader or writer; the [delegate] field ([iface])
      says whether calls go to it or to the package's [errDelegate].
    - a run-time panic and a loop that does not finish are results of the
      [outcome] monad. *)

From Stdlib Require Import ZArith List Lia Bool String.
From Stdlib Require Import Strings.Byte.
Import ListNotations.
Local Open Scope Z_scope.

Set Implicit Arguments.

(** ** Integers, slices and bytes *)

Definition wrap64 (z : Z) : Z := (z + 2 ^ 63) mod 2 ^ 64 - 2 ^ 63.

Definition len {A : Type} (l : list A) : Z := Z.of_nat (List.length l).

Definition slice_to {A : Type} (v : list A) (k : Z) : list A :=
  firstn (Z.to_nat k) v.

Definition slice_from {A : Type} (v : list A) (k : Z) : list A :=
  skipn (Z.to_nat k) v.

Definition byte_of_Z (z : Z) : byte :=
  match Byte.of_N (Z.to_N (z mod 256)) with
  | Some b => b
  | None => x00
  end.

Definition Z_of_byte (b : byte) : Z := Z.of_N (Byte.to_N b).

(** [binary.BigEndian.PutUint32]: the four bytes of a 32-bit value, most
    significant first. *)
Definition PutUint32 (v : Z) : list byte :=
  [ byte_of_Z (Z.shiftr v 24); byte_of_Z (Z.shiftr v 16);
    byte_of_Z (Z.shiftr v 8); byte_of_Z v ].

(** [copy(v, bs)] into the front of [v]: what a read leaves in its buffer. *)
Definition fill (v bs : list byte) : list byte :=
  bs ++ skipn (List.length bs) v.

(** [bytes.Equal] *)
Definition bytes_Equal (a b : list byte) : bool :=
  if list_eq_dec Byte.byte_eq_dec a b then true else false.

(** ** Errors, panics and outcomes *)

Inductive error : Type :=
| EOF                               (* io.EOF *)
| ErrUnexpectedEOF                  (* io.ErrUnexpectedEOF *)
| ErrClosed                         (* fmt.Errorf("closed") *)
| ErrAlreadyClosed                  (* fmt.Errorf("already closed") *)
| ErrInvalidWhence (whence : Z)     (* fmt.Errorf("invalid whence %d") *)
| ErrDelegate (msg : string).       (* an error of the collaborator *)

Definition error_eq_dec (a b : error) : {a = b} + {a <> b}.
Proof.
  decide equality; [apply Z.eq_dec | apply string_dec].
Defined.

Definition is_err (e : error) (o : option error) : bool :=
  match o with
  | Some e' => if error_eq_dec e e' then true else false
  | None => false
  end.

Definition is_nil (o : option error) : bool :=
  match o with
  | Some _ => false
  | None => true
  end.

Inductive panic : Type :=
| SliceBounds        (* slice bounds out of range *)
| DivideByZero       (* integer divide by zero *)
| MakeSliceLen.      (* makeslice: len out of range *)

Inductive outcome (A : Type) : Type :=
| Ret (a : A)
| Panic (p : panic)
| Spin.              (* the loop did not finish within the fuel *)

Arguments Ret {A} a.
Arguments Panic {A} p.
Arguments Spin {A}.

Definition bind {A B : Type} (m : outcome A) (k : A -> outcome B) : outcome B :=
  match m with
  | Ret a => k a
  | Panic p => Panic p
  | Spin => Spin
  end.

Notation "x <- m ;; k" := (bind m (fun x => k))
  (at level 61, m at next level, right associativity).
Notation "' pat <- m ;; k" := (bind m (fun x => match x with pat => k end))
  (at level 61, pat pattern, m at next level, right associativity).

(** [make([]byte, n)]: the run time refuses a negative length and one above
    [maxAlloc], the limit of its allocator (2^48 bytes on 64-bit Linux),
    with the panic "makeslice: len out of range".  A length within the
    limit is taken to be served: a machine without that much memory ends
    the program with a fatal error, which is no result of the call.  The
    properties that need the buffer keep its length below 2^31. *)
Definition maxAlloc : Z := 2 ^ 48.

Definition make_bytes (n : Z) : outcome (list byte) :=
  if (n <? 0) || (maxAlloc <? n) then Panic MakeSliceLen
  else Ret (repeat x00 (Z.to_nat n)).

(** Go's [/] and [%] on [int64]: truncated, panicking on a zero divisor. *)
Definition quot64 (a b : Z) : outcome Z :=
  if b =? 0 then Panic DivideByZero else Ret (wrap64 (Z.quot a b)).

Definition rem64 (a b : Z) : outcome Z :=
  if b =? 0 then Panic DivideByZero else Ret (Z.rem a b).

(** ** The collaborators *)

(** [io.ReadSeeker].  [rsRead r n] is [r.Read(v)] for a buffer of length
    [n]: it returns the bytes stored in the front of [v] (their number is
    Go's count) and the error.  [rsClose] is present when the value also
    implements [io.Closer]. *)
Class ReadSeeker (R : Type) : Type := {
  rsRead : R -> Z -> R * list byte * option error;
  rsSeek : R -> Z -> Z -> R * Z * option error;
  rsClose : option (R -> R * option error)
}.

(** [io.Writer], with [wClose] present when the value is an [io.Closer]. *)
Class Writer (W : Type) : Type := {
  wWrite : W -> list byte -> W * Z * option error;
  wClose : option (W -> W * option error)
}.

(** The interface value in a [delegate] field: the collaborator given at
    construction, or [_ERR_DELEGATE].  The collaborator itself lives with
    the caller; its state is an argument and a result of every call. *)
Inductive iface : Type :=
| Live
| errDelegate.

Section Dispatch.

Context {R : Type} `{ReadSeeker R} {W : Type} `{Writer W}.

Definition iface_Read (d : iface) (r : R) (n : Z)
  : R * list byte * option error :=
  match d with
  | Live => rsRead r n
  | errDelegate => (r, [], Some ErrClosed)
  end.

Definition iface_Seek (d : iface) (r : R) (offset whence : Z)
  : R * Z * option error :=
  match d with
  | Live => rsSeek r offset whence
  | errDelegate => (r, 0, Some ErrClosed)
  end.

(** [c, ok := delegate.(io.Closer); if ok { err = c.Close() }] *)
Definition iface_rClose (d : iface) (r : R) : R * option error :=
  match d with
  | Live =>
      match rsClose with
      | Some close => close r
      | None => (r, None)
      end
  | errDelegate => (r, Some ErrAlreadyClosed)
  end.

Definition iface_Write (d : iface) (w : W) (v : list byte)
  : W * Z * option error :=
  match d with
  | Live => wWrite w v
  | errDelegate => (w, 0, Some ErrClosed)
  end.

Definition iface_wClose (d : iface) (w : W) : W * option error :=
  match d with
  | Live =>
      match wClose with
      | Some close => close w
      | None => (w, None)
      end
  | errDelegate => (w, Some ErrAlreadyClosed)
  end.

(** [io.ReadAtLeast]: read until [min] bytes are in or an error comes; one
    unit of [fuel] pays for one read. *)
Fixpoint readAtLeast_loop (fuel : nat) (d : iface) (r : R) (buflen min : Z)
    (got : list byte) (err : option error)
  : outcome (R * list byte * option error) :=
  if (len got <? min) && is_nil err then
    match fuel with
    | O => Spin
    | S fuel' =>
        let '(r', bs, e) := iface_Read d r (buflen - len got) in
        readAtLeast_loop fuel' d r' buflen min (got ++ bs) e
    end
  else if min <=? len got then Ret (r, got, None)
  else if (0 <? len got) && is_err EOF err then Ret (r, got, Some ErrUnexpectedEOF)
  else Ret (r, got, err).

(** [io.ReadFull(d, buf)] for a buffer of length [buflen].  The fuel is
    enough for every reader whose reads into a non-empty buffer return a
    byte or an error, as the io.Reader contract asks. *)
Definition ReadFull (d : iface) (r : R) (buflen : Z)
  : outcome (R * list byte * option error) :=
  readAtLeast_loop (S (Z.to_nat buflen)) d r buflen buflen [] None.

End Dispatch.

(** [bytes.Reader]: the read side over bytes in memory.  The position is
    never negative ([Seek] refuses a negative target), so it is an [N]. *)
Record bytesReader : Type := mkBytesReader {
  rdata : list byte;
  rpos : N
}.

Definition bytesReader_Read (r : bytesReader) (n : Z)
  : bytesReader * list byte * option error :=
  if len (rdata r) <=? Z.of_N (rpos r) then (r, [], Some EOF)
  else
    let bs := slice_to (skipn (N.to_nat (rpos r)) (rdata r)) n in
    (mkBytesReader (rdata r) (rpos r + N.of_nat (List.length bs)), bs, None).

Definition bytesReader_Seek (r : bytesReader) (offset whence : Z)
  : bytesReader * Z * option error :=
  let seek_abs (abs : Z) :=
    if abs <? 0 then (r, 0, Some (ErrDelegate "bytes.Reader.Seek: negative position"))
    else (mkBytesReader (rdata r) (Z.to_N abs), abs, None) in
  if whence =? 0 then seek_abs offset
  else if whence =? 1 then seek_abs (wrap64 (Z.of_N (rpos r) + offset))
  else if whence =? 2 then seek_abs (wrap64 (len (rdata r) + offset))
  else (r, 0, Some (ErrDelegate "bytes.Reader.Seek: invalid whence")).

#[export] Instance bytesReader_ReadSeeker : ReadSeeker bytesReader := {
  rsRead := bytesReader_Read;
  rsSeek := bytesReader_Seek;
  rsClose := None
}.

(** [bytes.Buffer]: the write side in memory; a write appends and cannot
    fail. *)
Record bytesBuffer : Type := mkBytesBuffer {
  wdata : list byte
}.

Definition bytesBuffer_Write (b : bytesBuffer) (v : list byte)
  : bytesBuffer * Z * option error :=
  (mkBytesBuffer (wdata b ++ v), len v, None).

#[export] Instance bytesBuffer_Writer : Writer bytesBuffer := {
  wWrite := bytesBuffer_Write;
  wClose := None
}.

(** [hash.Hash32].  A streaming hash is determined by the function from the
    bytes ingested so far to the 32-bit value, [digest]; the accumulator
    is the ingested bytes.  [Sum] appends the value big-endian, as the
    hashes of the standard library do. *)
Class Hash32 : Type := {
  digest : list byte -> Z
}.

Record hashState : Type := mkHash {
  ingested : list byte
}.

Section Hash.

Context {H32 : Hash32}.

Definition newHash : hashState := mkHash [].

Definition hash_Write (h : hashState) (v : list byte) : hashState :=
  mkHash (ingested h ++ v).

Definition hash_Sum32 (h : hashState) : Z := digest (ingested h) mod 2 ^ 32.

Definition hash_Sum (h : hashState) (b : list byte) : list byte :=
  b ++ PutUint32 (hash_Sum32 h).

End Hash.

(** ** ChecksummedReader *)

Module Reader.

Record checksummedReaderImpl : Type := mk {
  delegate : iface;
  checksumInterval : Z;
  checksumOffset : Z;
  checksum : list byte
}.

Definition newChecksummedReaderImpl (interval : Z) : checksummedReaderImpl :=
  mk Live interval 0 (repeat x00 4).

(** The three expressions of [Seek], in [int64] arithmetic:
    [o % (int64(interval) + 4)], [o - (o / int64(interval) * 4)] and
    [offset + (offset / int64(interval) * 4)]. *)
Definition intraBlock (interval o : Z) : outcome Z :=
  rem64 o (wrap64 (interval + 4)).

Definition logicalOffset (interval o : Z) : outcome Z :=
  q <- quot64 o interval ;; Ret (wrap64 (o - wrap64 (q * 4))).

Definition physicalOffset (interval offset : Z) : outcome Z :=
  q <- quot64 offset interval ;; Ret (wrap64 (offset + wrap64 (q * 4))).

Section Ops.

Context {R : Type} `{ReadSeeker R} {H32 : Hash32}.

(** [Read(v)]: the source and the reader after the call, the buffer as the
    call leaves it, the count and the error.  [io.ReadFull] reads into
    [cri.checksum], so it asks for as many bytes as that buffer has (four
    after the constructor); the count is corrected by [4 - n2] whatever
    that length is. *)
Definition Read (r : R) (cri : checksummedReaderImpl) (v : list byte)
  : outcome (R * checksummedReaderImpl * list byte * Z * option error) :=
  let interval := checksumInterval cri in
  let dg := delegate cri in
  vlen <- (if interval <? checksumOffset cri + len v then
             if interval - checksumOffset cri <? 0 then Panic SliceBounds
             else Ret (interval - checksumOffset cri)
           else Ret (len v)) ;;
  let '(r, bs, err) := iface_Read dg r vlen in
  let v' := fill v bs in
  let n := len bs in
  let off := checksumOffset cri + n in
  if is_err EOF err then
    let n := n - 4 in
    let n := if n <? 0 then 0 else n in
    Ret (r, mk dg interval off (checksum cri), v', n, err)
  else if is_nil err then
    if off =? interval then
      '(r, cs, err2) <- ReadFull dg r (len (checksum cri)) ;;
      let n2 := len cs in
      (* the EOF stored here goes to the inner err, not to the result *)
      let n := if is_err EOF err2 || is_err ErrUnexpectedEOF err2
               then n - (4 - n2) else n in
      Ret (r, mk dg interval 0 (fill (checksum cri) cs), v', n, err)
    else
      '(r, cs, err2) <- ReadFull dg r (len (checksum cri)) ;;
      let n2 := len cs in
      if is_err EOF err2 || is_err ErrUnexpectedEOF err2 then
        Ret (r, mk dg interval off (fill (checksum cri) cs), v', n - (4 - n2), err)
      else
        let '(r, _, _) := iface_Seek dg r (wrap64 (- n2)) 1 in
        Ret (r, mk dg interval off (fill (checksum cri) cs), v', n, err)
  else Ret (r, mk dg interval off (checksum cri), v', n, err).

(** The statements of [Seek] after its [switch]: the absolute seek to the
    physical offset of [offset]. *)
Definition Seek_finish (r : R) (cri : checksummedReaderImpl) (offset : Z)
  : outcome (R * checksummedReaderImpl * Z * option error) :=
  let interval := checksumInterval cri in
  target <- physicalOffset interval offset ;;
  let '(r, o, err) := iface_Seek (delegate cri) r target 0 in
  off <- intraBlock interval o ;;
  lo <- logicalOffset interval o ;;
  Ret (r, mk (delegate cri) interval off (checksum cri), lo, err).

(** The cases 1 and 2 of the [switch]: [w] is the whence given to the
    delegate. *)
Definition Seek_relative (r : R) (cri : checksummedReaderImpl)
    (offset w : Z)
  : outcome (R * checksummedReaderImpl * Z * option error) :=
  let interval := checksumInterval cri in
  let '(r, o, err) := iface_Seek (delegate cri) r 0 w in
  off <- intraBlock interval o ;;
  lo <- logicalOffset interval o ;;
  let cri := mk (delegate cri) interval off (checksum cri) in
  match err with
  | Some e => Ret (r, cri, lo, Some e)
  | None => Seek_finish r cri (wrap64 (lo + offset))
  end.

Definition Seek (r : R) (cri : checksummedReaderImpl) (offset whence : Z)
  : outcome (R * checksummedReaderImpl * Z * option error) :=
  if whence =? 0 then Seek_finish r cri offset
  else if whence =? 1 then Seek_relative r cri offset 1
  else if whence =? 2 then Seek_relative r cri offset 2
  else
    let '(r, o, _) := iface_Seek (delegate cri) r 0 1 in
    Ret (r, cri, o, Some (ErrInvalidWhence whence)).

(** What [hash.Sum(cri.checksum[:0])] leaves in [cri.checksum]: the sum
    goes into the array of the slice when that has room for it (the
    capacity is the length, as [make] gives it), and into a new array
    otherwise. *)
Definition Sum_into (checksum mine : list byte) : list byte :=
  if len mine <=? len checksum then fill checksum mine else checksum.

Definition Verify (r : R) (cri : checksummedReaderImpl)
  : outcome (R * checksummedReaderImpl * bool * option error) :=
  let interval := checksumInterval cri in
  let off := checksumOffset cri in
  let dg := delegate cri in
  let '(r, originalOffset, err) := iface_Seek dg r 0 1 in
  match err with
  | Some e => Ret (r, cri, false, Some e)
  | None =>
  let '(r, err) :=
    if 0 <? off then
      let '(r', _, e) := iface_Seek dg r (wrap64 (- off)) 1 in (r', e)
    else (r, None) in
  match err with
  | Some e => Ret (r, cri, false, Some e)
  | None =>
  block <- make_bytes (interval + 4) ;;
  if interval <? 0 then Panic SliceBounds
  else
    '(r, got, err) <- ReadFull dg r (interval + 4) ;;
    let block := fill block got in
    let n := len got in
    sb <- (if is_err ErrUnexpectedEOF err then
             if n - 4 <? 0 then Panic SliceBounds
             else Ret (Some (slice_from (slice_to block n) (n - 4),
                             slice_to block (n - 4)))
           else if negb (is_nil err) then Ret None
           else Ret (Some (slice_from block interval,
                           slice_to block interval))) ;;
    match sb with
    | None => Ret (r, cri, false, err)
    | Some (sum, block) =>
        let hash := hash_Write newHash block in
        let mine := hash_Sum hash [] in
        let verified := bytes_Equal sum mine in
        let '(r, _, err) := iface_Seek dg r originalOffset 0 in
        Ret (r, mk dg interval off (Sum_into (checksum cri) mine), verified,
             err)
    end
  end
  end.

Definition Close (r : R) (cri : checksummedReaderImpl)
  : R * checksummedReaderImpl * option error :=
  let '(r, err) := iface_rClose (delegate cri) r in
  (r, mk errDelegate (checksumInterval cri) (checksumOffset cri) (checksum cri),
   err).

End Ops.

End Reader.

(** ** ChecksummedWriter *)

Module Writer.

Record checksummedWriterImpl : Type := mk {
  delegate : iface;
  checksumInterval : Z;
  checksumOffset : Z;
  hash : hashState;
  checksum : list byte
}.

(** The state after [cwi.delegate = _ERR_DELEGATE]. *)
Definition poison (cwi : checksummedWriterImpl) : checksummedWriterImpl :=
  mk errDelegate (checksumInterval cwi) (checksumOffset cwi) (hash cwi)
     (checksum cwi).

Section Ops.

Context {W : Type} `{Writer W} {H32 : Hash32}.

Definition newChecksummedWriterImpl (checksumInterval : Z)
  : checksummedWriterImpl :=
  mk Live checksumInterval 0 newHash (repeat x00 4).

(** [Write]; [n] is the count so far and one unit of [fuel] pays for one
    turn of the [for] loop. *)
Fixpoint Write_from (fuel : nat) (w : W) (cwi : checksummedWriterImpl)
    (v : list byte) (n : Z)
  : outcome (W * checksummedWriterImpl * Z * option error) :=
  let interval := checksumInterval cwi in
  let dg := delegate cwi in
  if interval <=? checksumOffset cwi + len v then
    match fuel with
    | O => Spin
    | S fuel' =>
        let k := interval - checksumOffset cwi in
        if k <? 0 then Panic SliceBounds
        else
          let '(w, n2, err) := iface_Write dg w (slice_to v k) in
          let n := n + n2 in
          match err with
          | Some e => Ret (w, poison cwi, n, Some e)
          | None =>
              let h := hash_Write (hash cwi) (slice_to v k) in
              let v := slice_from v k in
              let sum := PutUint32 (hash_Sum32 h) in
              let '(w, _, err) := iface_Write dg w sum in
              match err with
              | Some e =>
                  Ret (w, mk errDelegate interval (checksumOffset cwi) h sum,
                       n, Some e)
              | None => Write_from fuel' w (mk dg interval 0 newHash sum) v n
              end
          end
    end
  else if 0 <? len v then
    let '(w, n2, err) := iface_Write dg w v in
    let n := n + n2 in
    match err with
    | Some e => Ret (w, poison cwi, n, Some e)
    | None =>
        Ret (w, mk dg interval (checksumOffset cwi + n2)
                   (hash_Write (hash cwi) v) (checksum cwi), n, None)
    end
  else Ret (w, cwi, n, None).

Definition Write (fuel : nat) (w : W) (cwi : checksummedWriterImpl)
    (v : list byte)
  : outcome (W * checksummedWriterImpl * Z * option error) :=
  Write_from fuel w cwi v 0.

Definition Close (w : W) (cwi : checksummedWriterImpl)
  : W * checksummedWriterImpl * option error :=
  let '(w, sum, err) :=
    if 0 <? checksumOffset cwi then
      let sum := PutUint32 (hash_Sum32 (hash cwi)) in
      let '(w, _, err) := iface_Write (delegate cwi) w sum in
      (w, sum, err)
    else (w, checksum cwi, None) in
  let closed (w : W) (e : option error) :=
    (w, mk errDelegate (checksumInterval cwi) (checksumOffset cwi) (hash cwi) sum,
     e) in
  match err with
  | Some e => closed w (Some e)
  | None => let '(w, err) := iface_wClose (delegate cwi) w in closed w err
  end.

End Ops.

End Writer.

(** ** The in-memory source seen from its position *)

(** The bytes of the source from the position on. *)
Definition ahead (r : bytesReader) : list byte :=
  skipn (N.to_nat (rpos r)) (rdata r).

(** The source after [bs] has been read from it. *)
Definition advance (r : bytesReader) (bs : list byte) : bytesReader :=
  mkBytesReader (rdata r) (rpos r + N.of_nat (List.length bs)).

(** The error of [io.ReadFull] when [bs] came into a buffer of [buflen]. *)
Definition readFull_err (buflen : Z) (bs : list byte) : option error :=
  if buflen <=? len bs then None
  else if 0 <? len bs then Some ErrUnexpectedEOF
  else Some EOF.

Definition int64_range (z : Z) : Prop := - 2 ^ 63 <= z < 2 ^ 63.

(** ** Two hash constructions for the examples *)

(** [hash/fnv.New32a]: FNV-1a on 32 bits. *)
Definition fnv32a_step (h : Z) (b : byte) : Z :=
  (Z.lxor h (Z_of_byte b) * 16777619) mod 2 ^ 32.

Definition fnv32a : Hash32 :=
  {| digest := fun bs => fold_left fnv32a_step bs 2166136261 |}.

(** A degenerate but admissible [hash.Hash32]: the number of bytes. *)
Definition lengthHash : Hash32 :=
  {| digest := fun bs => len bs |}.

(** ** The wire layout and the callers' loops *)

Section Layout.

Context {H32 : Hash32}.

(** The digest bytes the writer emits for the block [blk]. *)
Definition block_sum (blk : list byte) : list byte :=
  PutUint32 (hash_Sum32 (hash_Write newHash blk)).

(** The wire layout of the package documentation: every run of [interval]
    content bytes, and the shorter last run when there is one, is followed
    by the four digest bytes of that run.  [fuel] bounds the number of
    blocks. *)
Fixpoint layout_blocks (fuel : nat) (interval : Z) (c : list byte) : list byte :=
  match fuel with
  | O => []
  | S fuel' =>
      match c with
      | [] => []
      | _ :: _ =>
          slice_to c interval ++ block_sum (slice_to c interval)
            ++ layout_blocks fuel' interval (slice_from c interval)
      end
  end.

Definition layout (interval : Z) (c : list byte) : list byte :=
  layout_blocks (List.length c) interval c.

(** The content split at the last block boundary. *)
Definition full_part (interval : Z) (c : list byte) : list byte :=
  slice_to c (len c / interval * interval).

Definition pending_part (interval : Z) (c : list byte) : list byte :=
  slice_from c (len c / interval * interval).

(** What the sink holds once the content [c] has been written and the
    writer is still open: the full blocks framed, the pending bytes bare. *)
Definition sofar (interval : Z) (c : list byte) : list byte :=
  layout interval (full_part interval c) ++ pending_part interval c.

(** The open writer after the content [c]. *)
Definition writer_holds (interval : Z) (c : list byte)
    (cwi : Writer.checksummedWriterImpl) : Prop :=
  Writer.delegate cwi = Live /\
  Writer.checksumInterval cwi = interval /\
  Writer.checksumOffset cwi = len c mod interval /\
  Writer.hash cwi = mkHash (pending_part interval c).

(** A caller that writes the chunks [vs] in turn and stops at the first
    error; each [Write] gets the fuel for a slice of its length. *)
Fixpoint writeAll {W : Type} `{Writer W} (w : W)
    (cwi : Writer.checksummedWriterImpl) (vs : list (list byte))
  : outcome (W * Writer.checksummedWriterImpl * option error) :=
  match vs with
  | [] => Ret (w, cwi, None)
  | v :: vs' =>
      '(w, cwi, _, err) <- Writer.Write (S (List.length v)) w cwi v ;;
      match err with
      | Some e => Ret (w, cwi, Some e)
      | None => writeAll w cwi vs'
      end
  end.

(** ... and then closes the writer. *)
Definition writeAllClose {W : Type} `{Writer W} (w : W)
    (cwi : Writer.checksummedWriterImpl) (vs : list (list byte))
  : outcome (W * Writer.checksummedWriterImpl * option error) :=
  '(w, cwi, err) <- writeAll w cwi vs ;;
  match err with
  | Some e => Ret (w, cwi, Some e)
  | None => Ret (Writer.Close w cwi)
  end.

End Layout.

(** A caller that reads to the end as [io.ReadAll] does: it calls [Read]
    with the buffer [v] until an error comes and keeps [v[:n]] of every
    call. *)
Fixpoint readAll {R : Type} `{ReadSeeker R} (fuel : nat) (r : R)
    (cri : Reader.checksummedReaderImpl) (v : list byte)
  : outcome (R * Reader.checksummedReaderImpl * list byte * option error) :=
  match fuel with
  | O => Spin
  | S fuel' =>
      '(r, cri, v, n, err) <- Reader.Read r cri v ;;
      match err with
      | Some e => Ret (r, cri, slice_to v n, Some e)
      | None =>
          '(r, cri, rest, e) <- readAll fuel' r cri v ;;
          Ret (r, cri, slice_to v n ++ rest, e)
      end
  end.

(** The bytes ahead of a reader that has [off] bytes of the current block
    behind it, and the content they carry: full blocks with their digests,
    then either nothing or a shorter block with its digest.  The digests
    are any four bytes. *)
Inductive tail_layout (interval : Z) : Z -> list byte -> list byte -> Prop :=
| TL_eof : forall off,
    0 <= off < interval ->
    tail_layout interval off [] []
| TL_full : forall off b d rest c,
    0 <= off < interval -> len b = interval - off -> len d = 4 ->
    tail_layout interval 0 rest c ->
    tail_layout interval off (b ++ d ++ rest) (b ++ c)
| TL_partial : forall off b d,
    0 <= off -> off + len b < interval -> len d = 4 ->
    tail_layout interval off (b ++ d) b.

(** ** Corruption at the source *)

(** The byte [b] with its bit [bit] (0 the lowest) inverted. *)
Definition flip (b : byte) (bit : nat) : byte :=
  byte_of_Z (Z.lxor (Z_of_byte b) (2 ^ Z.of_nat bit)).

(** The bytes [s] with one bit of the byte at index [q] inverted. *)
Definition flip_bit (s : list byte) (q : Z) (bit : nat) : list byte :=
  slice_to s q ++
  match slice_from s q with
  | [] => []
  | b :: rest => flip b bit :: rest
  end.


(** A caller that seeks to the logical offset [L] on a fresh reader and
    verifies the block there. *)
Definition verifyAt {R : Type} `{ReadSeeker R} {H32 : Hash32}
    (interval L : Z) (r : R)
  : outcome (R * Reader.checksummedReaderImpl * bool * option error) :=
  '(r, cri, _, err) <-
    Reader.Seek r (Reader.newChecksummedReaderImpl interval) L 0 ;;
  match err with
  | Some e => Ret (r, cri, false, Some e)
  | None => Reader.Verify r cri
  end.


(** ** NullIO *)

(** [NullIO]: the [io.WriteCloser] that throws all data away. *)
Inductive NullIO : Type := mkNullIO.

Definition NullIO_Write (nw : NullIO) (v : list byte)
  : NullIO * Z * option error :=
  (nw, len v, None).

Definition NullIO_Close (nw : NullIO) : NullIO * option error :=
  (nw, None).

#[export] Instance NullIO_Writer : Writer NullIO := {
  wWrite := NullIO_Write;
  wClose := Some NullIO_Close
}.


(** ** NextHighestPowerOfTwo *)

(** The value of a [uint64] expression: arithmetic modulo 2^64. *)
Definition uint64 (z : Z) : Z := z mod 2 ^ 64.

Definition NextHighestPowerOfTwo (v : Z) : Z :=
  let v := uint64 (v - 1) in
  let v := Z.lor v (Z.shiftr v 1) in
  let v := Z.lor v (Z.shiftr v 2) in
  let v := Z.lor v (Z.shiftr v 4) in
  let v := Z.lor v (Z.shiftr v 8) in
  let v := Z.lor v (Z.shiftr v 16) in
  let v := Z.lor v (Z.shiftr v 32) in
  uint64 (v + 1).

(** [y] has a bit set exactly where [x] has one among the [w] bits from
    there upwards. *)
Definition smeared (w : Z) (y x : Z) : Prop :=
  forall i, 0 <= i ->
    (Z.testbit y i = true <->
     exists j, 0 <= j < w /\ Z.testbit x (i + j) = true).


(** ** Scrambled *)

(** [rand.Source]: [Int63] returns the next value and advances the
    source. *)
Class Source (Src : Type) : Type := {
  Int63 : Src -> Z * Src
}.

(** A linear congruential source for the examples. *)
Record lcg : Type := mkLcg { lcg_state : Z }.

#[export] Instance lcg_Source : Source lcg := {
  Int63 := fun s =>
    let x := (lcg_state s * 6364136223846793005 + 1442695040888963407)
             mod 2 ^ 63 in
    (x, mkLcg x)
}.

(** What [Scrambled.Read] can come to: the buffer filled, an index out of
    range, or a loop that is out of fuel. *)
Inductive filled (A : Type) : Type :=
| Filled (a : A)
| IndexOutOfRange
| Unfinished.

Arguments Filled {A} a.
Arguments IndexOutOfRange {A}.
Arguments Unfinished {A}.

(** [bs[i] = b] *)
Definition store (bs : list byte) (i : Z) (b : byte) : filled (list byte) :=
  if (0 <=? i) && (i <? len bs)
  then Filled (slice_to bs i ++ b :: slice_from bs (i + 1))
  else IndexOutOfRange.

(** The [k] low bytes of [v], the lowest last. *)
Fixpoint low_bytes (k : nat) (v : Z) : list byte :=
  match k with
  | O => []
  | S k' => low_bytes k' (Z.shiftr v 8) ++ [byte_of_Z v]
  end.

Section Scrambled.

Context {Src : Type} `{Source Src}.

(** The inner loop of [Read], [for j := 7; i >= 0 && j >= 0; j--], with
    [turns] the turns left for [j]. *)
Fixpoint Scrambled_fill (turns : nat) (bs : list byte) (i v : Z)
  : filled (list byte * Z) :=
  match turns with
  | O => Filled (bs, i)
  | S turns' =>
      if 0 <=? i then
        match store bs i (byte_of_Z v) with
        | Filled bs' => Scrambled_fill turns' bs' (i - 1) (Z.shiftr v 8)
        | IndexOutOfRange => IndexOutOfRange
        | Unfinished => Unfinished
        end
      else Filled (bs, i)
  end.

(** The outer loop, [for i := len(bs) - 1; i >= 0; ]: one value of the
    source for each turn. *)
Fixpoint Scrambled_loop (fuel : nat) (s : Src) (bs : list byte) (i : Z)
  : filled (Src * list byte) :=
  if 0 <=? i then
    match fuel with
    | O => Unfinished
    | S fuel' =>
        let '(v, s') := Int63 s in
        match Scrambled_fill 8 bs i v with
        | Filled (bs', i') => Scrambled_loop fuel' s' bs' i'
        | IndexOutOfRange => IndexOutOfRange
        | Unfinished => Unfinished
        end
    end
  else Filled (s, bs).

(** [Scrambled.Read(bs)]: the source and the buffer after the call. *)
Definition Scrambled_Read (fuel : nat) (s : Src) (bs : list byte)
  : filled (Src * list byte) :=
  Scrambled_loop fuel s bs (len bs - 1).

(** The source after [k] values have been drawn. *)
Fixpoint drawn (k : nat) (s : Src) : Src :=
  match k with
  | O => s
  | S k' => drawn k' (snd (Int63 s))
  end.

(** The bytes [Read] leaves in a buffer of [n] bytes: the low bytes of the
    first value at the end, before them the bytes for the [n - 8] bytes
    in front. *)
Fixpoint scrambled_bytes (fuel : nat) (s : Src) (n : nat) : list byte :=
  match fuel with
  | O => []
  | S fuel' =>
      match n with
      | O => []
      | S _ =>
          scrambled_bytes fuel' (snd (Int63 s)) (n - 8)
            ++ low_bytes (Nat.min 8 n) (fst (Int63 s))
      end
  end.

End Scrambled.

(* ================================================================== *)
(** * Properties *)

Ltac zbool :=
  repeat match goal with
    | |- context [?a <? ?b] =>
        first [ replace (a <? b) with true by (symmetry; apply Z.ltb_lt; lia)
              | replace (a <? b) with false by (symmetry; apply Z.ltb_ge; lia) ]
    | |- context [?a <=? ?b] =>
        first [ replace (a <=? b) with true by (symmetry; apply Z.leb_le; lia)
              | replace (a <=? b) with false by (symmetry; apply Z.leb_gt; lia) ]
    | |- context [?a =? ?b] =>
        first [ replace (a =? b) with true by (symmetry; apply Z.eqb_eq; lia)
              | replace (a =? b) with false by (symmetry; apply Z.eqb_neq; lia) ]
    end.

(** ** Integers and slices *)

Lemma wrap64_small (z : Z) : int64_range z -> wrap64 z = z.
Proof.
  unfold int64_range. intros Hz. unfold wrap64. rewrite Z.mod_small; lia.
Qed.

Lemma len_nil {A : Type} : len (@nil A) = 0.
Proof. reflexivity. Qed.

Lemma len_app {A : Type} (a b : list A) : len (a ++ b) = len a + len b.
Proof. unfold len. rewrite length_app. lia. Qed.

Lemma len_nonneg {A : Type} (a : list A) : 0 <= len a.
Proof. unfold len. lia. Qed.

Lemma len_slice_to {A : Type} (v : list A) (k : Z) :
  len (slice_to v k) = Z.min (Z.max k 0) (len v).
Proof. unfold len, slice_to. rewrite length_firstn. lia. Qed.

Lemma len_slice_from {A : Type} (v : list A) (k : Z) :
  len (slice_from v k) = Z.max 0 (len v - Z.max k 0).
Proof. unfold len, slice_from. rewrite length_skipn. lia. Qed.

(** ** The in-memory source *)

Lemma advance_nil (r : bytesReader) : advance r [] = r.
Proof. destruct r; unfold advance; simpl. now rewrite N.add_0_r. Qed.

Lemma ahead_advance (r : bytesReader) (k : Z) :
  ahead (advance r (slice_to (ahead r) k)) = slice_from (ahead r) k.
Proof.
  unfold ahead, advance, slice_to, slice_from; simpl.
  rewrite skipn_skipn, length_firstn, length_skipn.
  destruct (Z.to_nat k <=? List.length (rdata r) - N.to_nat (rpos r))%nat eqn:E.
  - apply Nat.leb_le in E. f_equal. lia.
  - apply Nat.leb_gt in E. rewrite !skipn_all2; auto; lia.
Qed.

Lemma ahead_nil (r : bytesReader) :
  len (rdata r) <= Z.of_N (rpos r) <-> ahead r = [].
Proof.
  unfold ahead, len. split.
  - intros. apply skipn_all2. lia.
  - intros E.
    assert (Hl : List.length (skipn (N.to_nat (rpos r)) (rdata r)) = 0%nat)
      by now rewrite E.
    rewrite length_skipn in Hl. lia.
Qed.

Lemma bytesReader_Read_eq (r : bytesReader) (n : Z) :
  bytesReader_Read r n =
  if len (rdata r) <=? Z.of_N (rpos r) then (r, [], Some EOF)
  else (advance r (slice_to (ahead r) n), slice_to (ahead r) n, None).
Proof. reflexivity. Qed.

(** [io.ReadFull] on the in-memory source, in closed form: it takes what is
    ahead, up to the length of the buffer. *)
Lemma ReadFull_mem (r : bytesReader) (buflen : Z) :
  ReadFull Live r buflen =
  Ret (advance r (slice_to (ahead r) buflen), slice_to (ahead r) buflen,
       readFull_err buflen (slice_to (ahead r) buflen)).
Proof.
  unfold ReadFull, readFull_err.
  set (bs := slice_to (ahead r) buflen).
  pose proof (len_slice_to (ahead r) buflen) as Hlen. fold bs in Hlen.
  pose proof (len_nonneg (ahead r)) as Hah.
  destruct (Z_le_gt_dec buflen 0) as [Hb | Hb].
  - assert (Hbs : bs = []).
    { unfold bs, slice_to. replace (Z.to_nat buflen) with 0%nat by lia.
      reflexivity. }
    rewrite Hbs, advance_nil. cbn [readAtLeast_loop]. rewrite len_nil.
    zbool. reflexivity.
  - destruct (Z.to_nat buflen) as [|fuel] eqn:Eb; [lia|].
    cbn [readAtLeast_loop]. rewrite len_nil. zbool.
    cbn [andb is_nil iface_Read rsRead bytesReader_ReadSeeker].
    rewrite Z.sub_0_r, bytesReader_Read_eq. fold bs.
    destruct (len (rdata r) <=? Z.of_N (rpos r)) eqn:E.
    + apply Z.leb_le in E. apply ahead_nil in E.
      assert (Hbs : bs = []).
      { unfold bs; rewrite E; unfold slice_to; now rewrite firstn_nil. }
      rewrite Hbs, advance_nil. cbn [app readAtLeast_loop]. rewrite len_nil.
      zbool. reflexivity.
    + cbn [app].
      apply Z.leb_gt in E.
      assert (Hne : 0 < len (ahead r)).
      { unfold ahead, len in *. rewrite length_skipn. lia. }
      destruct (Z_le_gt_dec buflen (len bs)) as [Hf | Hf].
      * (* the buffer is full after one read *)
        cbn [readAtLeast_loop]. zbool. reflexivity.
      * (* a short read: the next one finds the end *)
        assert (Hall : bs = ahead r).
        { unfold bs, slice_to. apply firstn_all2. unfold len in *. lia. }
        cbn [readAtLeast_loop]. zbool.
        cbn [andb is_nil iface_Read rsRead bytesReader_ReadSeeker].
        rewrite bytesReader_Read_eq.
        assert (Hend : (len (rdata (advance r bs))
                        <=? Z.of_N (rpos (advance r bs))) = true).
        { apply Z.leb_le. unfold advance; simpl. rewrite Hall.
          unfold ahead, len in *. rewrite length_skipn in *. lia. }
        rewrite Hend, app_nil_r.
        assert (Hlb : len bs = len (ahead r)) by congruence.
        destruct fuel; [exfalso; lia|].
        cbn [readAtLeast_loop]. zbool. reflexivity.
Qed.

Lemma bytesReader_Seek_abs (r : bytesReader) (o : Z) :
  0 <= o ->
  bytesReader_Seek r o 0 = (mkBytesReader (rdata r) (Z.to_N o), o, None).
Proof.
  intros Ho. unfold bytesReader_Seek. cbn. zbool. reflexivity.
Qed.

Lemma bytesReader_Seek_rel (r : bytesReader) (d : Z) :
  int64_range (Z.of_N (rpos r) + d) -> 0 <= Z.of_N (rpos r) + d ->
  bytesReader_Seek r d 1 =
  (mkBytesReader (rdata r) (Z.to_N (Z.of_N (rpos r) + d)),
   Z.of_N (rpos r) + d, None).
Proof.
  intros Hr Hd. unfold bytesReader_Seek. cbn.
  rewrite (wrap64_small Hr). zbool. reflexivity.
Qed.

Lemma bytesReader_Seek_cur (r : bytesReader) :
  Z.of_N (rpos r) < 2 ^ 63 ->
  bytesReader_Seek r 0 1 = (r, Z.of_N (rpos r), None).
Proof.
  intros Hp. rewrite bytesReader_Seek_rel.
  - rewrite Z.add_0_r, N2Z.id. now destruct r.
  - unfold int64_range. lia.
  - lia.
Qed.

Lemma ahead_at (s : list byte) (p : N) :
  ahead (mkBytesReader s p) = skipn (N.to_nat p) s.
Proof. reflexivity. Qed.

(** ** Verify on a block of one to three bytes *)

(** C9.  There are reader states in which [Verify] panics instead of
    returning an error: when at least one and at most three bytes are left
    from the start of the block under the cursor, [io.ReadFull] reports
    [ErrUnexpectedEOF] with [n < 4], and [block[n-4:n]] has a negative
    bound.  (With an interval above the limit of the allocator the panic
    comes before that, from [make].) *)
Theorem Verify_panics_on_short_block
    {H32 : Hash32} (r : bytesReader) (cri : Reader.checksummedReaderImpl) :
  Reader.delegate cri = Live ->
  0 <= Reader.checksumInterval cri ->
  0 <= Reader.checksumOffset cri <= Z.of_N (rpos r) ->
  Z.of_N (rpos r) < 2 ^ 63 ->
  1 <= len (rdata r) - (Z.of_N (rpos r) - Reader.checksumOffset cri) <= 3 ->
  Reader.Verify r cri
  = Panic (if maxAlloc <? Reader.checksumInterval cri + 4
           then MakeSliceLen else SliceBounds).
Proof.
  intros Hd Hi Ho Hp Hleft.
  unfold Reader.Verify. rewrite Hd.
  cbn [iface_Seek rsSeek bytesReader_ReadSeeker].
  rewrite bytesReader_Seek_cur by assumption.
  set (off := Reader.checksumOffset cri) in *.
  set (start := mkBytesReader (rdata r) (Z.to_N (Z.of_N (rpos r) - off))).
  assert (Hrewind :
    (if 0 <? off
     then let '(r', _, e) := bytesReader_Seek r (wrap64 (- off)) 1 in (r', e)
     else (r, None)) = (start, None)).
  { destruct (0 <? off) eqn:E.
    - rewrite wrap64_small by (unfold int64_range; lia).
      rewrite bytesReader_Seek_rel by (unfold int64_range; lia).
      reflexivity.
    - apply Z.ltb_ge in E. assert (off = 0) by lia.
      unfold start. replace (Z.of_N (rpos r) - off) with (Z.of_N (rpos r)) by lia.
      rewrite N2Z.id. now destruct r. }
  rewrite Hrewind. unfold make_bytes.
  replace (Reader.checksumInterval cri + 4 <? 0) with false
    by (symmetry; apply Z.ltb_ge; lia).
  destruct (maxAlloc <? Reader.checksumInterval cri + 4); cbn [orb bind];
    [reflexivity|].
  zbool.
  rewrite ReadFull_mem. cbn [bind].
  set (got := slice_to (ahead start) (Reader.checksumInterval cri + 4)).
  assert (Hgot : 1 <= len got <= 3).
  { unfold got. rewrite len_slice_to. unfold start. rewrite ahead_at.
    unfold len in *. rewrite length_skipn. lia. }
  unfold readFull_err. zbool.
  cbn [is_err]. destruct (error_eq_dec ErrUnexpectedEOF ErrUnexpectedEOF); [|congruence].
  zbool. reflexivity.
Qed.

Lemma Verify_panics_on_short_block_witness :
  @Reader.Verify _ _ fnv32a (mkBytesReader [x2a] 0)
    (Reader.newChecksummedReaderImpl 4)
  = Panic SliceBounds.
Proof.
  exact (@Verify_panics_on_short_block fnv32a (mkBytesReader [x2a] 0)
           (Reader.newChecksummedReaderImpl 4) eq_refl
           ltac:(cbn; lia) ltac:(cbn; lia) ltac:(cbn; lia) ltac:(cbn; lia)).
Defined.

(** ** Termination of Write *)

Lemma Write_from_total {W : Type} `{Writer W} {H32 : Hash32}
    (fuel : nat) (w : W) (cwi : Writer.checksummedWriterImpl)
    (v : list byte) (n : Z) :
  1 <= Writer.checksumInterval cwi ->
  0 <= Writer.checksumOffset cwi < Writer.checksumInterval cwi ->
  (List.length v < fuel)%nat ->
  exists res, Writer.Write_from fuel w cwi v n = Ret res.
Proof.
  revert w cwi v n.
  induction fuel as [|fuel IH]; intros w cwi v n Hi Ho Hf; [lia|].
  cbn [Writer.Write_from].
  destruct (Writer.checksumInterval cwi <=? Writer.checksumOffset cwi + len v) eqn:E.
  - apply Z.leb_le in E. zbool.
    destruct (iface_Write (Writer.delegate cwi) w
                (slice_to v (Writer.checksumInterval cwi - Writer.checksumOffset cwi)))
      as [[w1 n2] [e|]]; [eauto|].
    destruct (iface_Write (Writer.delegate cwi) w1 _) as [[w2 n3] [e|]]; [eauto|].
    apply IH; cbn; try lia.
    unfold slice_from, len in *. rewrite length_skipn. lia.
  - destruct (0 <? len v).
    + destruct (iface_Write (Writer.delegate cwi) w v) as [[w1 n2] [e|]]; eauto.
    + eauto.
Qed.

Lemma Write_from_spins (fuel : nat) (b : bytesBuffer) {H32 : Hash32}
    (cwi : Writer.checksummedWriterImpl) (v : list byte) (n : Z) :
  Writer.delegate cwi = Live ->
  Writer.checksumInterval cwi = 0 ->
  Writer.checksumOffset cwi = 0 ->
  Writer.Write_from fuel b cwi v n = Spin.
Proof.
  revert b cwi v n.
  induction fuel as [|fuel IH]; intros b cwi v n Hd Hi Ho;
    cbn [Writer.Write_from]; rewrite Hi, Ho; pose proof (len_nonneg v); zbool.
  - reflexivity.
  - rewrite Hd. cbn [iface_Write wWrite bytesBuffer_Writer bytesBuffer_Write].
    apply IH; reflexivity.
Qed.

Lemma Write_from_negative_interval {W : Type} `{Writer W} {H32 : Hash32}
    (fuel : nat) (w : W) (cwi : Writer.checksummedWriterImpl)
    (v : list byte) (n : Z) :
  Writer.checksumInterval cwi < 0 ->
  0 <= Writer.checksumOffset cwi ->
  Writer.Write_from (S fuel) w cwi v n = Panic SliceBounds.
Proof.
  intros Hi Ho. cbn [Writer.Write_from]. pose proof (len_nonneg v). zbool.
  reflexivity.
Qed.

(** C10, amended.  With [interval >= 1] every [Write] ends, whatever the
    sink does: each turn of the loop takes at least one byte of the input,
    so the fuel for [len(v) + 1] turns is enough.  With [interval = 0] a
    fresh writer on a sink that accepts every write never ends, and with a
    negative interval the first turn panics on [v[:interval-offset]]. *)
Theorem Write_terminates_iff_positive_interval {H32 : Hash32} :
  (forall (W : Type) (HW : Writer W) (w : W) (cwi : Writer.checksummedWriterImpl)
          (v : list byte) (fuel : nat),
      1 <= Writer.checksumInterval cwi ->
      0 <= Writer.checksumOffset cwi < Writer.checksumInterval cwi ->
      (List.length v < fuel)%nat ->
      exists res, Writer.Write fuel w cwi v = Ret res) /\
  (forall (b : bytesBuffer) (v : list byte) (fuel : nat),
      Writer.Write fuel b (Writer.newChecksummedWriterImpl 0) v = Spin) /\
  (forall (W : Type) (HW : Writer W) (w : W) (v : list byte) (fuel : nat)
          (interval : Z),
      interval < 0 ->
      Writer.Write (S fuel) w (Writer.newChecksummedWriterImpl interval) v
      = Panic SliceBounds).
Proof.
  split; [|split].
  - intros. now apply Write_from_total.
  - intros. now apply Write_from_spins.
  - intros. apply Write_from_negative_interval; cbn; lia.
Qed.

Lemma Write_terminates_iff_positive_interval_witness :
  (exists res,
      @Writer.Write _ bytesBuffer_Writer fnv32a 3 (mkBytesBuffer [])
        (Writer.newChecksummedWriterImpl 1) [x01; x02] = Ret res) /\
  @Writer.Write _ bytesBuffer_Writer fnv32a 7 (mkBytesBuffer [])
    (Writer.newChecksummedWriterImpl 0) [x01; x02] = Spin /\
  @Writer.Write _ bytesBuffer_Writer fnv32a 1 (mkBytesBuffer [])
    (Writer.newChecksummedWriterImpl (-1)) [x01; x02] = Panic SliceBounds.
Proof.
  destruct (@Write_terminates_iff_positive_interval fnv32a) as (Ha & Hb & Hc).
  split; [|split].
  - apply Ha; cbn; lia.
  - apply Hb.
  - apply Hc. lia.
Defined.

(** C10, as stated, fails: with [interval <= 0] a [Write] can end.  On a
    closed writer with interval 0 it returns the closed error, and with
    interval -1 it panics at once. *)
Lemma Write_with_nonpositive_interval_ends :
  (let '(b, cwi, _) :=
     @Writer.Close _ bytesBuffer_Writer fnv32a (mkBytesBuffer [])
       (Writer.newChecksummedWriterImpl 0) in
   @Writer.Write _ bytesBuffer_Writer fnv32a 1 b cwi [x01]
   = Ret (b, cwi, 0, Some ErrClosed)) /\
  @Writer.Write _ bytesBuffer_Writer fnv32a 1 (mkBytesBuffer [])
    (Writer.newChecksummedWriterImpl (-1)) [x01] = Panic SliceBounds.
Proof.
  split; reflexivity.
Qed.

(** ** The closed state *)

Lemma wrap64_0 : wrap64 0 = 0.
Proof. reflexivity. Qed.

Lemma wrap64_interval_plus_4 (interval : Z) :
  1 <= interval < 2 ^ 63 -> wrap64 (interval + 4) <> 0.
Proof.
  intros Hi. unfold wrap64.
  destruct (Z_lt_ge_dec (interval + 4) (2 ^ 63)) as [Hs | Hb].
  - rewrite Z.mod_small by lia. lia.
  - replace (interval + 4 + 2 ^ 63) with ((interval + 4 - 2 ^ 63) + 1 * 2 ^ 64) by lia.
    rewrite Z.mod_add by lia. rewrite Z.mod_small by lia. lia.
Qed.

Section Closed.

Context {R : Type} {HR : ReadSeeker R} {W : Type} {HW : Writer W}
        {H32 : Hash32}.

Lemma closed_Read (r : R) (cri : Reader.checksummedReaderImpl) (v : list byte) :
  Reader.delegate cri = errDelegate ->
  Reader.checksumOffset cri <= Reader.checksumInterval cri ->
  Reader.Read r cri v = Ret (r, cri, v, 0, Some ErrClosed).
Proof.
  intros Hd Ho. unfold Reader.Read. rewrite Hd.
  assert (Hst : Reader.mk errDelegate (Reader.checksumInterval cri)
                  (Reader.checksumOffset cri + len (@nil byte))
                  (Reader.checksum cri) = cri).
  { rewrite len_nil, Z.add_0_r. destruct cri; cbn in *; congruence. }
  destruct (Reader.checksumInterval cri <? Reader.checksumOffset cri + len v);
    zbool; cbn [bind iface_Read is_err is_nil]; rewrite Hst, ?(@len_nil byte);
    reflexivity.
Qed.

Lemma closed_Seek (r : R) (cri : Reader.checksummedReaderImpl)
    (offset whence : Z) :
  Reader.delegate cri = errDelegate ->
  1 <= Reader.checksumInterval cri < 2 ^ 63 ->
  Reader.Seek r cri offset whence =
  if (whence =? 0) || (whence =? 1) || (whence =? 2)
  then Ret (r, Reader.mk errDelegate (Reader.checksumInterval cri) 0
                 (Reader.checksum cri), 0, Some ErrClosed)
  else Ret (r, cri, 0, Some (ErrInvalidWhence whence)).
Proof.
  intros Hd Hi.
  unfold Reader.Seek, Reader.Seek_relative, Reader.Seek_finish. rewrite Hd.
  pose proof (wrap64_interval_plus_4 Hi) as Hw.
  assert (Hib : Reader.intraBlock (Reader.checksumInterval cri) 0 = Ret 0).
  { unfold Reader.intraBlock, rem64.
    destruct (wrap64 (Reader.checksumInterval cri + 4) =? 0) eqn:E;
      [apply Z.eqb_eq in E; contradiction | reflexivity]. }
  assert (Hlo : Reader.logicalOffset (Reader.checksumInterval cri) 0 = Ret 0).
  { unfold Reader.logicalOffset, quot64. zbool. reflexivity. }
  assert (Hph : exists t,
             Reader.physicalOffset (Reader.checksumInterval cri) offset = Ret t).
  { unfold Reader.physicalOffset, quot64. zbool. cbn. eauto. }
  destruct Hph as [t Hph].
  destruct (whence =? 0) eqn:E0; [cbn; rewrite Hph; cbn; now rewrite Hib, Hlo|].
  destruct (whence =? 1) eqn:E1; [cbn; now rewrite Hib, Hlo|].
  destruct (whence =? 2) eqn:E2; [cbn; now rewrite Hib, Hlo|].
  reflexivity.
Qed.

Lemma closed_Verify (r : R) (cri : Reader.checksummedReaderImpl) :
  Reader.delegate cri = errDelegate ->
  Reader.Verify r cri = Ret (r, cri, false, Some ErrClosed).
Proof.
  intros Hd. unfold Reader.Verify. now rewrite Hd.
Qed.

Lemma closed_reader_Close (r : R) (cri : Reader.checksummedReaderImpl) :
  Reader.delegate cri = errDelegate ->
  Reader.Close r cri = (r, cri, Some ErrAlreadyClosed).
Proof.
  intros Hd. unfold Reader.Close. rewrite Hd. cbn.
  destruct cri; cbn in *; congruence.
Qed.

Lemma closed_Write (fuel : nat) (w : W) (cwi : Writer.checksummedWriterImpl)
    (v : list byte) :
  Writer.delegate cwi = errDelegate ->
  0 <= Writer.checksumOffset cwi < Writer.checksumInterval cwi ->
  Writer.Write (S fuel) w cwi v =
  match v with
  | [] => Ret (w, cwi, 0, None)
  | _ :: _ => Ret (w, cwi, 0, Some ErrClosed)
  end.
Proof.
  intros Hd Ho. unfold Writer.Write. cbn [Writer.Write_from]. rewrite Hd.
  assert (Hp : Writer.poison cwi = cwi).
  { unfold Writer.poison. destruct cwi; cbn in *; congruence. }
  destruct (Writer.checksumInterval cwi <=? Writer.checksumOffset cwi + len v) eqn:E.
  - apply Z.leb_le in E. zbool. cbn. rewrite Hp.
    destruct v; [rewrite len_nil in E; lia | reflexivity].
  - destruct v as [|a v]; [reflexivity|].
    replace (0 <? len (a :: v)) with true
      by (symmetry; apply Z.ltb_lt; unfold len; cbn [List.length]; lia).
    cbn. now rewrite Hp.
Qed.

Lemma closed_writer_Close (w : W) (cwi : Writer.checksummedWriterImpl) :
  Writer.delegate cwi = errDelegate ->
  exists cwi',
    Writer.Close w cwi
    = (w, cwi',
       Some (if 0 <? Writer.checksumOffset cwi
             then ErrClosed else ErrAlreadyClosed)) /\
    Writer.delegate cwi' = errDelegate.
Proof.
  intros Hd. unfold Writer.Close. rewrite Hd.
  destruct (0 <? Writer.checksumOffset cwi); cbn; eauto.
Qed.

Lemma Reader_Close_closes (r : R) (cri : Reader.checksummedReaderImpl) :
  Reader.delegate (snd (fst (Reader.Close r cri))) = errDelegate.
Proof.
  unfold Reader.Close. now destruct (iface_rClose (Reader.delegate cri) r).
Qed.

Lemma Writer_Close_closes (w : W) (cwi : Writer.checksummedWriterImpl) :
  Writer.delegate (snd (fst (Writer.Close w cwi))) = errDelegate.
Proof.
  unfold Writer.Close.
  destruct (0 <? Writer.checksumOffset cwi).
  - destruct (iface_Write (Writer.delegate cwi) w _) as [[w1 n1] [e|]]; cbn;
      [reflexivity|].
    now destruct (iface_wClose (Writer.delegate cwi) w1).
  - cbn. now destruct (iface_wClose (Writer.delegate cwi) w).
Qed.

Lemma Write_from_error_poisons (fuel : nat) (w : W)
    (cwi : Writer.checksummedWriterImpl) (v : list byte) (n : Z) w' cwi' n' e :
  Writer.Write_from fuel w cwi v n = Ret (w', cwi', n', Some e) ->
  Writer.delegate cwi' = errDelegate.
Proof.
  revert w cwi v n.
  induction fuel as [|fuel IH]; intros w cwi v n; cbn [Writer.Write_from].
  - destruct (_ <=? _); [discriminate|].
    destruct (0 <? len v); [|discriminate].
    destruct (iface_Write (Writer.delegate cwi) w v) as [[w1 n1] [e1|]];
      intros Heq; inversion Heq; reflexivity.
  - destruct (_ <=? _).
    + destruct (_ <? 0); [discriminate|].
      destruct (iface_Write (Writer.delegate cwi) w _) as [[w1 n1] [e1|]].
      * intros Heq; inversion Heq; reflexivity.
      * destruct (iface_Write (Writer.delegate cwi) w1 _) as [[w2 n2] [e2|]].
        -- intros Heq; inversion Heq; reflexivity.
        -- apply IH.
    + destruct (0 <? len v); [|discriminate].
      destruct (iface_Write (Writer.delegate cwi) w v) as [[w1 n1] [e1|]];
        intros Heq; inversion Heq; reflexivity.
Qed.

End Closed.

(** C7, amended.  [Close] on a reader or a writer, and a sink error during
    [Write], leave the delegate at [errDelegate], and no operation moves it
    away from there.  In that state [Read], [Verify], [Seek] with whence 0,
    1 or 2 and [Write] of a non-empty slice fail with the closed error.  A
    second [Close] returns an error too: "already closed" on a reader and
    on a writer at a block start, and "closed" on a writer with a partial
    block pending, whose digest it tries to write first.  [Seek] with
    another whence fails with the invalid-whence error, and [Write] of an
    empty slice returns [(0, nil)]. *)
Theorem closed_is_terminal
    {R : Type} {HR : ReadSeeker R} {W : Type} {HW : Writer W} {H32 : Hash32} :
  (forall (r : R) cri,
      Reader.delegate (snd (fst (Reader.Close r cri))) = errDelegate) /\
  (forall (w : W) cwi,
      Writer.delegate (snd (fst (Writer.Close w cwi))) = errDelegate) /\
  (forall fuel (w : W) cwi v w' cwi' n e,
      Writer.Write fuel w cwi v = Ret (w', cwi', n, Some e) ->
      Writer.delegate cwi' = errDelegate) /\
  (forall (r : R) cri,
      Reader.delegate cri = errDelegate ->
      1 <= Reader.checksumInterval cri < 2 ^ 63 ->
      Reader.checksumOffset cri <= Reader.checksumInterval cri ->
      (forall v, Reader.Read r cri v = Ret (r, cri, v, 0, Some ErrClosed)) /\
      (forall offset whence,
          Reader.Seek r cri offset whence =
          if (whence =? 0) || (whence =? 1) || (whence =? 2)
          then Ret (r, Reader.mk errDelegate (Reader.checksumInterval cri) 0
                         (Reader.checksum cri), 0, Some ErrClosed)
          else Ret (r, cri, 0, Some (ErrInvalidWhence whence))) /\
      Reader.Verify r cri = Ret (r, cri, false, Some ErrClosed) /\
      Reader.Close r cri = (r, cri, Some ErrAlreadyClosed)) /\
  (forall (w : W) cwi,
      Writer.delegate cwi = errDelegate ->
      0 <= Writer.checksumOffset cwi < Writer.checksumInterval cwi ->
      (forall fuel v,
          Writer.Write (S fuel) w cwi v =
          match v with
          | [] => Ret (w, cwi, 0, None)
          | _ :: _ => Ret (w, cwi, 0, Some ErrClosed)
          end) /\
      (exists cwi',
          Writer.Close w cwi
          = (w, cwi',
             Some (if 0 <? Writer.checksumOffset cwi
                   then ErrClosed else ErrAlreadyClosed)) /\
          Writer.delegate cwi' = errDelegate)).
Proof.
  split; [apply Reader_Close_closes|].
  split; [apply Writer_Close_closes|].
  split; [intros fuel w cwi v w' cwi' n e; apply Write_from_error_poisons|].
  split.
  - intros r cri Hd Hi Ho.
    split; [intros v; now apply closed_Read|].
    split; [intros offset whence; now apply closed_Seek|].
    split; [now apply closed_Verify | now apply closed_reader_Close].
  - intros w cwi Hd Ho.
    split; [intros fuel v; now apply closed_Write | now apply closed_writer_Close].
Qed.

Lemma closed_is_terminal_witness :
  let cri := Reader.mk errDelegate 4 0 (repeat x00 4) in
  let cwi := Writer.mk errDelegate 4 1 (mkHash [x01]) (repeat x00 4) in
  Reader.Read (mkBytesReader [x01] 0) cri [x00; x00]
  = Ret (mkBytesReader [x01] 0, cri, [x00; x00], 0, Some ErrClosed) /\
  @Reader.Verify _ _ fnv32a (mkBytesReader [x01] 0) cri
  = Ret (mkBytesReader [x01] 0, cri, false, Some ErrClosed) /\
  @Writer.Write _ _ fnv32a 1 (mkBytesBuffer [x01]) cwi [x02]
  = Ret (mkBytesBuffer [x01], cwi, 0, Some ErrClosed) /\
  (exists cwi',
      @Writer.Close _ _ fnv32a (mkBytesBuffer [x01]) cwi
      = (mkBytesBuffer [x01], cwi', Some ErrClosed)).
Proof.
  intros cri cwi.
  destruct (@closed_is_terminal bytesReader _ bytesBuffer _ fnv32a)
    as (_ & _ & _ & Hr & Hw).
  destruct (Hr (mkBytesReader [x01] 0) cri) as (Hread & _ & Hverify & _);
    [reflexivity | cbn; lia | cbn; lia |].
  destruct (Hw (mkBytesBuffer [x01]) cwi) as (Hwrite & cwi' & Hclose & _);
    [reflexivity | cbn; lia |].
  split; [apply Hread|]. split; [apply Hverify|].
  split; [apply (Hwrite 0%nat [x02])|].
  exists cwi'. exact Hclose.
Defined.

(** C7, as stated, fails: on a closed writer [Write] of an empty slice
    succeeds, and on a closed reader [Seek] with an unknown whence reports
    the whence, not the closed state. *)
Lemma closed_operations_without_closed_error :
  (let '(b, cwi, _) :=
     @Writer.Close _ bytesBuffer_Writer fnv32a (mkBytesBuffer [])
       (Writer.newChecksummedWriterImpl 4) in
   @Writer.Write _ bytesBuffer_Writer fnv32a 1 b cwi []
   = Ret (b, cwi, 0, None)) /\
  (let '(r, cri, _) :=
     Reader.Close (mkBytesReader [] 0) (Reader.newChecksummedReaderImpl 4) in
   Reader.Seek r cri 0 3 = Ret (r, cri, 0, Some (ErrInvalidWhence 3))).
Proof.
  split; reflexivity.
Qed.

(** ** The offset translation of Seek *)

(** C2, on the code.  With interval 4 the logical offset 4 goes to the
    physical offset 8, and [Seek] translates 8 back to 0: the translation
    divides by the interval where the layout has [interval + 4] bytes per
    block.  So [Seek(4, 0)] reports the position 0, and the relative
    [Seek(0, 1)] that follows moves the source from 8 back to 0. *)
Theorem Seek_translation_is_not_the_inverse :
  Reader.physicalOffset 4 4 = Ret 8 /\
  Reader.logicalOffset 4 8 = Ret 0 /\
  forall s : list byte,
    Reader.Seek (mkBytesReader s 0) (Reader.newChecksummedReaderImpl 4) 4 0
    = Ret (mkBytesReader s 8, Reader.newChecksummedReaderImpl 4, 0, None) /\
    Reader.Seek (mkBytesReader s 8) (Reader.newChecksummedReaderImpl 4) 0 1
    = Ret (mkBytesReader s 0, Reader.newChecksummedReaderImpl 4, 0, None).
Proof.
  split; [reflexivity|]. split; [reflexivity|].
  intros s. split; reflexivity.
Qed.

(** ** Read at a truncated trailing digest *)

(** C4, on the code.  Interval 4 and three content bytes: the source holds
    them and their digest.  [Read] into four bytes takes the content and
    the first digest byte, finds three bytes where the next digest would
    be, and returns the count 3 with a nil error: the [io.EOF] it stores
    goes to the [err] declared by the inner [:=].  The end of the stream
    comes with the next call. *)
Theorem Read_truncated_digest_returns_nil (a b c d0 d1 d2 d3 : byte) :
  let src := [a; b; c; d0; d1; d2; d3] in
  let cri' := Reader.mk Live 4 0 [d1; d2; d3; x00] in
  Reader.Read (mkBytesReader src 0) (Reader.newChecksummedReaderImpl 4)
    (repeat x00 4)
  = Ret (mkBytesReader src 7, cri', [a; b; c; d0], 3, None) /\
  Reader.Read (mkBytesReader src 7) cri' [a; b; c; d0]
  = Ret (mkBytesReader src 7, cri', [a; b; c; d0], 0, Some EOF).
Proof.
  split; reflexivity.
Qed.

Ltac pows :=
  repeat match goal with
    | |- context [2 ^ ?k] =>
        let v := eval compute in (2 ^ k) in change (2 ^ k) with v
    | H : context [2 ^ ?k] |- _ =>
        let v := eval compute in (2 ^ k) in change (2 ^ k) with v in H
    end.

Ltac zlia := unfold int64_range in *; pows; lia.

(** ** The offsets of Seek without overflow *)

Lemma quot_bounds (a b : Z) :
  1 <= b ->
  (0 <= a -> 0 <= Z.quot a b <= a) /\ (a <= 0 -> a <= Z.quot a b <= 0).
Proof.
  intros Hb. split; intros Ha.
  - pose proof (Z.quot_pos a b). pose proof (Z.quot_le_upper_bound a b a).
    assert (a <= b * a) by nia. lia.
  - assert (Hq : Z.quot a b = - Z.quot (- a) b) by (rewrite Z.quot_opp_l; lia).
    pose proof (Z.quot_pos (- a) b).
    pose proof (Z.quot_le_upper_bound (- a) b (- a)).
    assert (- a <= b * - a) by nia. lia.
Qed.

Lemma quot64_small (a b : Z) :
  1 <= b -> int64_range a -> quot64 a b = Ret (Z.quot a b).
Proof.
  intros Hb Ha. unfold quot64. zbool.
  rewrite wrap64_small; [reflexivity|].
  destruct (quot_bounds a Hb). zlia.
Qed.

Lemma physicalOffset_small (interval offset : Z) :
  1 <= interval -> - 2 ^ 60 <= offset <= 2 ^ 60 ->
  Reader.physicalOffset interval offset
  = Ret (offset + 4 * Z.quot offset interval).
Proof.
  intros Hi Ho. unfold Reader.physicalOffset.
  rewrite quot64_small by zlia. cbn [bind].
  destruct (quot_bounds offset Hi).
  rewrite (@wrap64_small (Z.quot offset interval * 4)) by zlia.
  rewrite wrap64_small by zlia. f_equal. lia.
Qed.

Lemma logicalOffset_small (interval o : Z) :
  1 <= interval -> - 2 ^ 60 <= o <= 2 ^ 60 ->
  Reader.logicalOffset interval o = Ret (o - 4 * Z.quot o interval).
Proof.
  intros Hi Ho. unfold Reader.logicalOffset.
  rewrite quot64_small by zlia. cbn [bind].
  destruct (quot_bounds o Hi).
  rewrite (@wrap64_small (Z.quot o interval * 4)) by zlia.
  rewrite wrap64_small by zlia. f_equal. lia.
Qed.

Lemma logicalOffset_returns (interval o : Z) :
  1 <= interval -> exists lo, Reader.logicalOffset interval o = Ret lo.
Proof.
  intros Hi. unfold Reader.logicalOffset, quot64. zbool. cbn. eauto.
Qed.

Lemma intraBlock_small (interval o : Z) :
  1 <= interval < 2 ^ 62 ->
  Reader.intraBlock interval o = Ret (Z.rem o (interval + 4)).
Proof.
  intros Hi. unfold Reader.intraBlock.
  rewrite wrap64_small by zlia.
  unfold rem64. zbool. reflexivity.
Qed.

(** The physical offset of a logical one lies as far into its block. *)
Lemma rem_physical (interval offset : Z) :
  1 <= interval -> 0 <= offset ->
  Z.rem (offset + 4 * Z.quot offset interval) (interval + 4)
  = offset mod interval.
Proof.
  intros Hi Ho.
  rewrite Z.quot_div_nonneg by zlia.
  pose proof (Z.div_pos offset interval).
  rewrite Z.rem_mod_nonneg by zlia.
  pose proof (Z.mod_pos_bound offset interval).
  pose proof (Z.div_mod offset interval).
  symmetry. apply Z.mod_unique with (q := offset / interval); [lia | nia].
Qed.

Lemma Seek_finish_mem (r : bytesReader) (cri : Reader.checksummedReaderImpl)
    (offset : Z) :
  Reader.delegate cri = Live ->
  1 <= Reader.checksumInterval cri < 2 ^ 62 ->
  - 2 ^ 60 <= offset <= 2 ^ 60 ->
  exists lo,
    Reader.Seek_finish r cri offset =
    if offset <? 0
    then Ret (r, Reader.mk Live (Reader.checksumInterval cri) 0
                   (Reader.checksum cri), lo,
              Some (ErrDelegate "bytes.Reader.Seek: negative position"))
    else Ret (mkBytesReader (rdata r)
                (Z.to_N (offset
                         + 4 * Z.quot offset (Reader.checksumInterval cri))),
              Reader.mk Live (Reader.checksumInterval cri)
                (offset mod Reader.checksumInterval cri) (Reader.checksum cri),
              lo, None).
Proof.
  intros Hd Hi Ho. unfold Reader.Seek_finish. rewrite Hd.
  set (interval := Reader.checksumInterval cri) in *.
  assert (Hi1 : 1 <= interval) by zlia.
  rewrite physicalOffset_small by zlia. cbn [bind iface_Seek rsSeek bytesReader_ReadSeeker].
  destruct (quot_bounds offset Hi1) as [Hpos Hneg].
  unfold bytesReader_Seek. cbn [Z.eqb].
  destruct (offset <? 0) eqn:E.
  - apply Z.ltb_lt in E. zbool.
    rewrite intraBlock_small by zlia. cbn [bind].
    destruct (logicalOffset_returns 0 Hi1) as [lo Hlo]. rewrite Hlo. cbn [bind].
    exists lo. rewrite Z.rem_0_l by zlia. reflexivity.
  - apply Z.ltb_ge in E. zbool.
    rewrite intraBlock_small by zlia. cbn [bind].
    destruct (logicalOffset_returns (offset + 4 * Z.quot offset interval) Hi1)
      as [lo Hlo].
    rewrite Hlo. cbn [bind]. exists lo.
    rewrite rem_physical by zlia. reflexivity.
Qed.

(** ** Read and Seek keep the offset inside the block *)

Lemma Read_mem_offset (r : bytesReader) (cri : Reader.checksummedReaderImpl)
    (v : list byte) :
  Reader.delegate cri = Live ->
  0 <= Reader.checksumOffset cri < Reader.checksumInterval cri ->
  exists r' cri' v' n err,
    Reader.Read r cri v = Ret (r', cri', v', n, err) /\
    0 <= Reader.checksumOffset cri' < Reader.checksumInterval cri.
Proof.
  intros Hd Ho. unfold Reader.Read. rewrite Hd.
  set (interval := Reader.checksumInterval cri) in *.
  set (off := Reader.checksumOffset cri) in *.
  pose proof (len_nonneg v) as Hv.
  set (vlen := if interval <? off + len v then interval - off else len v).
  assert (Hvlen : (if interval <? off + len v
                   then if interval - off <? 0 then Panic SliceBounds
                        else Ret (interval - off)
                   else Ret (len v)) = Ret vlen).
  { unfold vlen. destruct (interval <? off + len v); [zbool|]; reflexivity. }
  assert (Hvb : 0 <= vlen <= interval - off).
  { unfold vlen. destruct (interval <? off + len v) eqn:E;
      [apply Z.ltb_lt in E | apply Z.ltb_ge in E]; lia. }
  rewrite Hvlen. cbn [bind iface_Read rsRead bytesReader_ReadSeeker].
  rewrite bytesReader_Read_eq.
  destruct (len (rdata r) <=? Z.of_N (rpos r)).
  - cbn [is_err]. destruct (error_eq_dec EOF EOF); [|congruence].
    do 5 eexists. split; [reflexivity|]. unfold len. cbn. lia.
  - set (bs := slice_to (ahead r) vlen).
    pose proof (len_slice_to (ahead r) vlen) as Hbs. fold bs in Hbs.
    pose proof (len_nonneg (ahead r)).
    cbn [is_err is_nil].
    rewrite !ReadFull_mem. cbn [bind].
    destruct (off + len bs =? interval) eqn:E.
    + do 5 eexists. split; [reflexivity|]. cbn. lia.
    + apply Z.eqb_neq in E.
      destruct (is_err EOF _ || is_err ErrUnexpectedEOF _).
      * do 5 eexists. split; [reflexivity|]. cbn. lia.
      * destruct (iface_Seek Live _ _ 1) as [[r3 o3] e3].
        do 5 eexists. split; [reflexivity|]. cbn. lia.
Qed.

Lemma Seek_mem_offset (r : bytesReader) (cri : Reader.checksummedReaderImpl)
    (offset whence : Z) :
  Reader.delegate cri = Live ->
  1 <= Reader.checksumInterval cri < 2 ^ 62 ->
  0 <= Reader.checksumOffset cri < Reader.checksumInterval cri ->
  Z.of_N (rpos r) <= 2 ^ 58 -> len (rdata r) <= 2 ^ 58 ->
  - 2 ^ 58 <= offset <= 2 ^ 58 ->
  exists r' cri' lo err,
    Reader.Seek r cri offset whence = Ret (r', cri', lo, err) /\
    0 <= Reader.checksumOffset cri' < Reader.checksumInterval cri.
Proof.
  intros Hd Hi Ho Hp Hl Hoff.
  set (interval := Reader.checksumInterval cri) in *.
  assert (Hi1 : 1 <= interval) by lia.
  assert (Hfinish : forall r0 off0 x, - 2 ^ 60 <= x <= 2 ^ 60 ->
            exists r' cri' lo err,
              Reader.Seek_finish r0
                (Reader.mk Live interval off0 (Reader.checksum cri)) x
              = Ret (r', cri', lo, err) /\
              0 <= Reader.checksumOffset cri' < interval).
  { intros r0 off0 x Hx.
    destruct (@Seek_finish_mem r0
                (Reader.mk Live interval off0 (Reader.checksum cri)) x)
      as [lo Hlo]; cbn; try reflexivity; try lia.
    rewrite Hlo. cbn.
    pose proof (Z.mod_pos_bound x interval).
    destruct (x <? 0); do 4 eexists; (split; [reflexivity|]); cbn; lia. }
  assert (Hrel : forall w o r0,
            bytesReader_Seek r 0 w = (r0, o, None) -> 0 <= o <= 2 ^ 58 ->
            exists r' cri' lo err,
              Reader.Seek_relative r cri offset w = Ret (r', cri', lo, err) /\
              0 <= Reader.checksumOffset cri' < interval).
  { intros w o r0 Hs Hob.
    unfold Reader.Seek_relative. rewrite Hd.
    cbn [iface_Seek rsSeek bytesReader_ReadSeeker]. rewrite Hs.
    fold interval.
    rewrite intraBlock_small by lia. cbn [bind].
    rewrite logicalOffset_small by zlia. cbn [bind].
    destruct (quot_bounds o Hi1) as [Hq _].
    rewrite wrap64_small by zlia.
    apply Hfinish. zlia. }
  unfold Reader.Seek.
  destruct (whence =? 0).
  { replace cri with (Reader.mk Live interval (Reader.checksumOffset cri)
                       (Reader.checksum cri))
      by (destruct cri; cbn in *; subst; reflexivity).
    apply Hfinish. zlia. }
  destruct (whence =? 1).
  { apply Hrel with (o := Z.of_N (rpos r)) (r0 := r); [|lia].
    apply bytesReader_Seek_cur. zlia. }
  destruct (whence =? 2).
  { pose proof (len_nonneg (rdata r)).
    apply Hrel with (o := len (rdata r))
                    (r0 := mkBytesReader (rdata r) (Z.to_N (len (rdata r))));
      [|lia].
    unfold bytesReader_Seek.
    change (2 =? 0) with false. change (2 =? 1) with false.
    change (2 =? 2) with true. cbn iota. rewrite Z.add_0_r.
    rewrite wrap64_small by zlia. zbool. reflexivity. }
  rewrite Hd. cbn [iface_Seek rsSeek bytesReader_ReadSeeker].
  destruct (bytesReader_Seek r 0 1) as [[r1 o1] e1].
  do 4 eexists. split; [reflexivity|]. exact Ho.
Qed.

(** C8, amended.  On an in-memory source, open or closed, a reader whose
    intra-block offset is in [0, interval) keeps it there through every
    [Read], and through every [Seek] whose 64-bit arithmetic does not
    overflow (source and offset of at most 2^58 bytes here), whether the
    call succeeds or fails. *)
Theorem offset_stays_inside_block
    (r : bytesReader) (cri : Reader.checksummedReaderImpl) :
  1 <= Reader.checksumInterval cri < 2 ^ 62 ->
  0 <= Reader.checksumOffset cri < Reader.checksumInterval cri ->
  (forall v, exists r' cri' v' n err,
      Reader.Read r cri v = Ret (r', cri', v', n, err) /\
      0 <= Reader.checksumOffset cri' < Reader.checksumInterval cri) /\
  (forall offset whence,
      Z.of_N (rpos r) <= 2 ^ 58 -> len (rdata r) <= 2 ^ 58 ->
      - 2 ^ 58 <= offset <= 2 ^ 58 ->
      exists r' cri' lo err,
        Reader.Seek r cri offset whence = Ret (r', cri', lo, err) /\
        0 <= Reader.checksumOffset cri' < Reader.checksumInterval cri).
Proof.
  intros Hi Ho.
  destruct (Reader.delegate cri) eqn:Hd.
  - split.
    + intros v. now apply Read_mem_offset.
    + intros offset whence Hp Hl Hoff. now apply Seek_mem_offset.
  - split.
    + intros v. rewrite closed_Read by (assumption || lia).
      do 5 eexists. split; [reflexivity | exact Ho].
    + intros offset whence _ _ _. rewrite closed_Seek by (assumption || zlia).
      destruct ((whence =? 0) || (whence =? 1) || (whence =? 2));
        do 4 eexists; (split; [reflexivity|]); cbn; lia.
Qed.

Lemma offset_stays_inside_block_witness :
  (exists r' cri' v' n err,
      Reader.Read (mkBytesReader [x01; x02; x03] 0)
        (Reader.newChecksummedReaderImpl 2) [x00; x00; x00]
      = Ret (r', cri', v', n, err) /\
      0 <= Reader.checksumOffset cri' < 2) /\
  (exists r' cri' lo err,
      Reader.Seek (mkBytesReader [x01; x02; x03] 0)
        (Reader.newChecksummedReaderImpl 2) 1 0
      = Ret (r', cri', lo, err) /\
      0 <= Reader.checksumOffset cri' < 2).
Proof.
  destruct (@offset_stays_inside_block (mkBytesReader [x01; x02; x03] 0)
              (Reader.newChecksummedReaderImpl 2)) as [Hread Hseek];
    [cbn; lia | cbn; lia |].
  split.
  - apply (Hread [x00; x00; x00]).
  - apply (Hseek 1 0); cbn; lia.
Defined.

(** C8, as stated, fails.  With interval 1, [Seek(2^62, 0)] overflows the
    computation of the physical offset and leaves the intra-block offset
    at 4.  Nor is the offset always the number of content bytes consumed
    of the current block: with interval 16, after a [Read] of the ten
    content bytes and their digest the offset is 14; and with interval 4
    and the source one byte into the second block, a [Seek] that fails
    leaves the source there and the offset at 0. *)
Lemma offset_leaves_block :
  Reader.Seek (mkBytesReader [] 0) (Reader.newChecksummedReaderImpl 1)
    (2 ^ 62) 0
  = Ret (mkBytesReader [] (2 ^ 62), Reader.mk Live 1 4 (repeat x00 4),
         2 ^ 62, None) /\
  (let src := [x01; x02; x03; x04; x05; x06; x07; x08; x09; x0a;
               xde; xad; xbe; xef] in
   Reader.Read (mkBytesReader src 0) (Reader.newChecksummedReaderImpl 16)
     (repeat x00 16)
   = Ret (mkBytesReader src 14, Reader.mk Live 16 14 (repeat x00 4),
          src ++ [x00; x00], 10, None)) /\
  (let s := repeat x07 12 in
   Reader.Seek (mkBytesReader s 9) (Reader.mk Live 4 1 (repeat x00 4))
     (- 1) 0
   = Ret (mkBytesReader s 9, Reader.mk Live 4 0 (repeat x00 4), 0,
          Some (ErrDelegate "bytes.Reader.Seek: negative position"))).
Proof.
  split; [vm_compute; reflexivity|]. split; reflexivity.
Qed.

(** ** Verify leaves the cursor where it was *)

Lemma bytesReader_Seek_data (r : bytesReader) (offset whence : Z) :
  rdata (fst (fst (bytesReader_Seek r offset whence))) = rdata r.
Proof.
  unfold bytesReader_Seek.
  destruct (whence =? 0); [destruct (offset <? 0); reflexivity|].
  destruct (whence =? 1); [destruct (_ <? 0); reflexivity|].
  destruct (whence =? 2); [destruct (_ <? 0); reflexivity|].
  reflexivity.
Qed.

(** C6.  Whenever [Verify] returns without error, the position of the
    source and the intra-block offset of the reader are what they were
    before the call, whether the checksum matched or not. *)
Theorem Verify_restores_position {H32 : Hash32}
    (r r' : bytesReader) (cri cri' : Reader.checksummedReaderImpl)
    (ok : bool) :
  Z.of_N (rpos r) < 2 ^ 63 ->
  Reader.Verify r cri = Ret (r', cri', ok, None) ->
  r' = r /\
  Reader.checksumOffset cri' = Reader.checksumOffset cri /\
  Reader.checksumInterval cri' = Reader.checksumInterval cri /\
  Reader.delegate cri' = Reader.delegate cri.
Proof.
  intros Hp. unfold Reader.Verify.
  destruct (Reader.delegate cri) eqn:Hd; [|cbn; discriminate].
  cbn [iface_Seek rsSeek bytesReader_ReadSeeker].
  rewrite bytesReader_Seek_cur by assumption.
  set (rewind := if 0 <? Reader.checksumOffset cri
                 then let '(r1, _, e) :=
                        bytesReader_Seek r
                          (wrap64 (- Reader.checksumOffset cri)) 1 in (r1, e)
                 else (r, None)).
  assert (Hdata : rdata (fst rewind) = rdata r).
  { unfold rewind. destruct (0 <? Reader.checksumOffset cri); [|reflexivity].
    pose proof (bytesReader_Seek_data r
                  (wrap64 (- Reader.checksumOffset cri)) 1) as Hs.
    destruct (bytesReader_Seek r _ 1) as [[r1 o1] e1]. exact Hs. }
  destruct rewind as [r1 [e1|]]; [discriminate|]. cbn [fst] in Hdata.
  unfold make_bytes.
  destruct ((Reader.checksumInterval cri + 4 <? 0)
            || (maxAlloc <? Reader.checksumInterval cri + 4));
    [discriminate|]. cbn [bind].
  destruct (Reader.checksumInterval cri <? 0); [discriminate|].
  rewrite ReadFull_mem. cbn [bind].
  set (got := slice_to (ahead r1) (Reader.checksumInterval cri + 4)).
  set (err := readFull_err (Reader.checksumInterval cri + 4) got).
  assert (Hback :
    bytesReader_Seek (advance r1 got) (Z.of_N (rpos r)) 0
    = (r, Z.of_N (rpos r), None)).
  { rewrite bytesReader_Seek_abs by lia. cbn [advance rdata].
    rewrite Hdata, N2Z.id. now destruct r. }
  destruct (is_err ErrUnexpectedEOF err).
  - destruct (len got - 4 <? 0); [discriminate|]. cbn [bind].
    rewrite Hback. intros Heq. inversion Heq. subst. cbn. auto.
  - destruct err as [e|]; cbn [is_nil negb bind]; [discriminate|].
    rewrite Hback. intros Heq. inversion Heq. subst. cbn. auto.
Qed.

Lemma Verify_restores_position_witness :
  let r := mkBytesReader [x01; x02; x03; xde; xad; xbe; xef] 2 in
  let cri := Reader.mk Live 4 2 (repeat x00 4) in
  exists cri' ok,
    @Reader.Verify _ _ fnv32a r cri = Ret (r, cri', ok, None) /\
    Reader.checksumOffset cri' = 2.
Proof.
  intros r cri. do 2 eexists. split; [reflexivity|].
  eapply (@Verify_restores_position fnv32a r r cri); [cbn; lia | reflexivity].
Defined.

(** ** Slices *)

Lemma slice_to_from {A : Type} (v : list A) (k : Z) :
  slice_to v k ++ slice_from v k = v.
Proof. apply firstn_skipn. Qed.

Lemma slice_to_app_exact {A : Type} (a b : list A) (k : Z) :
  len a = k -> slice_to (a ++ b) k = a.
Proof.
  unfold len, slice_to. intros <-. rewrite Nat2Z.id, firstn_app, Nat.sub_diag.
  cbn. rewrite firstn_all, app_nil_r. reflexivity.
Qed.

Lemma slice_from_app_exact {A : Type} (a b : list A) (k : Z) :
  len a = k -> slice_from (a ++ b) k = b.
Proof.
  unfold len, slice_from. intros <-. rewrite Nat2Z.id, skipn_app, Nat.sub_diag.
  cbn. rewrite skipn_all. reflexivity.
Qed.

Lemma slice_to_app_le {A : Type} (a b : list A) (k : Z) :
  k <= len a -> slice_to (a ++ b) k = slice_to a k.
Proof.
  unfold len, slice_to. intros Hk. rewrite firstn_app.
  replace (Z.to_nat k - List.length a)%nat with 0%nat by lia.
  cbn. apply app_nil_r.
Qed.

Lemma slice_from_app_le {A : Type} (a b : list A) (k : Z) :
  k <= len a -> slice_from (a ++ b) k = slice_from a k ++ b.
Proof.
  unfold len, slice_from. intros Hk. rewrite skipn_app.
  replace (Z.to_nat k - List.length a)%nat with 0%nat by lia.
  reflexivity.
Qed.

Lemma slice_to_all {A : Type} (a : list A) (k : Z) :
  len a <= k -> slice_to a k = a.
Proof. unfold len, slice_to. intros Hk. apply firstn_all2. lia. Qed.

Lemma slice_from_all {A : Type} (a : list A) (k : Z) :
  len a <= k -> slice_from a k = [].
Proof. unfold len, slice_from. intros Hk. apply skipn_all2. lia. Qed.

Lemma slice_to_0 {A : Type} (a : list A) (k : Z) : k <= 0 -> slice_to a k = [].
Proof.
  unfold slice_to. intros Hk. replace (Z.to_nat k) with 0%nat by lia.
  reflexivity.
Qed.

Lemma slice_from_0 {A : Type} (a : list A) (k : Z) : k <= 0 -> slice_from a k = a.
Proof.
  unfold slice_from. intros Hk. replace (Z.to_nat k) with 0%nat by lia.
  reflexivity.
Qed.

Lemma len_0_nil {A : Type} (a : list A) : len a = 0 -> a = [].
Proof. unfold len. destruct a; [reflexivity | cbn; lia]. Qed.

Lemma len_cons {A : Type} (x : A) (a : list A) : len (x :: a) = 1 + len a.
Proof. unfold len. cbn [List.length]. lia. Qed.

(** ** The wire layout *)

Section LayoutFacts.

Context {H32 : Hash32}.

Variable interval : Z.
Hypothesis interval_pos : 1 <= interval.

Lemma layout_blocks_fuel (f1 f2 : nat) (c : list byte) :
  (List.length c <= f1)%nat -> (List.length c <= f2)%nat ->
  layout_blocks f1 interval c = layout_blocks f2 interval c.
Proof.
  revert f2 c. induction f1 as [|f1 IH]; intros f2 c H1 H2.
  - destruct c; [|cbn in H1; lia]. destruct f2; reflexivity.
  - destruct c as [|x c]; [destruct f2; reflexivity|].
    destruct f2 as [|f2]; [cbn in H2; lia|].
    cbn [layout_blocks]. do 2 f_equal.
    assert (Hl : (List.length (slice_from (x :: c) interval)
                  <= List.length c)%nat).
    { unfold slice_from. rewrite length_skipn. cbn [List.length]. lia. }
    cbn [List.length] in H1, H2. apply IH; lia.
Qed.

Lemma layout_nil : layout interval [] = [].
Proof. reflexivity. Qed.

Lemma layout_eq (c : list byte) :
  c <> [] ->
  layout interval c =
  slice_to c interval ++ block_sum (slice_to c interval)
    ++ layout interval (slice_from c interval).
Proof.
  intros Hc. destruct c as [|x c]; [congruence|].
  unfold layout. cbn [List.length layout_blocks]. do 2 f_equal.
  apply layout_blocks_fuel; [|lia].
  unfold slice_from. rewrite length_skipn. cbn [List.length]. lia.
Qed.

(** One block, full or short, is followed by its digest. *)
Lemma layout_block (b : list byte) :
  0 < len b <= interval -> layout interval b = b ++ block_sum b.
Proof.
  intros Hb. rewrite layout_eq by (intros ->; unfold len in Hb; cbn in Hb; lia).
  rewrite slice_to_all, slice_from_all by lia.
  rewrite layout_nil, app_nil_r. reflexivity.
Qed.

Lemma layout_app_block (a b : list byte) :
  len a = interval ->
  layout interval (a ++ b) = a ++ block_sum a ++ layout interval b.
Proof.
  intros Ha.
  rewrite layout_eq.
  - now rewrite slice_to_app_exact, slice_from_app_exact.
  - intros Hnil. apply app_eq_nil in Hnil. destruct Hnil as [-> _].
    unfold len in Ha. cbn in Ha. lia.
Qed.

(** The layout of whole blocks does not depend on what follows them. *)
Lemma layout_app_full (m : nat) (a b : list byte) :
  len a = Z.of_nat m * interval ->
  layout interval (a ++ b) = layout interval a ++ layout interval b.
Proof.
  revert a. induction m as [|m IH]; intros a Ha.
  - apply len_0_nil in Ha. now subst a.
  - rewrite <- (slice_to_from a interval).
    assert (Hto : len (slice_to a interval) = interval).
    { rewrite len_slice_to. nia. }
    assert (Hfrom : len (slice_from a interval) = Z.of_nat m * interval).
    { rewrite len_slice_from. nia. }
    rewrite <- app_assoc.
    rewrite (@layout_app_block _ (slice_from a interval ++ b) Hto).
    rewrite (@layout_app_block _ (slice_from a interval) Hto).
    rewrite IH by assumption. rewrite <- !app_assoc. reflexivity.
Qed.

Lemma len_block_sum (b : list byte) : len (block_sum b) = 4.
Proof. reflexivity. Qed.

Lemma len_layout_full (m : nat) (a : list byte) :
  len a = Z.of_nat m * interval ->
  len (layout interval a) = Z.of_nat m * (interval + 4).
Proof.
  revert a. induction m as [|m IH]; intros a Ha.
  - apply len_0_nil in Ha. now subst a.
  - rewrite <- (slice_to_from a interval).
    assert (Hto : len (slice_to a interval) = interval).
    { rewrite len_slice_to. nia. }
    assert (Hfrom : len (slice_from a interval) = Z.of_nat m * interval).
    { rewrite len_slice_from. nia. }
    rewrite layout_app_block by assumption.
    rewrite !len_app, len_block_sum, Hto, IH by assumption. lia.
Qed.

(** *** The content at the last block boundary *)

Lemma full_pending (c : list byte) :
  full_part interval c ++ pending_part interval c = c.
Proof. apply slice_to_from. Qed.

Lemma len_full_part (c : list byte) :
  len (full_part interval c) = len c / interval * interval.
Proof.
  unfold full_part. rewrite len_slice_to.
  pose proof (len_nonneg c). pose proof (Z.div_pos (len c) interval).
  pose proof (Z.mul_div_le (len c) interval). nia.
Qed.

Lemma len_pending_part (c : list byte) :
  len (pending_part interval c) = len c mod interval.
Proof.
  unfold pending_part. rewrite len_slice_from.
  pose proof (len_nonneg c). pose proof (Z.div_pos (len c) interval).
  pose proof (Z.mul_div_le (len c) interval).
  pose proof (Z.div_mod (len c) interval). nia.
Qed.

Lemma full_part_blocks (c : list byte) :
  len (full_part interval c) = Z.of_nat (Z.to_nat (len c / interval)) * interval.
Proof.
  rewrite len_full_part. pose proof (len_nonneg c).
  pose proof (Z.div_pos (len c) interval). rewrite Z2Nat.id by lia. reflexivity.
Qed.

(** Bytes that do not fill the pending block join it. *)
Lemma parts_app_short (c v : list byte) :
  len c mod interval + len v < interval ->
  full_part interval (c ++ v) = full_part interval c /\
  pending_part interval (c ++ v) = pending_part interval c ++ v.
Proof.
  intros Hs. unfold full_part, pending_part. rewrite len_app.
  pose proof (len_nonneg c). pose proof (len_nonneg v).
  pose proof (Z.mod_pos_bound (len c) interval).
  pose proof (Z.div_mod (len c) interval).
  assert (Hdiv : (len c + len v) / interval = len c / interval).
  { symmetry. apply Z.div_unique with (r := len c mod interval + len v); lia. }
  rewrite Hdiv.
  pose proof (Z.div_pos (len c) interval).
  assert (len c / interval * interval <= len c) by nia.
  split; [apply slice_to_app_le | apply slice_from_app_le]; lia.
Qed.

(** Content that ends at a block boundary has nothing pending. *)
Lemma parts_whole (c : list byte) :
  len c mod interval = 0 ->
  full_part interval c = c /\ pending_part interval c = [].
Proof.
  intros Hm. unfold full_part, pending_part.
  pose proof (Z.div_mod (len c) interval).
  split; [apply slice_to_all | apply slice_from_all]; nia.
Qed.

(** Closing the pending block gives the layout of the content. *)
Lemma layout_parts (c : list byte) :
  layout interval c =
  layout interval (full_part interval c)
  ++ match pending_part interval c with
     | [] => []
     | _ :: _ => pending_part interval c ++ block_sum (pending_part interval c)
     end.
Proof.
  rewrite <- (full_pending c) at 1.
  rewrite (@layout_app_full _ _ (pending_part interval c) (full_part_blocks c)).
  f_equal.
  pose proof (len_pending_part c) as Hl.
  pose proof (Z.mod_pos_bound (len c) interval).
  destruct (pending_part interval c) as [|x p] eqn:E; [reflexivity|].
  apply layout_block. rewrite Hl. rewrite len_cons in Hl.
  pose proof (len_nonneg p). lia.
Qed.

Lemma len_layout (c : list byte) :
  len (layout interval c)
  = len c + 4 * ((len c + interval - 1) / interval).
Proof.
  rewrite layout_parts, len_app, (@len_layout_full _ _ (full_part_blocks c)).
  pose proof (len_nonneg c). pose proof (Z.div_pos (len c) interval).
  rewrite Z2Nat.id by lia.
  pose proof (len_pending_part c) as Hl.
  pose proof (Z.mod_pos_bound (len c) interval).
  pose proof (Z.div_mod (len c) interval).
  destruct (pending_part interval c) as [|x p] eqn:E.
  - rewrite len_nil in *.
    assert (Hq : (len c + interval - 1) / interval = len c / interval).
    { symmetry. apply Z.div_unique with (r := interval - 1); lia. }
    rewrite Hq. lia.
  - rewrite len_app, len_block_sum, Hl.
    rewrite len_cons in Hl. pose proof (len_nonneg p).
    assert (Hq : (len c + interval - 1) / interval = len c / interval + 1).
    { symmetry. apply Z.div_unique with (r := len c mod interval - 1); lia. }
    rewrite Hq. lia.
Qed.

End LayoutFacts.

(** ** The writer on an in-memory sink *)

Section WriterFacts.

Context {H32 : Hash32}.

Variable interval : Z.
Hypothesis interval_pos : 1 <= interval.

Lemma writer_holds_new :
  writer_holds interval [] (Writer.newChecksummedWriterImpl interval).
Proof.
  unfold writer_holds, pending_part. cbn. repeat split.
Qed.

(** [Write] appends to the sink what the layout asks for. *)
Lemma Write_from_mem (fuel : nat) (c v : list byte)
    (cwi : Writer.checksummedWriterImpl) (n : Z) :
  writer_holds interval c cwi ->
  (List.length v < fuel)%nat ->
  exists cwi',
    Writer.Write_from fuel (mkBytesBuffer (sofar interval c)) cwi v n
    = Ret (mkBytesBuffer (sofar interval (c ++ v)), cwi', n + len v, None) /\
    writer_holds interval (c ++ v) cwi'.
Proof.
  revert c v cwi n.
  induction fuel as [|fuel IH]; intros c v cwi n Hw Hf; [lia|].
  destruct Hw as (Hd & Hi & Ho & Hh).
  pose proof (Z.mod_pos_bound (len c) interval) as Hm.
  pose proof (len_nonneg v) as Hv.
  pose proof (len_pending_part interval_pos c) as Hp.
  cbn [Writer.Write_from]. rewrite Hd, Hi, Ho, Hh.
  destruct (interval <=? len c mod interval + len v) eqn:E.
  - (* the block under way is filled and its digest follows *)
    apply Z.leb_le in E. zbool.
    set (k := interval - len c mod interval) in *.
    cbn [iface_Write wWrite bytesBuffer_Writer bytesBuffer_Write wdata].
    set (blk := pending_part interval c ++ slice_to v k).
    assert (Hblk : len blk = interval).
    { unfold blk. rewrite len_app, len_slice_to, Hp. lia. }
    assert (Hc1 : len (c ++ slice_to v k) mod interval = 0).
    { rewrite len_app, len_slice_to.
      replace (len c + Z.min (Z.max k 0) (len v))
        with (len c mod interval + (len c / interval + 1) * interval - len c mod interval)
        by (pose proof (Z.div_mod (len c) interval); lia).
      replace (len c mod interval + (len c / interval + 1) * interval - len c mod interval)
        with (0 + (len c / interval + 1) * interval) by lia.
      rewrite Z.mod_add by lia. apply Z.mod_0_l. lia. }
    destruct (parts_whole interval_pos _ Hc1) as [Hfull Hpend].
    assert (Hsink :
      (sofar interval c ++ slice_to v k)
        ++ PutUint32 (hash_Sum32 (hash_Write (mkHash (pending_part interval c))
                                    (slice_to v k)))
      = sofar interval (c ++ slice_to v k)).
    { unfold sofar at 2. rewrite Hfull, Hpend, app_nil_r.
      replace (c ++ slice_to v k) with (full_part interval c ++ blk)
        by (unfold blk; now rewrite app_assoc, full_pending).
      rewrite (@layout_app_full _ _ interval_pos _ _ blk
                 (full_part_blocks interval_pos c)).
      rewrite (@layout_block _ _ interval_pos blk) by lia.
      unfold sofar, block_sum, hash_Write, newHash. cbn [ingested app].
      unfold blk. rewrite <- !app_assoc. reflexivity. }
    rewrite Hsink.
    destruct (IH (c ++ slice_to v k) (slice_from v k)
                (Writer.mk Live interval 0 newHash
                   (PutUint32 (hash_Sum32 (hash_Write
                      (mkHash (pending_part interval c)) (slice_to v k)))))
                (n + len (slice_to v k)))
      as (cwi' & Hrun & Hholds).
    { unfold writer_holds. cbn. rewrite Hc1, Hpend. repeat split. }
    { unfold slice_from, len in *. rewrite length_skipn. lia. }
    exists cwi'. rewrite <- app_assoc, slice_to_from in Hrun, Hholds.
    rewrite Hrun. split; [|exact Hholds].
    do 3 f_equal. rewrite len_slice_to, len_slice_from. lia.
  - (* the bytes join the block under way *)
    apply Z.leb_gt in E.
    destruct (parts_app_short interval_pos c v) as [Hfull Hpend]; [lia|].
    destruct (0 <? len v) eqn:Ev.
    + cbn [iface_Write wWrite bytesBuffer_Writer bytesBuffer_Write wdata].
      eexists. split.
      * unfold sofar. rewrite Hfull, Hpend, <- app_assoc. reflexivity.
      * unfold writer_holds. cbn. rewrite Hpend, len_app.
        repeat split. symmetry. rewrite <- Zplus_mod_idemp_l.
        apply Z.mod_small. lia.
    + apply Z.ltb_ge in Ev. assert (Hnil : v = []) by (apply len_0_nil; lia).
      subst v. rewrite app_nil_r, len_nil, Z.add_0_r.
      exists cwi. split.
      * reflexivity.
      * unfold writer_holds. auto.
Qed.

End WriterFacts.

Section WriterLayout.

Context {H32 : Hash32}.

Variable interval : Z.
Hypothesis interval_pos : 1 <= interval.

Lemma writeAll_mem (vs : list (list byte)) (c : list byte)
    (cwi : Writer.checksummedWriterImpl) :
  writer_holds interval c cwi ->
  exists cwi',
    writeAll (mkBytesBuffer (sofar interval c)) cwi vs
    = Ret (mkBytesBuffer (sofar interval (c ++ List.concat vs)), cwi', None) /\
    writer_holds interval (c ++ List.concat vs) cwi'.
Proof.
  revert c cwi. induction vs as [|v vs IH]; intros c cwi Hw.
  - exists cwi. cbn. rewrite app_nil_r. auto.
  - cbn [writeAll List.concat]. unfold Writer.Write.
    destruct (@Write_from_mem _ _ interval_pos (S (List.length v)) c v cwi 0 Hw)
      as (cwi1 & Hrun & Hw1); [lia|].
    rewrite Hrun. cbn [bind].
    destruct (IH _ _ Hw1) as (cwi2 & Hrun2 & Hw2).
    exists cwi2. rewrite app_assoc. auto.
Qed.

Lemma Close_mem (c : list byte) (cwi : Writer.checksummedWriterImpl) :
  writer_holds interval c cwi ->
  exists cwi',
    Writer.Close (mkBytesBuffer (sofar interval c)) cwi
    = (mkBytesBuffer (layout interval c), cwi', None).
Proof.
  intros (Hd & Hi & Ho & Hh). unfold Writer.Close. rewrite Hd, Ho, Hh.
  pose proof (len_pending_part interval_pos c) as Hp.
  rewrite (layout_parts interval_pos c). unfold sofar.
  destruct (pending_part interval c) as [|x p] eqn:E.
  - rewrite len_nil in Hp. rewrite <- Hp. cbn. eauto.
  - rewrite len_cons in Hp. pose proof (len_nonneg p).
    replace (0 <? len c mod interval) with true
      by (symmetry; apply Z.ltb_lt; lia).
    cbn [iface_Write wWrite bytesBuffer_Writer bytesBuffer_Write wdata
         iface_wClose wClose].
    eexists. unfold block_sum, hash_Write, newHash. cbn [ingested app].
    rewrite <- !app_assoc. reflexivity.
Qed.

End WriterLayout.

(** C3.  For every interval >= 1 and every content, written in any number
    of [Write] calls and closed, the sink holds the layout of the content,
    [C + 4 * ceil(C / interval)] bytes.  When [C] is a multiple of
    the interval the sink holds all of them before [Close], which appends
    nothing; otherwise the layout ends with the [p = C mod interval]
    pending bytes and the four digest bytes of exactly those. *)
Theorem writer_emits_layout {H32 : Hash32} (interval : Z)
    (vs : list (list byte)) :
  1 <= interval ->
  let c := List.concat vs in
  let p := pending_part interval c in
  exists cwi cwi',
    writeAll (mkBytesBuffer []) (Writer.newChecksummedWriterImpl interval) vs
    = Ret (mkBytesBuffer (sofar interval c), cwi, None) /\
    Writer.Close (mkBytesBuffer (sofar interval c)) cwi
    = (mkBytesBuffer (layout interval c), cwi', None) /\
    len (layout interval c)
    = len c + 4 * ((len c + interval - 1) / interval) /\
    (len c mod interval = 0 -> sofar interval c = layout interval c) /\
    (0 < len c mod interval ->
     len p = len c mod interval /\
     c = full_part interval c ++ p /\
     sofar interval c = layout interval (full_part interval c) ++ p /\
     layout interval c
     = layout interval (full_part interval c) ++ p
         ++ PutUint32 (digest p mod 2 ^ 32)).
Proof.
  intros Hi c p.
  destruct (@writeAll_mem _ _ Hi vs [] _ (@writer_holds_new interval))
    as (cwi & Hrun & Hw).
  destruct (Close_mem Hi Hw) as (cwi' & Hclose).
  exists cwi, cwi'. cbn [app] in *.
  split; [exact Hrun|]. split; [exact Hclose|].
  split; [apply len_layout; exact Hi|].
  pose proof (len_pending_part Hi c) as Hp. fold p in Hp.
  pose proof (layout_parts Hi c) as Hl. fold p in Hl.
  split.
  - intros Hm. rewrite Hm in Hp. apply len_0_nil in Hp.
    rewrite Hl. unfold sofar. fold p. now rewrite Hp.
  - intros Hm. split; [exact Hp|].
    split; [symmetry; apply full_pending|].
    split; [reflexivity|].
    rewrite Hl. destruct p as [|x p']; [rewrite len_nil in Hp; lia|].
    reflexivity.
Qed.

Lemma writer_emits_layout_witness :
  exists cwi cwi',
    @writeAll fnv32a _ _ (mkBytesBuffer [])
      (Writer.newChecksummedWriterImpl 2) [[x01]; [x02; x03]]
    = Ret (mkBytesBuffer (@sofar fnv32a 2 [x01; x02; x03]), cwi, None) /\
    @Writer.Close _ _ fnv32a (mkBytesBuffer (@sofar fnv32a 2 [x01; x02; x03])) cwi
    = (mkBytesBuffer (@layout fnv32a 2 [x01; x02; x03]), cwi', None) /\
    len (@layout fnv32a 2 [x01; x02; x03]) = 3 + 4 * 2.
Proof.
  destruct (@writer_emits_layout fnv32a 2 [[x01]; [x02; x03]])
    as (cwi & cwi' & Hrun & Hclose & Hlen & _); [lia|].
  exists cwi, cwi'. split; [exact Hrun|]. split; [exact Hclose|]. exact Hlen.
Defined.

(** ** Read on an in-memory source, in closed form *)

Lemma advance_advance_back (r : bytesReader) (bs cs : list byte) :
  Z.of_N (rpos r) + len bs + len cs < 2 ^ 63 ->
  bytesReader_Seek (advance (advance r bs) cs) (wrap64 (- len cs)) 1
  = (advance r bs, Z.of_N (rpos r) + len bs, None).
Proof.
  intros Hp. pose proof (len_nonneg bs). pose proof (len_nonneg cs).
  rewrite wrap64_small by zlia.
  rewrite bytesReader_Seek_rel
    by (cbn [advance rpos rdata]; unfold len in *; zlia).
  cbn [advance rpos rdata].
  replace (Z.of_N (rpos r + N.of_nat (List.length bs)
                   + N.of_nat (List.length cs)) + - len cs)
    with (Z.of_N (rpos r + N.of_nat (List.length bs)))
    by (unfold len; lia).
  rewrite N2Z.id. do 2 f_equal. unfold len. lia.
Qed.

Lemma rpos_advance_le (r : bytesReader) (k : Z) :
  Z.of_N (rpos r) <= len (rdata r) ->
  Z.of_N (rpos (advance r (slice_to (ahead r) k)))
  <= len (rdata (advance r (slice_to (ahead r) k))).
Proof.
  unfold advance, ahead, slice_to, len. cbn [rpos rdata].
  rewrite length_firstn, length_skipn. lia.
Qed.

Lemma len_fill (v bs : list byte) : len bs <= len v -> len (fill v bs) = len v.
Proof.
  unfold fill, len. rewrite length_app, length_skipn. lia.
Qed.

Lemma slice_to_fill (v bs : list byte) (n : Z) :
  n <= len bs -> slice_to (fill v bs) n = slice_to bs n.
Proof. intros Hn. unfold fill. now apply slice_to_app_le. Qed.

Lemma Read_mem (r : bytesReader) (interval off : Z) (sum v : list byte) :
  0 <= off < interval -> len sum = 4 ->
  len (rdata r) < 2 ^ 63 -> Z.of_N (rpos r) <= len (rdata r) ->
  let bs := slice_to (ahead r) (Z.min (len v) (interval - off)) in
  let r1 := advance r bs in
  let cs := slice_to (ahead r1) 4 in
  Reader.Read r (Reader.mk Live interval off sum) v =
  match ahead r with
  | [] => Ret (r, Reader.mk Live interval off sum, v, 0, Some EOF)
  | _ :: _ =>
      if len cs <? 4 then
        Ret (advance r1 cs,
             Reader.mk Live interval
               (if off + len bs =? interval then 0 else off + len bs)
               (fill sum cs),
             fill v bs, len bs - (4 - len cs), None)
      else if off + len bs =? interval then
        Ret (advance r1 cs, Reader.mk Live interval 0 (fill sum cs),
             fill v bs, len bs, None)
      else
        Ret (r1, Reader.mk Live interval (off + len bs) (fill sum cs),
             fill v bs, len bs, None)
  end.
Proof.
  intros Ho Hsum Hl Hp bs r1 cs. unfold Reader.Read.
  cbn [Reader.delegate Reader.checksumInterval Reader.checksumOffset
       Reader.checksum].
  rewrite Hsum.
  pose proof (len_nonneg v) as Hv.
  assert (Hvlen : (if interval <? off + len v
                   then if interval - off <? 0 then Panic SliceBounds
                        else Ret (interval - off)
                   else Ret (len v))
                  = Ret (Z.min (len v) (interval - off))).
  { destruct (interval <? off + len v) eqn:E;
      [apply Z.ltb_lt in E; zbool | apply Z.ltb_ge in E]; f_equal; lia. }
  rewrite Hvlen. cbn [bind iface_Read rsRead bytesReader_ReadSeeker].
  rewrite bytesReader_Read_eq. fold bs. fold r1.
  destruct (len (rdata r) <=? Z.of_N (rpos r)) eqn:E.
  - apply Z.leb_le in E. apply ahead_nil in E. rewrite E.
    cbn [is_err]. destruct (error_eq_dec EOF EOF); [|congruence].
    unfold fill. cbn. rewrite Z.add_0_r. reflexivity.
  - apply Z.leb_gt in E.
    destruct (ahead r) as [|x a] eqn:Ea.
    { apply ahead_nil in Ea. lia. }
    cbn [is_err is_nil]. rewrite !ReadFull_mem. fold cs. cbn [bind].
    pose proof (len_slice_to (ahead r1) 4) as Hcs. fold cs in Hcs.
    pose proof (len_nonneg (ahead r1)).
    assert (Herr : is_err EOF (readFull_err 4 cs)
                   || is_err ErrUnexpectedEOF (readFull_err 4 cs)
                   = (len cs <? 4)).
    { unfold readFull_err.
      destruct (Z_lt_ge_dec (len cs) 4); zbool; [|reflexivity].
      destruct (0 <? len cs); reflexivity. }
    rewrite Herr.
    destruct (len cs <? 4) eqn:E4.
    + destruct (off + len bs =? interval); reflexivity.
    + destruct (off + len bs =? interval); [reflexivity|].
      cbn [iface_Seek rsSeek bytesReader_ReadSeeker].
      unfold r1. rewrite advance_advance_back; [reflexivity|].
      apply Z.ltb_ge in E4.
      pose proof (rpos_advance_le r (Z.min (len v) (interval - off)) Hp) as H1.
      rewrite Ea in H1. fold bs in H1. fold r1 in H1.
      pose proof (rpos_advance_le r1 4 H1) as H2. fold cs in H2.
      cbn [advance rpos rdata] in H2. unfold r1 in H2.
      cbn [advance rpos rdata] in H2. unfold len in *. lia.
Qed.

(** [Read] keeps the four bytes of the reader's digest buffer. *)
Lemma Read_mem_checksum (r r' : bytesReader) (interval off : Z)
    (sum v v' : list byte) (cri' : Reader.checksummedReaderImpl) (n : Z)
    (err : option error) :
  0 <= off < interval -> len sum = 4 ->
  len (rdata r) < 2 ^ 63 -> Z.of_N (rpos r) <= len (rdata r) ->
  Reader.Read r (Reader.mk Live interval off sum) v
  = Ret (r', cri', v', n, err) ->
  len (Reader.checksum cri') = 4.
Proof.
  intros Ho Hsum Hl Hp HR.
  rewrite (@Read_mem r interval off sum v Ho Hsum Hl Hp) in HR.
  cbv zeta in HR.
  assert (Hfill : forall a : list byte, len (fill sum (slice_to a 4)) = 4).
  { intros a. rewrite len_fill; [exact Hsum|].
    rewrite len_slice_to. pose proof (len_nonneg a). lia. }
  destruct (ahead r); [inversion HR; subst; exact Hsum|].
  destruct (_ <? 4); [|destruct (_ =? interval)];
    inversion HR; subst; cbn [Reader.checksum]; apply Hfill.
Qed.

(** ** Reading a layout to its end *)

Lemma tail_layout_off (interval off : Z) (a c : list byte) :
  tail_layout interval off a c -> 0 <= off < interval.
Proof.
  intros Ht. destruct Ht as [off H | off b d rest c H _ _ _ | off b d H1 H2 _];
    try assumption.
  pose proof (len_nonneg b). lia.
Qed.

Lemma tail_layout_nil (interval off : Z) (c : list byte) :
  tail_layout interval off [] c -> c = [].
Proof.
  intros Ht. remember (@nil byte) as a eqn:Ha.
  destruct Ht as [off H | off b d rest c H Hb Hd _ | off b d H1 H2 Hd].
  - reflexivity.
  - apply (f_equal (@len byte)) in Ha. rewrite !len_app, len_nil in Ha.
    pose proof (len_nonneg b). pose proof (len_nonneg rest). lia.
  - apply (f_equal (@len byte)) in Ha. rewrite !len_app, len_nil in Ha.
    pose proof (len_nonneg b). lia.
Qed.

Section LayoutTail.

Context {H32 : Hash32}.

Variable interval : Z.
Hypothesis interval_pos : 1 <= interval.

(** What the writer leaves in the sink is a tail layout from offset 0. *)
Lemma layout_tail (c : list byte) :
  tail_layout interval 0 (layout interval c) c.
Proof.
  remember (List.length c) as n eqn:Hn. revert c Hn.
  induction n as [n IH] using lt_wf_ind. intros c Hn.
  destruct c as [|x c'] eqn:Ec.
  - rewrite layout_nil. apply TL_eof. lia.
  - rewrite <- Ec in *. assert (Hc : c <> []) by (rewrite Ec; discriminate).
    assert (Hpos : 0 < len c) by (rewrite Ec, len_cons; pose proof (len_nonneg c'); lia).
    destruct (Z_lt_ge_dec (len c) interval) as [Hs | Hb].
    + rewrite layout_block by lia.
      apply TL_partial; [lia | lia | reflexivity].
    + rewrite (layout_eq interval_pos Hc).
      rewrite <- (slice_to_from c interval) at 4.
      apply TL_full.
      * lia.
      * rewrite len_slice_to. lia.
      * reflexivity.
      * apply (IH (List.length (slice_from c interval))); [|reflexivity].
        subst n. unfold slice_from. rewrite length_skipn.
        unfold len in *. lia.
Qed.

End LayoutTail.

Lemma match_nonnil {A B : Type} (l : list A) (x y : B) :
  l <> [] -> match l with [] => x | _ :: _ => y end = y.
Proof. destruct l; [congruence | reflexivity]. Qed.

(** One [Read] on a tail layout: it ends the stream, or it delivers the
    next content bytes and leaves a tail layout of the rest. *)
Lemma Read_tail_step (interval : Z) (r : bytesReader) (off : Z)
    (sum v c : list byte) :
  1 <= len v -> len sum = 4 ->
  len (rdata r) < 2 ^ 63 -> Z.of_N (rpos r) <= len (rdata r) ->
  tail_layout interval off (ahead r) c ->
  exists r' off' sum' v' n err,
    Reader.Read r (Reader.mk Live interval off sum) v
    = Ret (r', Reader.mk Live interval off' sum', v', n, err) /\
    rdata r' = rdata r /\ Z.of_N (rpos r') <= len (rdata r') /\
    len v' = len v /\
    ((err = Some EOF /\ c = [] /\ ahead r = [] /\ slice_to v' n = []) \/
     (err = None /\ ahead r <> [] /\
      exists c', c = slice_to v' n ++ c' /\
                 tail_layout interval off' (ahead r') c' /\
                 ((List.length c' < List.length c)%nat \/ ahead r' = []))).
Proof.
  intros Hv Hsum Hl Hp Ht.
  pose proof (tail_layout_off Ht) as Ho.
  pose proof (@Read_mem r interval off sum v Ho Hsum Hl Hp) as HR.
  cbv zeta in HR.
  set (k := Z.min (len v) (interval - off)) in *.
  assert (Hk : 1 <= k <= interval - off) by lia.
  assert (HA1 : ahead (advance r (slice_to (ahead r) k))
                = slice_from (ahead r) k) by apply ahead_advance.
  pose proof (ahead_advance (advance r (slice_to (ahead r) k)) 4) as HA2.
  pose proof (rpos_advance_le r k Hp) as P1.
  pose proof (rpos_advance_le (advance r (slice_to (ahead r) k)) 4 P1) as P2.
  rewrite HA1 in HA2, P2, HR.
  rewrite HR. clear HR.
  remember (ahead r) as A eqn:EA.
  destruct Ht as [off Hoff | off b d rest c Hoff Hb Hd Hrest | off b d Hoff Hb Hd].
  - (* the end of the source *)
    exists r, off, sum, v, 0, (Some EOF).
    split; [reflexivity|]. split; [reflexivity|]. split; [exact Hp|].
    split; [reflexivity|]. left.
    split; [reflexivity|]. split; [reflexivity|]. split; [reflexivity|].
    now apply slice_to_0.
  - (* inside a full block *)
    assert (Hbs : slice_to (b ++ d ++ rest) k = slice_to b k)
      by (apply slice_to_app_le; lia).
    assert (Hrest1 : slice_from (b ++ d ++ rest) k = slice_from b k ++ d ++ rest)
      by (apply slice_from_app_le; lia).
    assert (Hlbs : len (slice_to b k) = k) by (rewrite len_slice_to; lia).
    assert (Hlrest : len (slice_from b k) = len b - k)
      by (rewrite len_slice_from; lia).
    pose proof (len_nonneg rest) as Hnr.
    assert (Hcs : len (slice_to (slice_from b k ++ d ++ rest) 4) = 4).
    { rewrite len_slice_to, !len_app. lia. }
    assert (Hne : b ++ d ++ rest <> []).
    { intros EA'. apply (f_equal (@len byte)) in EA'.
      rewrite !len_app, len_nil in EA'. lia. }
    rewrite (match_nonnil _ _ Hne).
    rewrite Hbs, Hrest1 in *. rewrite Hcs, Hlbs. zbool.
    destruct (off + k =? interval) eqn:E.
    + (* the block ends here and its digest is skipped *)
      apply Z.eqb_eq in E.
      assert (Hall : slice_to b k = b) by (apply slice_to_all; lia).
      assert (Hnone : slice_from b k = []) by (apply slice_from_all; lia).
      rewrite Hnone in *. cbn [app] in *.
      rewrite (@slice_from_app_exact _ d rest 4 Hd) in HA2.
      do 6 eexists. split; [reflexivity|].
      split; [reflexivity|]. split; [exact P2|].
      split; [apply len_fill; lia|]. right.
      split; [reflexivity|]. split; [exact Hne|].
      exists c. rewrite slice_to_fill by lia.
      split; [now rewrite Hall at 1; rewrite slice_to_all by lia|].
      rewrite HA2. split; [exact Hrest|].
      left. rewrite length_app. unfold len in *. lia.
    + (* the block goes on *)
      apply Z.eqb_neq in E.
      do 6 eexists. split; [reflexivity|].
      split; [reflexivity|]. split; [exact P1|].
      split; [apply len_fill; lia|]. right.
      split; [reflexivity|]. split; [exact Hne|].
      exists (slice_from b k ++ c). rewrite slice_to_fill by lia.
      rewrite (@slice_to_all _ (slice_to b k) k) by lia.
      split; [now rewrite app_assoc, slice_to_from|].
      rewrite HA1. split.
      * apply TL_full; try assumption; lia.
      * left. rewrite !length_app. unfold len in *. lia.
  - (* inside the short last block *)
    pose proof (len_nonneg b) as Hnb.
    assert (Hne : b ++ d <> []).
    { intros EA'. apply (f_equal (@len byte)) in EA'.
      rewrite !len_app, len_nil in EA'. lia. }
    rewrite (match_nonnil _ _ Hne).
    destruct (Z_le_gt_dec k (len b)) as [Hin | Hout].
    + (* the read stays inside the content *)
      assert (Hbs : slice_to (b ++ d) k = slice_to b k)
        by (apply slice_to_app_le; lia).
      assert (Hrest1 : slice_from (b ++ d) k = slice_from b k ++ d)
        by (apply slice_from_app_le; lia).
      assert (Hlbs : len (slice_to b k) = k) by (rewrite len_slice_to; lia).
      assert (Hlrest : len (slice_from b k) = len b - k)
        by (rewrite len_slice_from; lia).
      assert (Hcs : len (slice_to (slice_from b k ++ d) 4) = 4).
      { rewrite len_slice_to, !len_app. lia. }
      rewrite Hbs, Hrest1 in *. rewrite Hcs, Hlbs. zbool.
      do 6 eexists. split; [reflexivity|].
      split; [reflexivity|]. split; [exact P1|].
      split; [apply len_fill; lia|]. right.
      split; [reflexivity|]. split; [exact Hne|].
      exists (slice_from b k). rewrite slice_to_fill by lia.
      rewrite (@slice_to_all _ (slice_to b k) k) by lia.
      split; [now rewrite slice_to_from|].
      rewrite HA1. split.
      * apply TL_partial; lia.
      * left. unfold slice_from. rewrite length_skipn. unfold len in *. lia.
    + (* the read runs into the digest: the stream ends *)
      assert (Hbs : len (slice_to (b ++ d) k) = Z.min k (len b + 4)).
      { rewrite len_slice_to, len_app. lia. }
      assert (Hrest1 : len (slice_from (b ++ d) k) = Z.max 0 (len b + 4 - k)).
      { rewrite len_slice_from, len_app. lia. }
      assert (Hcs : slice_to (slice_from (b ++ d) k) 4 = slice_from (b ++ d) k)
        by (apply slice_to_all; lia).
      assert (Hend : slice_from (slice_from (b ++ d) k) 4 = [])
        by (apply slice_from_all; lia).
      rewrite Hcs in *. rewrite Hend in HA2. rewrite Hrest1, Hbs. zbool.
      do 6 eexists. split; [reflexivity|].
      split; [reflexivity|]. split; [exact P2|].
      split; [apply len_fill; lia|]. right.
      split; [reflexivity|]. split; [exact Hne|].
      exists []. rewrite slice_to_fill by lia.
      replace (Z.min k (len b + 4) - (4 - Z.max 0 (len b + 4 - k)))
        with (len b) by lia.
      split.
      * rewrite app_nil_r. unfold slice_to. rewrite firstn_firstn.
        replace (Init.Nat.min (Z.to_nat (len b)) (Z.to_nat k))
          with (Z.to_nat (len b)) by lia.
        fold (slice_to (b ++ d) (len b)). symmetry.
        now apply slice_to_app_exact.
      * rewrite HA2. split; [|now right].
        apply TL_eof. destruct (_ =? interval) eqn:E; [lia|].
        apply Z.eqb_neq in E. lia.
Qed.

(** Reading on until the error: the content comes out, then [io.EOF]. *)
Lemma readAll_tail (interval : Z) (fuel : nat) (r : bytesReader) (off : Z)
    (sum v c : list byte) :
  1 <= len v -> len sum = 4 ->
  len (rdata r) < 2 ^ 63 -> Z.of_N (rpos r) <= len (rdata r) ->
  tail_layout interval off (ahead r) c ->
  (List.length c + match ahead r with [] => 0 | _ :: _ => 1 end < fuel)%nat ->
  exists r' cri',
    readAll fuel r (Reader.mk Live interval off sum) v
    = Ret (r', cri', c, Some EOF).
Proof.
  revert r off sum v c.
  induction fuel as [|fuel IH]; intros r off sum v c Hv Hsum Hl Hp Ht Hf;
    [lia|].
  cbn [readAll].
  destruct (@Read_tail_step interval r off sum v c Hv Hsum Hl Hp Ht)
    as (r' & off' & sum' & v' & n & err & HR & Hd & Hp' & Hv' & Hcase).
  pose proof (@Read_mem_checksum r r' interval off sum v v' _ n err
                (tail_layout_off Ht) Hsum Hl Hp HR) as Hsum'.
  cbn [Reader.checksum] in Hsum'.
  rewrite HR. cbn [bind].
  destruct Hcase as [(-> & -> & _ & Hout) | (-> & Hne & c' & -> & Ht' & Hless)].
  - rewrite Hout. eauto.
  - destruct (IH r' off' sum' v' c') as (r2 & cri2 & Hrun).
    + lia.
    + exact Hsum'.
    + now rewrite Hd.
    + exact Hp'.
    + exact Ht'.
    + rewrite (match_nonnil _ _ Hne) in Hf.
      destruct Hless as [Hlt | Hnil].
      * destruct (ahead r'); lia.
      * rewrite Hnil in Ht' |- *. apply tail_layout_nil in Ht'. subst c'.
        cbn. lia.
    + rewrite Hrun. cbn [bind]. eauto.
Qed.

(** C1.  For every interval >= 1 and every content, written in any number
    of [Write] calls and closed, a reader with the same interval on the
    bytes of the sink, read to the end with a buffer of any length >= 1,
    gives back the content, byte for byte, and then [io.EOF]. *)
Theorem write_then_read_roundtrip {H32 : Hash32} (interval : Z)
    (vs : list (list byte)) (v : list byte) (fuel : nat) :
  1 <= interval ->
  1 <= len v ->
  len (List.concat vs) < 2 ^ 60 ->
  (List.length (List.concat vs) + 1 < fuel)%nat ->
  exists w cwi r cri,
    writeAllClose (mkBytesBuffer [])
      (Writer.newChecksummedWriterImpl interval) vs
    = Ret (w, cwi, None) /\
    readAll fuel (mkBytesReader (wdata w) 0)
      (Reader.newChecksummedReaderImpl interval) v
    = Ret (r, cri, List.concat vs, Some EOF).
Proof.
  intros Hi Hv Hc Hf.
  set (c := List.concat vs) in *.
  destruct (@writeAll_mem _ _ Hi vs [] _ (@writer_holds_new interval))
    as (cwi & Hrun & Hw).
  destruct (Close_mem Hi Hw) as (cwi' & Hclose).
  cbn [app] in *. fold c in Hrun, Hclose.
  change (sofar interval []) with (@nil byte) in Hrun.
  pose proof (len_layout Hi c) as Hlen.
  pose proof (len_nonneg c) as Hc0.
  assert (Hceil : (len c + interval - 1) / interval <= len c).
  { destruct (Z_le_gt_dec (len c) 0).
    - assert (Hz : len c = 0) by lia. rewrite Hz.
      rewrite Z.div_small; lia.
    - apply Z.lt_succ_r. apply Z.div_lt_upper_bound; nia. }
  destruct (@readAll_tail interval fuel
              (mkBytesReader (layout interval c) 0) 0 (repeat x00 4) v c)
    as (r & cri & Hread).
  - exact Hv.
  - reflexivity.
  - cbn [rdata]. zlia.
  - cbn [rdata rpos]. pose proof (len_nonneg (layout interval c)). lia.
  - unfold ahead. cbn [rdata rpos N.to_nat skipn]. now apply layout_tail.
  - destruct (ahead _); lia.
  - exists (mkBytesBuffer (layout interval c)), cwi', r, cri.
    split; [|exact Hread].
    unfold writeAllClose. rewrite Hrun. cbn [bind]. now rewrite Hclose.
Qed.

Lemma write_then_read_roundtrip_witness :
  exists w cwi r cri,
    @writeAllClose fnv32a _ _ (mkBytesBuffer [])
      (Writer.newChecksummedWriterImpl 2) [[x61]; [x62; x63]; []; [x64; x65]]
    = Ret (w, cwi, None) /\
    readAll 7 (mkBytesReader (wdata w) 0)
      (Reader.newChecksummedReaderImpl 2) [x00; x00; x00]
    = Ret (r, cri, [x61; x62; x63; x64; x65], Some EOF).
Proof.
  apply (@write_then_read_roundtrip fnv32a 2
           [[x61]; [x62; x63]; []; [x64; x65]] [x00; x00; x00] 7);
    cbn; lia.
Defined.

(** ** Verify on a stored block *)

Lemma skipn_app_exact {A : Type} (a b : list A) (n : nat) :
  n = List.length a -> skipn n (a ++ b) = b.
Proof.
  intros ->. rewrite skipn_app, Nat.sub_diag, skipn_all. reflexivity.
Qed.

Lemma bytes_Equal_refl (a : list byte) : bytes_Equal a a = true.
Proof.
  unfold bytes_Equal. destruct (list_eq_dec byte_eq_dec a a); congruence.
Qed.

Lemma bytes_Equal_neq (a b : list byte) : a <> b -> bytes_Equal a b = false.
Proof.
  unfold bytes_Equal. destruct (list_eq_dec byte_eq_dec a b); congruence.
Qed.

Lemma fill_zeros (n : nat) (got : list byte) :
  (List.length got <= n)%nat ->
  slice_to (fill (repeat x00 n) got) (len got) = got.
Proof.
  intros Hn. unfold fill. now apply slice_to_app_exact.
Qed.

(** [Verify] with the cursor [off] bytes into a stored block [blk] that is
    followed by the four bytes [dg]: it compares [dg] with the digest of
    [blk] and puts the cursor back. *)
Lemma Verify_block {H32 : Hash32} (r : bytesReader) (interval off : Z)
    (sum pre blk dg post : list byte) :
  rdata r = pre ++ blk ++ dg ++ post ->
  Z.of_N (rpos r) = len pre + off -> 0 <= off <= len blk ->
  len dg = 4 -> 0 <= interval -> interval + 4 <= maxAlloc -> len sum = 4 ->
  len blk = interval \/ (len blk < interval /\ post = []) ->
  len (rdata r) < 2 ^ 63 ->
  Reader.Verify r (Reader.mk Live interval off sum)
  = Ret (r, Reader.mk Live interval off (block_sum blk),
         bytes_Equal dg (block_sum blk), None).
Proof.
  intros Hdata Hpos Hoff Hdg Hi Hmax Hcs Hblk Hl.
  assert (Hinto : Reader.Sum_into sum (block_sum blk) = block_sum blk).
  { unfold Reader.Sum_into. rewrite len_block_sum, Hcs.
    cbn [Z.leb Z.compare Pos.compare Pos.compare_cont].
    unfold fill. rewrite skipn_all2; [apply app_nil_r|].
    pose proof (len_block_sum blk) as Hb4. unfold len in *. lia. }
  pose proof (len_nonneg pre) as Hpre. pose proof (len_nonneg blk) as Hb.
  pose proof (len_nonneg post) as Hpost.
  assert (Hlen : len (rdata r) = len pre + len blk + 4 + len post).
  { rewrite Hdata, !len_app. lia. }
  unfold Reader.Verify.
  cbn [Reader.delegate Reader.checksumInterval Reader.checksumOffset
       Reader.checksum iface_Seek rsSeek bytesReader_ReadSeeker].
  rewrite bytesReader_Seek_cur by zlia.
  set (start := mkBytesReader (rdata r) (Z.to_N (len pre))).
  assert (Hrewind :
    (if 0 <? off
     then let '(r', _, e) := bytesReader_Seek r (wrap64 (- off)) 1 in (r', e)
     else (r, None)) = (start, None)).
  { destruct (0 <? off) eqn:E.
    - rewrite wrap64_small by zlia.
      rewrite bytesReader_Seek_rel by zlia.
      unfold start. do 3 f_equal. lia.
    - apply Z.ltb_ge in E. assert (off = 0) by lia.
      unfold start. replace (len pre) with (Z.of_N (rpos r)) by lia.
      rewrite N2Z.id. now destruct r. }
  rewrite Hrewind. unfold make_bytes. zbool. cbn [orb bind].
  rewrite ReadFull_mem. cbn [bind].
  assert (Hahead : ahead start = blk ++ dg ++ post).
  { unfold ahead, start. cbn [rdata rpos]. rewrite Hdata.
    apply skipn_app_exact. unfold len. lia. }
  rewrite Hahead.
  assert (Hgot : slice_to (blk ++ dg ++ post) (interval + 4) = blk ++ dg).
  { rewrite app_assoc. destruct Hblk as [Hfull | [Hshort ->]].
    - apply slice_to_app_exact. rewrite len_app. lia.
    - rewrite app_nil_r. apply slice_to_all. rewrite len_app. lia. }
  rewrite Hgot.
  assert (Hlgot : len (blk ++ dg) = len blk + 4) by (rewrite len_app; lia).
  assert (Hback :
    bytesReader_Seek (advance start (blk ++ dg)) (Z.of_N (rpos r)) 0
    = (r, Z.of_N (rpos r), None)).
  { rewrite bytesReader_Seek_abs by lia. cbn [advance start rdata].
    rewrite N2Z.id. now destruct r. }
  assert (Hmine : hash_Sum (hash_Write newHash blk) [] = block_sum blk)
    by reflexivity.
  assert (Hfit : (List.length (blk ++ dg) <= Z.to_nat (interval + 4))%nat).
  { unfold len in *. destruct Hblk as [? | [? _]]; lia. }
  pose proof (fill_zeros _ Hfit) as Hfz. rewrite Hlgot in Hfz.
  unfold readFull_err. rewrite Hlgot.
  destruct Hblk as [Hfull | [Hshort ->]].
  - (* a full block: everything asked for came in *)
    zbool. cbn [is_err is_nil negb bind].
    rewrite <- Hfull in *.
    assert (Hblock : slice_to (fill (repeat x00 (Z.to_nat (len blk + 4)))
                                 (blk ++ dg)) (len blk) = blk).
    { rewrite slice_to_fill by lia. now apply slice_to_app_exact. }
    assert (Hsum : slice_from (fill (repeat x00 (Z.to_nat (len blk + 4)))
                                 (blk ++ dg)) (len blk) = dg).
    { unfold fill. rewrite skipn_all2 by (rewrite repeat_length; unfold len in *; lia).
      rewrite app_nil_r. now apply slice_from_app_exact. }
    rewrite Hblock, Hsum, Hmine, Hback, Hinto. reflexivity.
  - (* the short last block: the last four bytes read are the digest *)
    zbool. cbn [is_err].
    destruct (error_eq_dec ErrUnexpectedEOF ErrUnexpectedEOF); [|congruence].
    zbool. cbn [bind].
    replace (len blk + 4 - 4) with (len blk) by lia.
    rewrite Hfz.
    assert (Hblock : slice_to (fill (repeat x00 (Z.to_nat (interval + 4)))
                                 (blk ++ dg)) (len blk) = blk).
    { rewrite slice_to_fill by lia. now apply slice_to_app_exact. }
    rewrite Hblock, (@slice_from_app_exact _ blk dg (len blk) eq_refl).
    rewrite Hmine, Hback, Hinto. reflexivity.
Qed.

Lemma layout_at_block {H32 : Hash32} (interval : Z) (c : list byte) (L : Z) :
  1 <= interval -> 0 <= L < len c ->
  let k := L / interval in
  let blk := slice_to (slice_from c (k * interval)) interval in
  exists pre post,
    layout interval c = pre ++ blk ++ block_sum blk ++ post /\
    len pre = k * (interval + 4) /\
    (len blk = interval \/ (len blk < interval /\ post = [])) /\
    L mod interval < len blk.
Proof.
  intros Hi HL k blk.
  pose proof (Z.div_pos L interval) as Hk.
  pose proof (Z.div_mod L interval) as Hdm.
  pose proof (Z.mod_pos_bound L interval) as Hm.
  set (c1 := slice_to c (k * interval)).
  set (c2 := slice_from c (k * interval)).
  assert (Hc1 : len c1 = Z.of_nat (Z.to_nat k) * interval).
  { unfold c1. rewrite len_slice_to. fold k in Hk, Hdm. rewrite Z2Nat.id by lia.
    nia. }
  assert (Hc2 : len c2 = len c - k * interval).
  { unfold c2. rewrite len_slice_from. fold k in Hk, Hdm. nia. }
  assert (Hne : c2 <> []).
  { intros E. rewrite E, len_nil in Hc2. fold k in Hdm. nia. }
  exists (layout interval c1), (layout interval (slice_from c2 interval)).
  assert (Hlb : len blk = Z.min interval (len c2)).
  { unfold blk. fold c2. rewrite len_slice_to. lia. }
  split; [|split; [|split]].
  - rewrite <- (slice_to_from c (k * interval)) at 1. fold c1 c2.
    rewrite (@layout_app_full _ _ Hi _ _ c2 Hc1).
    rewrite (layout_eq Hi Hne). reflexivity.
  - rewrite (@len_layout_full _ _ Hi _ _ Hc1).
    fold k in Hk. rewrite Z2Nat.id by lia. reflexivity.
  - destruct (Z_le_gt_dec interval (len c2)) as [Hfull | Hshort].
    + left. lia.
    + right. split; [lia|].
      rewrite slice_from_all by lia. reflexivity.
  - fold k in Hdm. rewrite Hlb, Hc2. nia.
Qed.

(** *** Flipped bits *)

Lemma flip_neq (b : byte) (bit : nat) : (bit < 8)%nat -> flip b bit <> b.
Proof.
  intros Hbit.
  do 8 (destruct bit as [|bit]; [destruct b; discriminate|]). lia.
Qed.

Lemma slice_to_app_ge {A : Type} (a b : list A) (k : Z) :
  len a <= k -> slice_to (a ++ b) k = a ++ slice_to b (k - len a).
Proof.
  unfold len, slice_to. intros Hk. rewrite firstn_app, firstn_all2 by lia.
  do 2 f_equal. lia.
Qed.

Lemma slice_from_app_ge {A : Type} (a b : list A) (k : Z) :
  len a <= k -> slice_from (a ++ b) k = slice_from b (k - len a).
Proof.
  unfold len, slice_from. intros Hk. rewrite skipn_app, skipn_all2 by lia.
  cbn [app]. f_equal. lia.
Qed.

Lemma slice_from_nonnil {A : Type} (a : list A) (q : Z) :
  0 <= q < len a -> slice_from a q <> [].
Proof.
  intros Hq E. assert (Hl : len (slice_from a q) = 0) by now rewrite E.
  rewrite len_slice_from in Hl. lia.
Qed.

Lemma flip_bit_inside (pre a post : list byte) (q : Z) (bit : nat) :
  0 <= q < len a ->
  flip_bit (pre ++ a ++ post) (len pre + q) bit
  = pre ++ flip_bit a q bit ++ post.
Proof.
  intros Hq. pose proof (len_nonneg pre). unfold flip_bit.
  rewrite slice_to_app_ge, slice_from_app_ge by lia.
  replace (len pre + q - len pre) with q by lia.
  rewrite slice_to_app_le, slice_from_app_le by lia.
  destruct (slice_from a q) as [|b rest] eqn:E.
  - now apply slice_from_nonnil in E.
  - cbn [app]. rewrite <- !app_assoc. reflexivity.
Qed.

Lemma flip_bit_spec (a : list byte) (q : Z) (bit : nat) :
  0 <= q < len a -> (bit < 8)%nat ->
  len (flip_bit a q bit) = len a /\ flip_bit a q bit <> a.
Proof.
  intros Hq Hbit. unfold flip_bit.
  destruct (slice_from a q) as [|b rest] eqn:E.
  { now apply slice_from_nonnil in E. }
  split.
  - rewrite <- (slice_to_from a q) at 2. rewrite E, !len_app, !len_cons.
    reflexivity.
  - intros Heq. rewrite <- (slice_to_from a q) in Heq at 2. rewrite E in Heq.
    apply app_inv_head in Heq. injection Heq as Hb.
    now apply (flip_neq Hbit) in Hb.
Qed.

(** *** The digest bytes determine the 32-bit value *)

Lemma Z_of_byte_of_Z (z : Z) : Z_of_byte (byte_of_Z z) = z mod 256.
Proof.
  unfold Z_of_byte, byte_of_Z.
  pose proof (Z.mod_pos_bound z 256).
  destruct (Byte.of_N (Z.to_N (z mod 256))) as [b|] eqn:E.
  - apply Byte.to_of_N in E. rewrite E. lia.
  - apply Byte.of_N_None_iff in E. lia.
Qed.

Lemma PutUint32_inj (a b : Z) :
  0 <= a < 2 ^ 32 -> 0 <= b < 2 ^ 32 -> PutUint32 a = PutUint32 b -> a = b.
Proof.
  intros Ha Hb Heq. unfold PutUint32 in Heq.
  injection Heq as H3 H2 H1 H0.
  apply (f_equal Z_of_byte) in H0, H1, H2, H3.
  rewrite !Z_of_byte_of_Z in *.
  rewrite !Z.shiftr_div_pow2 in * by lia.
  pows. Z.div_mod_to_equations. lia.
Qed.

Lemma hash_Sum32_range {H32 : Hash32} (h : hashState) :
  0 <= hash_Sum32 h < 2 ^ 32.
Proof. unfold hash_Sum32. apply Z.mod_pos_bound. zlia. Qed.

Lemma bytes_Equal_PutUint32 (a b : Z) :
  0 <= a < 2 ^ 32 -> 0 <= b < 2 ^ 32 ->
  bytes_Equal (PutUint32 a) (PutUint32 b) = (a =? b).
Proof.
  intros Ha Hb. destruct (a =? b) eqn:E.
  - apply Z.eqb_eq in E. subst b. apply bytes_Equal_refl.
  - apply Z.eqb_neq in E. apply bytes_Equal_neq.
    intros Heq. apply E. now apply PutUint32_inj.
Qed.

(** The seek to [L] and the verification there, on any bytes that have a
    block [blk'] with the digest bytes [dg'] where the layout has the block
    of [L]. *)
Lemma verifyAt_block {H32 : Hash32} (interval L : Z)
    (pre blk' dg' post : list byte) :
  1 <= interval < 2 ^ 62 -> interval + 4 <= maxAlloc -> 0 <= L ->
  len pre = L / interval * (interval + 4) ->
  L mod interval < len blk' ->
  len blk' = interval \/ (len blk' < interval /\ post = []) ->
  len dg' = 4 ->
  len (pre ++ blk' ++ dg' ++ post) < 2 ^ 60 ->
  verifyAt interval L (mkBytesReader (pre ++ blk' ++ dg' ++ post) 0)
  = Ret (mkBytesReader (pre ++ blk' ++ dg' ++ post)
           (Z.to_N (L + 4 * (L / interval))),
         Reader.mk Live interval (L mod interval) (block_sum blk'),
         bytes_Equal dg' (block_sum blk'), None).
Proof.
  intros Hi Hmax HL Hpre Hin Hblk Hdg Hlen.
  set (data := pre ++ blk' ++ dg' ++ post) in *.
  pose proof (Z.div_pos L interval) as Hk.
  pose proof (Z.div_mod L interval) as Hdm.
  pose proof (Z.mod_pos_bound L interval) as Hm.
  pose proof (len_nonneg pre). pose proof (len_nonneg blk').
  pose proof (len_nonneg post).
  assert (Hdlen : len data = len pre + len blk' + 4 + len post).
  { unfold data. rewrite !len_app. lia. }
  assert (HLb : L <= 2 ^ 60).
  { assert (L < len pre + len blk') by nia. zlia. }
  unfold verifyAt, Reader.Seek. cbn [Z.eqb].
  destruct (@Seek_finish_mem (mkBytesReader data 0)
              (Reader.newChecksummedReaderImpl interval) L)
    as [lo Hseek]; [reflexivity | exact Hi | zlia |].
  rewrite Hseek. zbool. cbn [bind rdata Reader.checksumInterval
                              Reader.newChecksummedReaderImpl Reader.checksum].
  rewrite Z.quot_div_nonneg by lia.
  apply Verify_block with (pre := pre) (post := post) (dg := dg').
  - reflexivity.
  - cbn [rpos]. rewrite Z2N.id by nia. nia.
  - lia.
  - exact Hdg.
  - lia.
  - exact Hmax.
  - reflexivity.
  - exact Hblk.
  - cbn [rdata]. zlia.
Qed.

(** C5, amended.  The hash is one whose [Sum] appends the big-endian bytes
    of [Sum32], as the 32-bit hashes of the standard library do, and the
    interval is below 2^31, so that the block buffer of [Verify] is
    allocated.  For the stream the writer leaves for a content and such an
    interval, [Verify] with the cursor at any content offset [L] returns
    [(true, nil)] and keeps the cursor.  With one bit flipped in the stored
    digest of the block of [L] it returns [(false, nil)].  With one bit
    flipped in the stored content of that block it returns [(false, nil)]
    exactly when the 32-bit hash of the flipped block differs from the
    hash of the block as written, which depends on the hash given. *)
Theorem Verify_detects_what_the_hash_detects {H32 : Hash32}
    (interval : Z) (vs : list (list byte)) (L : Z) :
  1 <= interval < 2 ^ 31 ->
  0 <= L < len (List.concat vs) ->
  len (List.concat vs) < 2 ^ 57 ->
  let c := List.concat vs in
  let k := L / interval in
  let blk := slice_to (slice_from c (k * interval)) interval in
  let start := k * (interval + 4) in
  let here (s : list byte) := mkBytesReader s (Z.to_N (L + 4 * k)) in
  let cursor (b : list byte) :=
    Reader.mk Live interval (L mod interval) (block_sum b) in
  exists w cwi,
    writeAllClose (mkBytesBuffer [])
      (Writer.newChecksummedWriterImpl interval) vs = Ret (w, cwi, None) /\
    verifyAt interval L (mkBytesReader (wdata w) 0)
    = Ret (here (wdata w), cursor blk, true, None) /\
    (forall q bit,
        (bit < 8)%nat -> start + len blk <= q < start + len blk + 4 ->
        let s := flip_bit (wdata w) q bit in
        verifyAt interval L (mkBytesReader s 0)
        = Ret (here s, cursor blk, false, None)) /\
    (forall q bit,
        (bit < 8)%nat -> start <= q < start + len blk ->
        let s := flip_bit (wdata w) q bit in
        let blk' := flip_bit blk (q - start) bit in
        verifyAt interval L (mkBytesReader s 0)
        = Ret (here s, cursor blk',
               hash_Sum32 (hash_Write newHash blk)
               =? hash_Sum32 (hash_Write newHash blk'), None)).
Proof.
  intros Hi31 HL Hc c k blk start here cursor. fold c in HL, Hc.
  assert (Hi1 : 1 <= interval) by lia.
  assert (Hi : 1 <= interval < 2 ^ 62) by zlia.
  assert (Hmax : interval + 4 <= maxAlloc) by (unfold maxAlloc; zlia).
  destruct (@writeAll_mem _ _ Hi1 vs [] _ (@writer_holds_new interval))
    as (cwi & Hrun & Hw).
  destruct (Close_mem Hi1 Hw) as (cwi' & Hclose).
  cbn [app] in *. fold c in Hrun, Hclose.
  change (sofar interval []) with (@nil byte) in Hrun.
  exists (mkBytesBuffer (layout interval c)), cwi'.
  split; [unfold writeAllClose; rewrite Hrun; cbn [bind]; now rewrite Hclose|].
  cbn [wdata].
  destruct (@layout_at_block _ interval c L Hi1 HL)
    as (pre & post & Hlay & Hpre & Hblk & Hin).
  fold k in Hlay, Hpre, Hblk, Hin. fold blk in Hlay, Hblk, Hin.
  pose proof (len_layout Hi1 c) as Hlen.
  pose proof (len_nonneg c) as Hc0.
  assert (Hceil : (len c + interval - 1) / interval <= len c).
  { apply Z.lt_succ_r. apply Z.div_lt_upper_bound; nia. }
  assert (Hbound : len (layout interval c) < 2 ^ 60) by zlia.
  pose proof (len_nonneg blk) as Hb0.
  pose proof (Z.mod_pos_bound L interval) as Hm.
  rewrite Hlay in *.
  split; [|split].
  - rewrite verifyAt_block.
    + now rewrite bytes_Equal_refl.
    + exact Hi.
    + exact Hmax.
    + lia.
    + exact Hpre.
    + exact Hin.
    + exact Hblk.
    + apply len_block_sum.
    + exact Hbound.
  - intros q bit Hbit Hq.
    assert (Hs : flip_bit (pre ++ blk ++ block_sum blk ++ post) q bit
                 = pre ++ blk
                     ++ flip_bit (block_sum blk) (q - start - len blk) bit
                     ++ post).
    { replace q with (len (pre ++ blk) + (q - start - len blk)) at 1
        by (rewrite len_app; lia).
      rewrite (app_assoc pre blk).
      rewrite flip_bit_inside by (rewrite len_block_sum; lia).
      now rewrite <- app_assoc. }
    destruct (@flip_bit_spec (block_sum blk) (q - start - len blk) bit)
      as [Hl Hne]; [rewrite len_block_sum; lia | exact Hbit |].
    rewrite Hs.
    rewrite verifyAt_block.
    + now rewrite (bytes_Equal_neq Hne).
    + exact Hi.
    + exact Hmax.
    + lia.
    + exact Hpre.
    + exact Hin.
    + exact Hblk.
    + rewrite Hl. apply len_block_sum.
    + rewrite !len_app in *. rewrite Hl. rewrite len_block_sum in *. lia.
  - intros q bit Hbit Hq.
    set (blk' := flip_bit blk (q - start) bit).
    assert (Hs : flip_bit (pre ++ blk ++ block_sum blk ++ post) q bit
                 = pre ++ blk' ++ block_sum blk ++ post).
    { unfold blk'. replace q with (len pre + (q - start)) at 1 by lia.
      now rewrite flip_bit_inside by lia. }
    destruct (@flip_bit_spec blk (q - start) bit) as [Hl Hne];
      [lia | exact Hbit |].
    fold blk' in Hl, Hne.
    rewrite Hs.
    rewrite verifyAt_block.
    + unfold block_sum. rewrite bytes_Equal_PutUint32
        by apply hash_Sum32_range.
      reflexivity.
    + exact Hi.
    + exact Hmax.
    + lia.
    + exact Hpre.
    + lia.
    + rewrite Hl. exact Hblk.
    + apply len_block_sum.
    + rewrite !len_app in *. rewrite len_block_sum in *. lia.
Qed.

Lemma Verify_detects_what_the_hash_detects_witness :
  exists w cwi,
    @writeAllClose fnv32a _ _ (mkBytesBuffer [])
      (Writer.newChecksummedWriterImpl 2) [[x61; x62]; [x63]]
    = Ret (w, cwi, None) /\
    @verifyAt _ _ fnv32a 2 2 (mkBytesReader (wdata w) 0)
    = Ret (mkBytesReader (wdata w) 6,
           Reader.mk Live 2 0 (@block_sum fnv32a [x63]), true, None).
Proof.
  destruct (@Verify_detects_what_the_hash_detects fnv32a 2
              [[x61; x62]; [x63]] 2)
    as (w & cwi & Hrun & Hok & _); [lia | cbn; lia | cbn; lia |].
  exists w, cwi. split; [exact Hrun | exact Hok].
Defined.

(** C5, as stated, fails: the hash need not see a flipped content bit.
    With the hash that counts the bytes, interval 4 and three content
    bytes, [Verify] accepts the stream with the lowest bit of the first
    content byte flipped. *)
Lemma Verify_misses_flip_under_weak_hash :
  let s := @layout lengthHash 4 [x61; x62; x63] in
  let s' := flip_bit s 0 0 in
  s' <> s /\
  @verifyAt _ _ lengthHash 4 0 (mkBytesReader s' 0)
  = Ret (mkBytesReader s' 0, Reader.mk Live 4 0 [x00; x00; x00; x03],
         true, None).
Proof.
  split; [discriminate | reflexivity].
Qed.

(** * Further properties of the reader and the writer *)

(** ** Seek on an in-memory source *)

Lemma Seek_finish_any_offset {R : Type} `{ReadSeeker R} (r : R)
    (cri : Reader.checksummedReaderImpl) (off offset : Z) :
  Reader.Seek_finish r
    (Reader.mk (Reader.delegate cri) (Reader.checksumInterval cri) off
       (Reader.checksum cri)) offset
  = Reader.Seek_finish r cri offset.
Proof. reflexivity. Qed.

(** X1.  An absolute [Seek] to a logical offset [L >= 0] puts the source
    at the physical offset [L + 4 * (L / interval)] and the intra-block
    offset at [L mod interval], without error.  The position it returns is
    that physical offset less four times its quotient by the interval,
    which is [L] itself as long as [L < interval]. *)
Theorem Seek_start_positions (r : bytesReader)
    (cri : Reader.checksummedReaderImpl) (L : Z) :
  Reader.delegate cri = Live ->
  1 <= Reader.checksumInterval cri < 2 ^ 62 ->
  0 <= L <= 2 ^ 57 ->
  let interval := Reader.checksumInterval cri in
  let target := L + 4 * (L / interval) in
  Reader.Seek r cri L 0
  = Ret (mkBytesReader (rdata r) (Z.to_N target),
         Reader.mk Live interval (L mod interval) (Reader.checksum cri),
         target - 4 * (target / interval), None) /\
  (L < interval -> target - 4 * (target / interval) = L).
Proof.
  intros Hd Hi HL interval target.
  assert (Hi1 : 1 <= interval) by (unfold interval; lia).
  pose proof (Z.div_pos L interval) as Hq.
  assert (Hqb : L / interval <= L).
  { destruct (quot_bounds L Hi1) as [Hb _].
    rewrite <- Z.quot_div_nonneg by lia. lia. }
  split.
  - unfold Reader.Seek, Reader.Seek_finish. cbn [Z.eqb]. rewrite Hd.
    fold interval.
    rewrite physicalOffset_small by zlia. cbn [bind].
    set (t := L + 4 * Z.quot L interval).
    assert (Ht : t = target).
    { unfold t, target. now rewrite Z.quot_div_nonneg by lia. }
    assert (Hrem : Z.rem t (interval + 4) = L mod interval)
      by (apply rem_physical; lia).
    assert (Htb : 0 <= t <= 2 ^ 60) by (rewrite Ht; unfold target; zlia).
    cbn [iface_Seek rsSeek bytesReader_ReadSeeker].
    rewrite bytesReader_Seek_abs by lia.
    rewrite intraBlock_small by (unfold interval; lia). cbn [bind].
    rewrite logicalOffset_small by zlia. cbn [bind].
    rewrite Hrem, (Z.quot_div_nonneg t) by lia. rewrite Ht. reflexivity.
  - intros Hlt. unfold target. rewrite (Z.div_small L interval) by lia.
    rewrite Z.mul_0_r, Z.add_0_r. rewrite (Z.div_small L interval) by lia.
    lia.
Qed.

Lemma Seek_start_positions_witness :
  Reader.Seek (mkBytesReader (repeat x00 20) 0)
    (Reader.newChecksummedReaderImpl 4) 9 0
  = Ret (mkBytesReader (repeat x00 20) 17,
         Reader.mk Live 4 1 (repeat x00 4), 1, None).
Proof.
  apply (@Seek_start_positions (mkBytesReader (repeat x00 20) 0)
           (Reader.newChecksummedReaderImpl 4) 9); cbn; try reflexivity; lia.
Defined.

Lemma Seek_finish_negative (r : bytesReader)
    (cri : Reader.checksummedReaderImpl) (L : Z) :
  Reader.delegate cri = Live ->
  1 <= Reader.checksumInterval cri < 2 ^ 62 ->
  - 2 ^ 60 <= L < 0 ->
  Reader.Seek_finish r cri L
  = Ret (r, Reader.mk Live (Reader.checksumInterval cri) 0
              (Reader.checksum cri), 0,
         Some (ErrDelegate "bytes.Reader.Seek: negative position")).
Proof.
  intros Hd Hi HL.
  set (interval := Reader.checksumInterval cri) in *.
  assert (Hi1 : 1 <= interval) by lia.
  destruct (quot_bounds L Hi1) as [_ Hq].
  unfold Reader.Seek_finish. rewrite Hd. fold interval.
  rewrite physicalOffset_small by zlia. cbn [bind].
  cbn [iface_Seek rsSeek bytesReader_ReadSeeker].
  unfold bytesReader_Seek. cbn [Z.eqb]. zbool.
  rewrite intraBlock_small by lia. cbn [bind].
  rewrite logicalOffset_small by zlia. cbn [bind].
  rewrite Z.rem_0_l by lia. rewrite Z.quot_0_l by lia. reflexivity.
Qed.

(** X3.  An absolute [Seek] to a negative offset fails with the error of
    the source.  The source does not move, yet the intra-block offset of
    the reader is reset to 0 and the position returned is 0. *)
Theorem Seek_negative_resets_offset (r : bytesReader)
    (cri : Reader.checksummedReaderImpl) (L : Z) :
  Reader.delegate cri = Live ->
  1 <= Reader.checksumInterval cri < 2 ^ 62 ->
  - 2 ^ 60 <= L < 0 ->
  Reader.Seek r cri L 0
  = Ret (r, Reader.mk Live (Reader.checksumInterval cri) 0
              (Reader.checksum cri), 0,
         Some (ErrDelegate "bytes.Reader.Seek: negative position")).
Proof.
  intros Hd Hi HL. unfold Reader.Seek. cbn [Z.eqb].
  now apply Seek_finish_negative.
Qed.

Lemma Seek_negative_resets_offset_witness :
  Reader.Seek (mkBytesReader (repeat x00 20) 9) (Reader.mk Live 4 3 [])
    (-1) 0
  = Ret (mkBytesReader (repeat x00 20) 9, Reader.mk Live 4 0 [], 0,
         Some (ErrDelegate "bytes.Reader.Seek: negative position")).
Proof.
  apply (@Seek_negative_resets_offset (mkBytesReader (repeat x00 20) 9)
           (Reader.mk Live 4 3 []) (-1)); cbn; try reflexivity; lia.
Defined.

(** X4.  [Seek] with a whence other than 0, 1 and 2 fails with the
    invalid-whence error, leaves the source and the reader as they were,
    and returns the physical position of the source, not a logical one. *)
Theorem Seek_invalid_whence_keeps_state (r : bytesReader)
    (cri : Reader.checksummedReaderImpl) (offset whence : Z) :
  Reader.delegate cri = Live ->
  Z.of_N (rpos r) < 2 ^ 63 ->
  whence <> 0 -> whence <> 1 -> whence <> 2 ->
  Reader.Seek r cri offset whence
  = Ret (r, cri, Z.of_N (rpos r), Some (ErrInvalidWhence whence)).
Proof.
  intros Hd Hp H0 H1 H2. unfold Reader.Seek. zbool. rewrite Hd.
  cbn [iface_Seek rsSeek bytesReader_ReadSeeker].
  now rewrite bytesReader_Seek_cur.
Qed.

Lemma Seek_invalid_whence_keeps_state_witness :
  Reader.Seek (mkBytesReader (repeat x00 20) 9) (Reader.mk Live 4 1 []) 5 7
  = Ret (mkBytesReader (repeat x00 20) 9, Reader.mk Live 4 1 [], 9,
         Some (ErrInvalidWhence 7)).
Proof.
  apply (@Seek_invalid_whence_keeps_state (mkBytesReader (repeat x00 20) 9)
           (Reader.mk Live 4 1 []) 5 7); cbn; try reflexivity; lia.
Defined.

(** X5.  While the source is inside the first block, a relative [Seek] is
    the absolute [Seek] to the position plus the delta.  On a source
    shorter than the interval a [Seek] from the end is the absolute [Seek]
    to the size plus the delta when that target is not negative; when it
    is negative the call fails and leaves the source at its end. *)
Theorem Seek_relative_in_first_block (r : bytesReader)
    (cri : Reader.checksummedReaderImpl) (d : Z) :
  Reader.delegate cri = Live ->
  1 <= Reader.checksumInterval cri <= 2 ^ 59 ->
  - 2 ^ 59 <= d <= 2 ^ 59 ->
  (Z.of_N (rpos r) < Reader.checksumInterval cri ->
   Reader.Seek r cri d 1 = Reader.Seek r cri (Z.of_N (rpos r) + d) 0) /\
  (len (rdata r) < Reader.checksumInterval cri ->
   0 <= len (rdata r) + d ->
   Reader.Seek r cri d 2 = Reader.Seek r cri (len (rdata r) + d) 0) /\
  (len (rdata r) < Reader.checksumInterval cri ->
   len (rdata r) + d < 0 ->
   Reader.Seek r cri d 2
   = Ret (mkBytesReader (rdata r) (Z.to_N (len (rdata r))),
          Reader.mk Live (Reader.checksumInterval cri) 0 (Reader.checksum cri),
          0, Some (ErrDelegate "bytes.Reader.Seek: negative position"))).
Proof.
  intros Hd Hi Hdl.
  set (interval := Reader.checksumInterval cri) in *.
  assert (Hi1 : 1 <= interval) by lia.
  assert (Hrel : forall w o r0,
            bytesReader_Seek r 0 w = (r0, o, None) -> rdata r0 = rdata r ->
            0 <= o < interval ->
            Reader.Seek_relative r cri d w
            = Reader.Seek_finish r0 cri (o + d)).
  { intros w o r0 Hs Hdata Ho. unfold Reader.Seek_relative. rewrite Hd.
    cbn [iface_Seek rsSeek bytesReader_ReadSeeker]. rewrite Hs. fold interval.
    rewrite intraBlock_small by zlia. cbn [bind].
    rewrite logicalOffset_small by zlia. cbn [bind].
    rewrite Z.quot_small by lia. rewrite Z.mul_0_r, Z.sub_0_r.
    rewrite wrap64_small by zlia.
    rewrite <- Hd. apply Seek_finish_any_offset. }
  assert (Hmoved : forall r0 x, rdata r0 = rdata r -> 0 <= x <= 2 ^ 60 ->
            Reader.Seek_finish r0 cri x = Reader.Seek_finish r cri x).
  { intros r0 x Hdata Hx. unfold Reader.Seek_finish. rewrite Hd. fold interval.
    rewrite physicalOffset_small by zlia. cbn [bind].
    destruct (quot_bounds x Hi1) as [Hq _].
    cbn [iface_Seek rsSeek bytesReader_ReadSeeker].
    rewrite !bytesReader_Seek_abs by lia. now rewrite Hdata. }
  pose proof (len_nonneg (rdata r)) as Hl.
  assert (Hend : len (rdata r) < interval ->
                 bytesReader_Seek r 0 2
                 = (mkBytesReader (rdata r) (Z.to_N (len (rdata r))),
                    len (rdata r), None)).
  { intros Hs. unfold bytesReader_Seek.
    change (2 =? 0) with false. change (2 =? 1) with false.
    change (2 =? 2) with true. cbn iota. rewrite Z.add_0_r.
    rewrite wrap64_small by zlia. zbool. reflexivity. }
  split; [|split]; intros Hlt; unfold Reader.Seek; cbn [Z.eqb].
  - change (1 =? 0) with false. change (1 =? 1) with true. cbn iota.
    apply Hrel with (r0 := r); [|reflexivity|lia].
    apply bytesReader_Seek_cur. zlia.
  - intros Hpos.
    change (2 =? 0) with false. change (2 =? 1) with false.
    change (2 =? 2) with true. cbn iota.
    rewrite (Hrel 2 _ _ (Hend Hlt)) by (reflexivity || lia).
    apply Hmoved; [reflexivity | zlia].
  - intros Hneg.
    change (2 =? 0) with false. change (2 =? 1) with false.
    change (2 =? 2) with true. cbn iota.
    rewrite (Hrel 2 _ _ (Hend Hlt)) by (reflexivity || lia).
    set (r0 := mkBytesReader (rdata r) (Z.to_N (len (rdata r)))).
    apply Seek_finish_negative; [exact Hd | fold interval; zlia | zlia].
Qed.

Lemma Seek_relative_in_first_block_witness :
  Reader.Seek (mkBytesReader (repeat x00 20) 3) (Reader.mk Live 8 3 []) 2 1
  = Reader.Seek (mkBytesReader (repeat x00 20) 3) (Reader.mk Live 8 3 [])
      (3 + 2) 0.
Proof.
  destruct (@Seek_relative_in_first_block (mkBytesReader (repeat x00 20) 3)
              (Reader.mk Live 8 3 []) 2) as [Hcur _];
    [reflexivity | cbn; lia | lia |].
  apply Hcur. cbn. lia.
Defined.

(** ** Read and Verify at the edges *)

(** X6.  A [Read] on an open reader over an in-memory source, with the
    digest buffer of four bytes that the constructor gives it, returns,
    never panicking, a count of at most the length of the buffer and at
    most the bytes left of the current block; the buffer keeps its length,
    the bytes of the source are untouched, the digest buffer keeps its
    four bytes and the error is nil or [io.EOF]. *)
Theorem Read_stays_in_block (r : bytesReader)
    (cri : Reader.checksummedReaderImpl) (v : list byte) :
  Reader.delegate cri = Live ->
  len (Reader.checksum cri) = 4 ->
  0 <= Reader.checksumOffset cri < Reader.checksumInterval cri ->
  len (rdata r) < 2 ^ 63 -> Z.of_N (rpos r) <= len (rdata r) ->
  exists r' cri' v' n err,
    Reader.Read r cri v = Ret (r', cri', v', n, err) /\
    n <= len v /\
    n <= Reader.checksumInterval cri - Reader.checksumOffset cri /\
    len v' = len v /\ rdata r' = rdata r /\
    len (Reader.checksum cri') = 4 /\
    (err = None \/ err = Some EOF).
Proof.
  intros Hd Hsum Ho Hl Hp.
  replace cri with (Reader.mk Live (Reader.checksumInterval cri)
                      (Reader.checksumOffset cri) (Reader.checksum cri))
    by (destruct cri; cbn in *; subst; reflexivity).
  cbn [Reader.checksumInterval Reader.checksumOffset].
  set (interval := Reader.checksumInterval cri) in *.
  set (off := Reader.checksumOffset cri) in *.
  pose proof (@Read_mem r interval off (Reader.checksum cri) v Ho Hsum Hl Hp)
    as HR.
  cbv zeta in HR. rewrite HR. clear HR.
  pose proof (len_nonneg v) as Hv.
  set (bs := slice_to (ahead r) (Z.min (len v) (interval - off))).
  pose proof (len_slice_to (ahead r) (Z.min (len v) (interval - off))) as Hbs.
  fold bs in Hbs. pose proof (len_nonneg (ahead r)) as Ha.
  set (cs := slice_to (ahead (advance r bs)) 4).
  pose proof (len_slice_to (ahead (advance r bs)) 4) as Hcs. fold cs in Hcs.
  pose proof (len_nonneg (ahead (advance r bs))).
  assert (Hfill : len (fill v bs) = len v) by (apply len_fill; lia).
  assert (Hkeep : len (fill (Reader.checksum cri) cs) = 4)
    by (rewrite len_fill; lia).
  destruct (ahead r) as [|x a] eqn:Ea.
  - do 5 eexists. split; [reflexivity|]. cbn [Reader.checksum].
    repeat split; try lia. now right.
  - destruct (len cs <? 4);
      [|destruct (off + len bs =? interval)];
      do 5 eexists; (split; [reflexivity|]); cbn [Reader.checksum];
      repeat split; try lia; now left.
Qed.

Lemma Read_stays_in_block_witness :
  exists r' cri' v' n err,
    Reader.Read (mkBytesReader (repeat x07 20) 0)
      (Reader.newChecksummedReaderImpl 4) (repeat x00 9)
    = Ret (r', cri', v', n, err) /\
    n <= 9 /\ n <= 4 - 0.
Proof.
  destruct (@Read_stays_in_block (mkBytesReader (repeat x07 20) 0)
              (Reader.newChecksummedReaderImpl 4) (repeat x00 9))
    as (r' & cri' & v' & n & err & HR & H1 & H2 & _);
    [reflexivity | reflexivity | cbn; lia | cbn; lia | cbn; lia |].
  exists r', cri', v', n, err. auto.
Defined.

(** X7.  At or past the end of the source, [Read] returns [(0, io.EOF)] and
    leaves the buffer, the source and the reader as they were. *)
Theorem Read_at_end_is_EOF (r : bytesReader)
    (cri : Reader.checksummedReaderImpl) (v : list byte) :
  Reader.delegate cri = Live ->
  0 <= Reader.checksumOffset cri <= Reader.checksumInterval cri ->
  len (rdata r) <= Z.of_N (rpos r) ->
  Reader.Read r cri v = Ret (r, cri, v, 0, Some EOF).
Proof.
  intros Hd Ho Hend. unfold Reader.Read. rewrite Hd.
  assert (Hvlen : exists vlen,
            (if Reader.checksumInterval cri
                <? Reader.checksumOffset cri + len v
             then if Reader.checksumInterval cri - Reader.checksumOffset cri <? 0
                  then Panic SliceBounds
                  else Ret (Reader.checksumInterval cri
                            - Reader.checksumOffset cri)
             else Ret (len v)) = Ret vlen).
  { destruct (_ <? _ + _); [zbool|]; eauto. }
  destruct Hvlen as [vlen ->].
  cbn [bind iface_Read rsRead bytesReader_ReadSeeker].
  rewrite bytesReader_Read_eq. zbool.
  cbn [is_err]. destruct (error_eq_dec EOF EOF); [|congruence].
  unfold fill. cbn. rewrite Z.add_0_r.
  destruct cri; cbn in *; subst; reflexivity.
Qed.

Lemma Read_at_end_is_EOF_witness :
  Reader.Read (mkBytesReader [x01; x02] 5) (Reader.mk Live 4 1 []) [x09; x09]
  = Ret (mkBytesReader [x01; x02] 5, Reader.mk Live 4 1 [], [x09; x09], 0,
         Some EOF).
Proof.
  apply (@Read_at_end_is_EOF (mkBytesReader [x01; x02] 5)
           (Reader.mk Live 4 1 []) [x09; x09]); cbn; try reflexivity; lia.
Defined.

(** X8.  With the cursor at a block start at or past the end of the
    source, and an interval below 2^31, so that the block buffer is
    allocated, [Verify] gives no verdict: it returns [(false, io.EOF)] and
    leaves the source and the reader as they were. *)
Theorem Verify_at_end_is_EOF {H32 : Hash32} (r : bytesReader)
    (cri : Reader.checksummedReaderImpl) :
  Reader.delegate cri = Live ->
  Reader.checksumOffset cri = 0 ->
  0 <= Reader.checksumInterval cri < 2 ^ 31 ->
  len (rdata r) <= Z.of_N (rpos r) < 2 ^ 63 ->
  Reader.Verify r cri = Ret (r, cri, false, Some EOF).
Proof.
  intros Hd Ho Hi Hend. unfold Reader.Verify. rewrite Hd, Ho.
  cbn [iface_Seek rsSeek bytesReader_ReadSeeker].
  rewrite bytesReader_Seek_cur by lia.
  assert (Hmax : Reader.checksumInterval cri + 4 <= maxAlloc)
    by (unfold maxAlloc; zlia).
  unfold make_bytes. zbool. cbn [orb bind].
  rewrite ReadFull_mem. cbn [bind].
  assert (Ha : ahead r = []) by (apply ahead_nil; lia).
  rewrite Ha. unfold slice_to. rewrite firstn_nil, advance_nil.
  unfold readFull_err. rewrite len_nil. zbool. reflexivity.
Qed.

Lemma Verify_at_end_is_EOF_witness :
  @Reader.Verify _ _ fnv32a (mkBytesReader [] 0)
    (Reader.newChecksummedReaderImpl 4)
  = Ret (mkBytesReader [] 0, Reader.newChecksummedReaderImpl 4, false,
         Some EOF).
Proof.
  apply (@Verify_at_end_is_EOF fnv32a (mkBytesReader [] 0)
           (Reader.newChecksummedReaderImpl 4)); cbn; try reflexivity; lia.
Defined.

(** ** Seeking into a written stream *)

Lemma slice_from_slice_from {A : Type} (a : list A) (i j : Z) :
  0 <= i -> 0 <= j -> slice_from (slice_from a i) j = slice_from a (i + j).
Proof.
  intros Hi Hj. unfold slice_from. rewrite skipn_skipn. f_equal. lia.
Qed.

(** The bytes of a layout from the physical offset of the logical offset
    [L] on are a tail layout of the content from [L] on. *)
Lemma layout_tail_at {H32 : Hash32} (interval : Z) (c : list byte) (L : Z) :
  1 <= interval -> 0 <= L <= len c ->
  tail_layout interval (L mod interval)
    (slice_from (layout interval c) (L + 4 * (L / interval)))
    (slice_from c L).
Proof.
  intros Hi HL.
  set (k := L / interval). set (j := L mod interval).
  pose proof (Z.div_pos L interval) as Hk. fold k in Hk.
  pose proof (Z.div_mod L interval) as Hdm. fold k j in Hdm.
  pose proof (Z.mod_pos_bound L interval) as Hj. fold j in Hj.
  set (c1 := slice_to c (k * interval)).
  set (c2 := slice_from c (k * interval)).
  assert (Hc1 : len c1 = Z.of_nat (Z.to_nat k) * interval).
  { unfold c1. rewrite len_slice_to. rewrite Z2Nat.id by lia. nia. }
  assert (Hc2 : len c2 = len c - k * interval).
  { unfold c2. rewrite len_slice_from. nia. }
  assert (Hlay : layout interval c = layout interval c1 ++ layout interval c2).
  { rewrite <- (slice_to_from c (k * interval)) at 1. fold c1 c2.
    apply (@layout_app_full _ _ Hi _ _ c2 Hc1). }
  assert (Hpre : len (layout interval c1) = k * (interval + 4)).
  { rewrite (@len_layout_full _ _ Hi _ _ Hc1). rewrite Z2Nat.id by lia.
    reflexivity. }
  assert (Hcont : slice_from c L = slice_from c2 j).
  { unfold c2. rewrite slice_from_slice_from by nia. f_equal. nia. }
  rewrite Hlay, Hcont.
  rewrite slice_from_app_ge by nia.
  replace (L + 4 * k - len (layout interval c1)) with j by nia.
  destruct c2 as [|x c2'] eqn:Ec2.
  - (* the content ends at this block boundary *)
    rewrite len_nil in Hc2. assert (j = 0) by nia.
    rewrite layout_nil. unfold slice_from. rewrite !skipn_nil.
    apply TL_eof. lia.
  - rewrite <- Ec2 in *. assert (Hne : c2 <> []) by (rewrite Ec2; discriminate).
    clear Ec2.
    rewrite (layout_eq Hi Hne).
    set (blk := slice_to c2 interval).
    assert (Hblk : len blk = Z.min interval (len c2)).
    { unfold blk. rewrite len_slice_to. lia. }
    assert (Hjb : j <= len blk) by nia.
    rewrite slice_from_app_le by lia.
    assert (Hsplit : slice_from c2 j = slice_from blk j ++ slice_from c2 interval).
    { rewrite <- (slice_to_from c2 interval) at 1. fold blk.
      now apply slice_from_app_le. }
    rewrite Hsplit.
    destruct (Z_le_gt_dec interval (len c2)) as [Hfull | Hshort].
    + apply TL_full.
      * lia.
      * rewrite len_slice_from. lia.
      * reflexivity.
      * now apply layout_tail.
    + rewrite (@slice_from_all _ c2 interval) by lia.
      rewrite layout_nil, !app_nil_r.
      apply TL_partial.
      * lia.
      * rewrite len_slice_from. lia.
      * reflexivity.
Qed.

(** X2.  Seek consistency: on the stream the writer leaves for a content,
    an absolute [Seek] to any logical offset [L] up to the length of the
    content, followed by reading to the end, gives the content from [L]
    on, and then [io.EOF]. *)
Theorem seek_then_read {H32 : Hash32} (interval : Z) (vs : list (list byte))
    (L : Z) (v : list byte) (fuel : nat) :
  1 <= interval < 2 ^ 62 ->
  1 <= len v ->
  len (List.concat vs) < 2 ^ 57 ->
  0 <= L <= len (List.concat vs) ->
  (List.length (List.concat vs) + 1 < fuel)%nat ->
  exists w cwi r cri lo r' cri',
    writeAllClose (mkBytesBuffer [])
      (Writer.newChecksummedWriterImpl interval) vs = Ret (w, cwi, None) /\
    Reader.Seek (mkBytesReader (wdata w) 0)
      (Reader.newChecksummedReaderImpl interval) L 0
    = Ret (r, cri, lo, None) /\
    readAll fuel r cri v
    = Ret (r', cri', slice_from (List.concat vs) L, Some EOF).
Proof.
  intros Hi Hv Hc HL Hf.
  set (c := List.concat vs) in *.
  assert (Hi1 : 1 <= interval) by lia.
  destruct (@writeAll_mem _ _ Hi1 vs [] _ (@writer_holds_new interval))
    as (cwi & Hrun & Hw).
  destruct (Close_mem Hi1 Hw) as (cwi' & Hclose).
  cbn [app] in *. fold c in Hrun, Hclose.
  change (sofar interval []) with (@nil byte) in Hrun.
  pose proof (len_layout Hi1 c) as Hlen.
  pose proof (len_nonneg c) as Hc0.
  assert (Hceil : (len c + interval - 1) / interval <= len c).
  { destruct (Z_le_gt_dec (len c) 0).
    - assert (Hz : len c = 0) by lia. rewrite Hz.
      rewrite Z.div_small; lia.
    - apply Z.lt_succ_r. apply Z.div_lt_upper_bound; nia. }
  pose proof (Z.div_pos L interval) as Hk.
  assert (Hkb : L / interval <= L).
  { destruct (quot_bounds L Hi1) as [Hb _].
    rewrite <- Z.quot_div_nonneg by lia. lia. }
  destruct (@Seek_finish_mem (mkBytesReader (layout interval c) 0)
              (Reader.newChecksummedReaderImpl interval) L)
    as [lo Hseek]; [reflexivity | exact Hi | zlia |].
  replace (L <? 0) with false in Hseek by (symmetry; apply Z.ltb_ge; lia).
  cbn [rdata Reader.checksumInterval Reader.newChecksummedReaderImpl
       Reader.checksum] in Hseek.
  rewrite Z.quot_div_nonneg in Hseek by lia.
  set (r := mkBytesReader (layout interval c)
              (Z.to_N (L + 4 * (L / interval)))) in *.
  assert (Hle : L + 4 * (L / interval) <= len (layout interval c)).
  { rewrite Hlen.
    assert (L / interval <= (len c + interval - 1) / interval).
    { apply Z.div_le_mono; lia. }
    destruct (Z_lt_ge_dec L (len c)).
    - lia.
    - assert (L = len c) by lia. subst L.
      assert (len c / interval * interval <= len c)
        by (pose proof (Z.mul_div_le (len c) interval); lia).
      lia. }
  destruct (@readAll_tail interval fuel r (L mod interval) (repeat x00 4) v
              (slice_from c L)) as (r' & cri' & Hread).
  - exact Hv.
  - reflexivity.
  - cbn [r rdata]. zlia.
  - cbn [r rdata rpos]. lia.
  - unfold ahead. cbn [r rdata rpos]. rewrite Z_N_nat.
    fold (slice_from (layout interval c) (L + 4 * (L / interval))).
    now apply layout_tail_at.
  - assert (Hs : (List.length (slice_from c L) <= List.length c)%nat).
    { unfold slice_from. rewrite length_skipn. lia. }
    destruct (ahead r); lia.
  - exists (mkBytesBuffer (layout interval c)), cwi', r,
      (Reader.mk Live interval (L mod interval) (repeat x00 4)), lo, r', cri'.
    split; [unfold writeAllClose; rewrite Hrun; cbn [bind]; now rewrite Hclose|].
    split; [|exact Hread].
    unfold Reader.Seek. cbn [Z.eqb wdata]. exact Hseek.
Qed.

Lemma seek_then_read_witness :
  exists w cwi r cri lo r' cri',
    @writeAllClose fnv32a _ _ (mkBytesBuffer [])
      (Writer.newChecksummedWriterImpl 2) [[x61]; [x62; x63]; [x64; x65]]
    = Ret (w, cwi, None) /\
    Reader.Seek (mkBytesReader (wdata w) 0)
      (Reader.newChecksummedReaderImpl 2) 3 0
    = Ret (r, cri, lo, None) /\
    readAll 7 r cri [x00; x00; x00] = Ret (r', cri', [x64; x65], Some EOF).
Proof.
  apply (@seek_then_read fnv32a 2 [[x61]; [x62; x63]; [x64; x65]] 3
           [x00; x00; x00] 7); cbn; lia.
Defined.

(** ** Writing in pieces *)

Lemma len_sofar {H32 : Hash32} (interval : Z) (c : list byte) :
  1 <= interval ->
  len (sofar interval c) = len c + 4 * (len c / interval).
Proof.
  intros Hi. unfold sofar.
  rewrite len_app, (@len_layout_full _ _ Hi _ _ (full_part_blocks Hi c)).
  rewrite (len_pending_part Hi c).
  pose proof (len_nonneg c). pose proof (Z.div_pos (len c) interval).
  rewrite Z2Nat.id by lia.
  pose proof (Z.div_mod (len c) interval). nia.
Qed.

(** X9.  How the content is cut into [Write] calls does not matter: the
    chunks written in turn and their concatenation written at once leave
    the same bytes in the sink and the same block offset and hash state in
    the writer. *)
Theorem chunking_does_not_matter {H32 : Hash32} (interval : Z)
    (vs : list (list byte)) :
  1 <= interval ->
  exists b cwi1 cwi2,
    writeAll (mkBytesBuffer []) (Writer.newChecksummedWriterImpl interval) vs
    = Ret (b, cwi1, None) /\
    writeAll (mkBytesBuffer []) (Writer.newChecksummedWriterImpl interval)
      [List.concat vs]
    = Ret (b, cwi2, None) /\
    Writer.checksumOffset cwi1 = Writer.checksumOffset cwi2 /\
    Writer.hash cwi1 = Writer.hash cwi2.
Proof.
  intros Hi.
  destruct (@writeAll_mem _ _ Hi vs [] _ (@writer_holds_new interval))
    as (cwi1 & Hrun1 & Hw1).
  destruct (@writeAll_mem _ _ Hi [List.concat vs] [] _
              (@writer_holds_new interval))
    as (cwi2 & Hrun2 & Hw2).
  cbn [List.concat app] in *. rewrite app_nil_r in *.
  change (sofar interval []) with (@nil byte) in *.
  exists (mkBytesBuffer (sofar interval (List.concat vs))), cwi1, cwi2.
  destruct Hw1 as (_ & _ & Ho1 & Hh1). destruct Hw2 as (_ & _ & Ho2 & Hh2).
  split; [exact Hrun1|]. split; [exact Hrun2|].
  split; congruence.
Qed.

Lemma chunking_does_not_matter_witness :
  exists b cwi1 cwi2,
    @writeAll fnv32a _ _ (mkBytesBuffer []) (Writer.newChecksummedWriterImpl 2)
      [[x61]; [x62; x63]]
    = Ret (b, cwi1, None) /\
    @writeAll fnv32a _ _ (mkBytesBuffer []) (Writer.newChecksummedWriterImpl 2)
      [[x61; x62; x63]]
    = Ret (b, cwi2, None) /\
    Writer.checksumOffset cwi1 = Writer.checksumOffset cwi2.
Proof.
  destruct (@chunking_does_not_matter fnv32a 2 [[x61]; [x62; x63]])
    as (b & cwi1 & cwi2 & H1 & H2 & H3 & _); [lia|].
  exists b, cwi1, cwi2. auto.
Defined.

(** X10.  After any writes, a further [Write] of [v] to an in-memory sink
    reports [len(v)] bytes and no error, although the sink grows by
    [len(v)] and four bytes for each block the call completes; the block
    offset becomes the length of the content modulo the interval. *)
Theorem Write_reports_content_bytes {H32 : Hash32} (interval : Z)
    (vs : list (list byte)) (v : list byte) :
  1 <= interval ->
  let C := len (List.concat vs) in
  exists b cwi b' cwi',
    writeAll (mkBytesBuffer []) (Writer.newChecksummedWriterImpl interval) vs
    = Ret (b, cwi, None) /\
    Writer.Write (S (List.length v)) b cwi v = Ret (b', cwi', len v, None) /\
    len (wdata b')
    = len (wdata b) + len v
      + 4 * ((C + len v) / interval - C / interval) /\
    Writer.checksumOffset cwi' = (C + len v) mod interval.
Proof.
  intros Hi C.
  destruct (@writeAll_mem _ _ Hi vs [] _ (@writer_holds_new interval))
    as (cwi & Hrun & Hw).
  cbn [app] in *. change (sofar interval []) with (@nil byte) in Hrun.
  destruct (@Write_from_mem _ _ Hi (S (List.length v)) (List.concat vs) v cwi 0
              Hw) as (cwi' & Hwrite & Hw'); [lia|].
  exists (mkBytesBuffer (sofar interval (List.concat vs))), cwi,
    (mkBytesBuffer (sofar interval (List.concat vs ++ v))), cwi'.
  split; [exact Hrun|]. split; [exact Hwrite|].
  cbn [wdata]. rewrite !len_sofar by exact Hi. rewrite len_app.
  destruct Hw' as (_ & _ & Ho & _). rewrite Ho, len_app.
  split; [fold C; lia | reflexivity].
Qed.

Lemma Write_reports_content_bytes_witness :
  exists b cwi b' cwi',
    @writeAll fnv32a _ _ (mkBytesBuffer []) (Writer.newChecksummedWriterImpl 2)
      [[x61]]
    = Ret (b, cwi, None) /\
    @Writer.Write _ _ fnv32a 4 b cwi [x62; x63; x64]
    = Ret (b', cwi', 3, None) /\
    len (wdata b') = len (wdata b) + 3 + 4 * 2.
Proof.
  destruct (@Write_reports_content_bytes fnv32a 2 [[x61]] [x62; x63; x64])
    as (b & cwi & b' & cwi' & H1 & H2 & H3 & _); [lia|].
  exists b, cwi, b', cwi'. auto.
Defined.

(** ** A writer on NullIO *)

Lemma Write_from_NullIO {H32 : Hash32} (fuel : nat)
    (cwi : Writer.checksummedWriterImpl) (v : list byte) (n : Z) :
  Writer.delegate cwi = Live ->
  0 <= Writer.checksumOffset cwi < Writer.checksumInterval cwi ->
  (List.length v < fuel)%nat ->
  exists cwi',
    Writer.Write_from fuel mkNullIO cwi v n
    = Ret (mkNullIO, cwi', n + len v, None) /\
    Writer.delegate cwi' = Live /\
    Writer.checksumInterval cwi' = Writer.checksumInterval cwi /\
    0 <= Writer.checksumOffset cwi' < Writer.checksumInterval cwi.
Proof.
  revert cwi v n.
  induction fuel as [|fuel IH]; intros cwi v n Hd Ho Hf; [lia|].
  pose proof (len_nonneg v) as Hv.
  cbn [Writer.Write_from]. rewrite Hd.
  destruct (Writer.checksumInterval cwi <=? Writer.checksumOffset cwi + len v)
    eqn:E.
  - apply Z.leb_le in E. zbool.
    cbn [iface_Write wWrite NullIO_Writer NullIO_Write].
    set (k := Writer.checksumInterval cwi - Writer.checksumOffset cwi).
    destruct (IH (Writer.mk Live (Writer.checksumInterval cwi) 0 newHash
                    (PutUint32 (hash_Sum32 (hash_Write (Writer.hash cwi)
                                              (slice_to v k)))))
                (slice_from v k) (n + len (slice_to v k)))
      as (cwi' & Hrun & Hd' & Hi' & Ho');
      [ reflexivity | cbn; lia
      | unfold slice_from, len in *; rewrite length_skipn; lia |].
    exists cwi'. rewrite Hrun. cbn in Hi', Ho'. repeat split; try lia; try assumption.
    do 3 f_equal. rewrite len_slice_to, len_slice_from. lia.
  - apply Z.leb_gt in E. destruct (0 <? len v) eqn:Ev.
    + cbn [iface_Write wWrite NullIO_Writer NullIO_Write].
      eexists. split; [reflexivity|]. cbn. repeat split; lia.
    + apply Z.ltb_ge in Ev. exists cwi.
      replace (len v) with 0 by lia. rewrite Z.add_0_r.
      repeat split; try lia; assumption.
Qed.

(** X11.  A writer on [NullIO] never fails: [Write] reports [len(v)]
    bytes and a nil error and stays open, and [Close] returns nil. *)
Theorem NullIO_writer_never_fails {H32 : Hash32}
    (cwi : Writer.checksummedWriterImpl) (v : list byte) :
  Writer.delegate cwi = Live ->
  0 <= Writer.checksumOffset cwi < Writer.checksumInterval cwi ->
  exists cwi' cwi'',
    Writer.Write (S (List.length v)) mkNullIO cwi v
    = Ret (mkNullIO, cwi', len v, None) /\
    Writer.delegate cwi' = Live /\
    Writer.Close mkNullIO cwi' = (mkNullIO, cwi'', None) /\
    Writer.delegate cwi'' = errDelegate.
Proof.
  intros Hd Ho.
  destruct (@Write_from_NullIO _ (S (List.length v)) cwi v 0 Hd Ho)
    as (cwi' & Hrun & Hd' & _ & _); [lia|].
  exists cwi'. unfold Writer.Write. rewrite Hrun. cbn [Z.add].
  unfold Writer.Close. rewrite Hd'.
  destruct (0 <? Writer.checksumOffset cwi');
    cbn [iface_Write iface_wClose wWrite wClose NullIO_Writer NullIO_Write
         NullIO_Close];
    eexists; repeat split.
Qed.

Lemma NullIO_writer_never_fails_witness :
  exists cwi' cwi'',
    @Writer.Write _ _ fnv32a 4 mkNullIO (Writer.newChecksummedWriterImpl 2)
      [x61; x62; x63]
    = Ret (mkNullIO, cwi', 3, None) /\
    Writer.delegate cwi' = Live /\
    @Writer.Close _ _ fnv32a mkNullIO cwi' = (mkNullIO, cwi'', None).
Proof.
  destruct (@NullIO_writer_never_fails fnv32a
              (Writer.newChecksummedWriterImpl 2) [x61; x62; x63])
    as (cwi' & cwi'' & H1 & H2 & H3 & _); [reflexivity | cbn; lia |].
  exists cwi', cwi''. auto.
Defined.


(** * NextHighestPowerOfTwo *)

Lemma smeared_start (x : Z) : smeared 1 x x.
Proof.
  intros i Hi. split.
  - intros Hb. exists 0. rewrite Z.add_0_r. split; [lia | exact Hb].
  - intros (j & Hj & Hb). replace (i + j) with i in Hb by lia. exact Hb.
Qed.

Lemma smeared_step (w y x : Z) :
  0 < w -> smeared w y x -> smeared (2 * w) (Z.lor y (Z.shiftr y w)) x.
Proof.
  intros Hw Hy i Hi.
  rewrite Z.lor_spec, Z.shiftr_spec by lia. rewrite orb_true_iff.
  rewrite (Hy i Hi), (Hy (i + w)) by lia. split.
  - intros [(j & Hj & Hb) | (j & Hj & Hb)].
    + exists j. split; [lia | exact Hb].
    + exists (w + j). split; [lia|]. now replace (i + (w + j)) with (i + w + j) by lia.
  - intros (j & Hj & Hb). destruct (Z_lt_ge_dec j w).
    + left. exists j. split; [lia | exact Hb].
    + right. exists (j - w). split; [lia|].
      now replace (i + w + (j - w)) with (i + j) by lia.
Qed.

(** The six shifts set every bit below the highest bit of [x]. *)
Lemma smeared_ones (y x : Z) :
  0 < x < 2 ^ 64 -> smeared 64 y x -> y = Z.ones (Z.log2 x + 1).
Proof.
  intros Hx Hy.
  pose proof (Z.log2_nonneg x) as Hl0.
  assert (Hl : Z.log2 x < 64) by (apply Z.log2_lt_pow2; lia).
  apply Z.bits_inj'. intros i Hi.
  destruct (Z_lt_ge_dec i (Z.log2 x + 1)) as [Hlow | Hhigh].
  - rewrite Z.ones_spec_low by lia.
    apply (Hy i Hi). exists (Z.log2 x - i). split; [lia|].
    replace (i + (Z.log2 x - i)) with (Z.log2 x) by lia.
    apply Z.bit_log2. lia.
  - rewrite Z.ones_spec_high by lia.
    destruct (Z.testbit y i) eqn:E; [|reflexivity].
    apply (Hy i Hi) in E. destruct E as (j & Hj & Hb).
    rewrite Z.bits_above_log2 in Hb by lia. discriminate.
Qed.

Lemma smear_spec (x : Z) :
  smeared 64
    (let v := x in
     let v := Z.lor v (Z.shiftr v 1) in
     let v := Z.lor v (Z.shiftr v 2) in
     let v := Z.lor v (Z.shiftr v 4) in
     let v := Z.lor v (Z.shiftr v 8) in
     let v := Z.lor v (Z.shiftr v 16) in
     Z.lor v (Z.shiftr v 32)) x.
Proof.
  cbv zeta.
  apply (@smeared_step 32); [lia|]. apply (@smeared_step 16); [lia|].
  apply (@smeared_step 8); [lia|]. apply (@smeared_step 4); [lia|].
  apply (@smeared_step 2); [lia|]. apply (@smeared_step 1); [lia|].
  apply smeared_start.
Qed.

Lemma NextHighestPowerOfTwo_above_one (v : Z) :
  2 <= v <= 2 ^ 64 ->
  NextHighestPowerOfTwo v = uint64 (2 ^ Z.log2_up v).
Proof.
  intros Hv. unfold NextHighestPowerOfTwo.
  assert (Hx : uint64 (v - 1) = v - 1) by (unfold uint64; apply Z.mod_small; lia).
  rewrite Hx.
  pose proof (smear_spec (v - 1)) as Hs. cbv zeta in Hs.
  apply smeared_ones in Hs; [|lia]. cbv zeta. rewrite Hs.
  rewrite Z.ones_equiv.
  assert (Hup : Z.log2_up v = Z.log2 (v - 1) + 1).
  { unfold Z.log2_up. destruct (1 ?= v) eqn:E.
    - apply Z.compare_eq in E. lia.
    - rewrite <- Z.sub_1_r. lia.
    - apply Z.compare_gt_iff in E. lia. }
  rewrite Hup. f_equal. lia.
Qed.

(** X12.  For [1 <= v <= 2^63], [NextHighestPowerOfTwo v] is the power of
    two [2 ^ log2_up v]: it is at least [v], less than [2 * v], and [v]
    itself when [v] is a power of two. *)
Theorem NextHighestPowerOfTwo_spec (v : Z) :
  1 <= v <= 2 ^ 63 ->
  NextHighestPowerOfTwo v = 2 ^ Z.log2_up v /\
  v <= NextHighestPowerOfTwo v < 2 * v /\
  (forall k, 0 <= k -> v = 2 ^ k -> NextHighestPowerOfTwo v = v).
Proof.
  intros Hv.
  assert (Hval : NextHighestPowerOfTwo v = 2 ^ Z.log2_up v).
  { destruct (Z.eq_dec v 1) as [-> | Hne]; [reflexivity|].
    rewrite NextHighestPowerOfTwo_above_one by zlia.
    unfold uint64. apply Z.mod_small.
    pose proof (Z.log2_up_nonneg v).
    assert (Z.log2_up v <= 63).
    { change 63 with (Z.log2_up (2 ^ 63)). apply Z.log2_up_le_mono. lia. }
    split; [apply Z.pow_nonneg; lia|].
    apply Z.pow_lt_mono_r; lia. }
  split; [exact Hval|]. split.
  - rewrite Hval. destruct (Z.eq_dec v 1) as [-> | Hne]; [cbn; lia|].
    pose proof (Z.log2_up_spec v) as Hs.
    assert (H1 : 1 < v) by lia. specialize (Hs H1).
    pose proof (Z.log2_up_pos v H1).
    replace (Z.log2_up v) with (Z.succ (Z.pred (Z.log2_up v))) at 2 by lia.
    rewrite Z.pow_succ_r by lia. lia.
  - intros k Hk ->. rewrite Hval. now rewrite Z.log2_up_pow2.
Qed.

Lemma NextHighestPowerOfTwo_spec_witness :
  NextHighestPowerOfTwo 1000 = 2 ^ Z.log2_up 1000 /\
  1000 <= NextHighestPowerOfTwo 1000 < 2 * 1000.
Proof.
  destruct (@NextHighestPowerOfTwo_spec 1000) as (H1 & H2 & _); [zlia|].
  split; assumption.
Defined.

(** X13.  Outside that range the result is 0: for 0, where [v--] wraps
    around, and for every [v] above 2^63, where [v++] does. *)
Theorem NextHighestPowerOfTwo_wraps (v : Z) :
  v = 0 \/ 2 ^ 63 < v < 2 ^ 64 ->
  NextHighestPowerOfTwo v = 0.
Proof.
  intros [-> | Hv]; [reflexivity|].
  rewrite NextHighestPowerOfTwo_above_one by zlia.
  assert (Hup : Z.log2_up v = 64).
  { apply Z.log2_up_unique; zlia. }
  rewrite Hup. reflexivity.
Qed.

Lemma NextHighestPowerOfTwo_wraps_witness :
  NextHighestPowerOfTwo (2 ^ 63 + 1) = 0.
Proof.
  apply NextHighestPowerOfTwo_wraps. right. zlia.
Defined.


(** * Scrambled *)

Lemma length_low_bytes (k : nat) (v : Z) : List.length (low_bytes k v) = k.
Proof.
  revert v. induction k as [|k IH]; intros v; [reflexivity|].
  cbn [low_bytes]. rewrite length_app, IH. cbn. lia.
Qed.

Lemma store_last (a b : list byte) (x y : byte) :
  store ((a ++ [x]) ++ b) (len (a ++ [x]) - 1) y = Filled (a ++ y :: b).
Proof.
  pose proof (len_nonneg a). pose proof (len_nonneg b).
  assert (Hl : len ((a ++ [x]) ++ b) = len a + 1 + len b).
  { unfold len. rewrite !length_app. cbn [List.length]. lia. }
  assert (Hi : len (a ++ [x]) - 1 = len a).
  { unfold len. rewrite !length_app. cbn [List.length]. lia. }
  unfold store. rewrite Hi, Hl. zbool. cbn [andb].
  rewrite <- app_assoc. cbn [app].
  rewrite (@slice_to_app_exact _ a (x :: b) (len a) eq_refl).
  replace (a ++ x :: b) with ((a ++ [x]) ++ b) by (now rewrite <- app_assoc).
  rewrite (@slice_from_app_exact _ (a ++ [x]) b (len a + 1));
    [reflexivity | lia].
Qed.

Lemma exists_last_or_nil {A : Type} (a : list A) :
  a = [] \/ exists a' x, a = a' ++ [x].
Proof.
  destruct a as [|y a]; [now left|]. right.
  destruct (@exists_last _ (y :: a)) as (a' & x & E); [discriminate|].
  eauto.
Qed.

Section ScrambledFacts.

Context {Src : Type} `{Source Src}.

(** The inner loop takes the low bytes of [v] down from index [i]. *)
Lemma Scrambled_fill_spec (turns : nat) (a b : list byte) (v : Z) :
  let m := Nat.min turns (List.length a) in
  Scrambled_fill turns (a ++ b) (len a - 1) v
  = Filled (firstn (List.length a - m) a ++ low_bytes m v ++ b,
            len a - 1 - Z.of_nat m).
Proof.
  revert a b v. induction turns as [|turns IH]; intros a b v m.
  - subst m. cbn [Nat.min Scrambled_fill low_bytes app].
    rewrite Nat.sub_0_r, firstn_all, Z.sub_0_r. reflexivity.
  - cbn [Scrambled_fill].
    destruct (exists_last_or_nil a) as [-> | (a' & x & ->)].
    + subst m. cbn. reflexivity.
    + pose proof (len_nonneg a') as Ha.
      assert (Hla : len (a' ++ [x]) = len a' + 1)
        by (rewrite len_app, len_cons, len_nil; lia).
      replace (0 <=? len (a' ++ [x]) - 1) with true
        by (symmetry; apply Z.leb_le; lia).
      rewrite store_last.
      replace (len (a' ++ [x]) - 1 - 1) with (len a' - 1) by lia.
      rewrite (IH a' (byte_of_Z v :: b) (Z.shiftr v 8)).
      assert (Hm : m = S (Nat.min turns (List.length a'))).
      { subst m. rewrite length_app. cbn [List.length]. lia. }
      rewrite Hm. cbn [low_bytes]. rewrite length_app. cbn [List.length].
      replace (List.length a' + 1 - S (Nat.min turns (List.length a')))%nat
        with (List.length a' - Nat.min turns (List.length a'))%nat by lia.
      rewrite firstn_app.
      replace (List.length a' - Nat.min turns (List.length a')
               - List.length a')%nat with 0%nat by lia.
      cbn [firstn]. rewrite app_nil_r, <- !app_assoc. cbn [app].
      do 2 f_equal. lia.
Qed.

(** The whole of [Read] on the part [a] of the buffer still to be filled. *)
Lemma Scrambled_loop_spec (fuel : nat) (s : Src) (a b : list byte) :
  (List.length a <= 8 * fuel)%nat ->
  Scrambled_loop fuel s (a ++ b) (len a - 1)
  = Filled (drawn ((List.length a + 7) / 8) s,
            scrambled_bytes fuel s (List.length a) ++ b).
Proof.
  revert s a b. induction fuel as [|fuel IH]; intros s a b Hf.
  - destruct a; [|cbn in Hf; lia]. reflexivity.
  - destruct a as [|x a'] eqn:Ea; [reflexivity|]. rewrite <- Ea in *.
    assert (Hn : (0 < List.length a)%nat) by (rewrite Ea; cbn; lia).
    cbn [Scrambled_loop].
    replace (0 <=? len a - 1) with true
      by (symmetry; apply Z.leb_le; unfold len; lia).
    destruct (Int63 s) as [v s'] eqn:Ei.
    rewrite Scrambled_fill_spec. cbv zeta.
    set (m := Nat.min 8 (List.length a)).
    set (a1 := firstn (List.length a - m) a).
    assert (Hl1 : List.length a1 = (List.length a - m)%nat).
    { unfold a1. rewrite length_firstn. lia. }
    replace (len a - 1 - Z.of_nat m) with (len a1 - 1)
      by (unfold len; rewrite Hl1; lia).
    rewrite IH by (rewrite Hl1; lia).
    rewrite Hl1.
    assert (Hk : ((List.length a + 7) / 8
                  = S ((List.length a - m + 7) / 8))%nat).
    { unfold m. destruct (Nat.le_gt_cases 8 (List.length a)) as [Hge | Hlt].
      - rewrite Nat.min_l by lia.
        replace (List.length a + 7)%nat
          with (List.length a - 8 + 7 + 1 * 8)%nat by lia.
        rewrite Nat.div_add by lia. lia.
      - rewrite Nat.min_r by lia.
        replace (List.length a - List.length a + 7)%nat with 7%nat by lia.
        change (7 / 8)%nat with 0%nat.
        symmetry. apply Nat.div_unique with (r := (List.length a - 1)%nat); lia. }
    rewrite Hk. cbn [drawn]. rewrite Ei. cbn [snd].
    f_equal. f_equal.
    destruct (List.length a) as [|n'] eqn:El; [lia|].
    cbn [scrambled_bytes]. rewrite Ei. cbn [fst snd].
    rewrite <- app_assoc. f_equal.
    f_equal. unfold m. lia.
Qed.

Lemma length_scrambled_bytes (fuel : nat) (s : Src) (n : nat) :
  (n <= 8 * fuel)%nat -> List.length (scrambled_bytes fuel s n) = n.
Proof.
  revert s n. induction fuel as [|fuel IH]; intros s n Hn.
  - assert (n = 0%nat) by lia. now subst n.
  - destruct n as [|n']; [reflexivity|].
    cbn [scrambled_bytes]. rewrite length_app, length_low_bytes.
    rewrite IH by lia. lia.
Qed.

End ScrambledFacts.

Lemma ceil8_step (n : nat) :
  (0 < n)%nat -> ((n + 7) / 8 = S ((n - 8 + 7) / 8))%nat.
Proof.
  intros Hn. destruct (Nat.le_gt_cases 8 n) as [Hge | Hlt].
  - replace (n + 7)%nat with (n - 8 + 7 + 1 * 8)%nat by lia.
    rewrite Nat.div_add by lia. lia.
  - replace (n - 8 + 7)%nat with 7%nat by lia.
    change (7 / 8)%nat with 0%nat.
    symmetry. apply Nat.div_unique with (r := (n - 1)%nat); lia.
Qed.

Lemma low_bytes_8 (v : Z) :
  0 <= v < 2 ^ 63 ->
  exists b rest, low_bytes 8 v = b :: rest /\ Z_of_byte b < 128.
Proof.
  intros Hv. cbn [low_bytes app]. eexists. eexists. split; [reflexivity|].
  rewrite Z_of_byte_of_Z. rewrite !Z.shiftr_shiftr by lia.
  rewrite Z.shiftr_div_pow2 by lia. cbn [Z.add Pos.add Pos.succ].
  assert (v / 2 ^ 56 < 128).
  { apply Z.div_lt_upper_bound; zlia. }
  pose proof (Z.div_pos v (2 ^ 56)).
  rewrite Z.mod_small; zlia.
Qed.

Section ScrambledProperties.

Context {Src : Type} `{Source Src}.

(** X14.  [Scrambled.Read] never indexes out of range and ends within one
    turn of its outer loop for every eight bytes.  It draws
    [ceil(len(bs) / 8)] values from the source and overwrites every byte:
    the buffer keeps its length, and what it holds afterwards depends on
    the source and on the length only, not on what the buffer held. *)
Theorem Scrambled_Read_fills (fuel : nat) (s : Src) (bs : list byte) :
  (List.length bs <= 8 * fuel)%nat ->
  exists out,
    Scrambled_Read fuel s bs
    = Filled (drawn ((List.length bs + 7) / 8) s, out) /\
    List.length out = List.length bs /\
    forall bs', List.length bs' = List.length bs ->
      Scrambled_Read fuel s bs'
      = Filled (drawn ((List.length bs + 7) / 8) s, out).
Proof.
  intros Hf. exists (scrambled_bytes fuel s (List.length bs)).
  assert (Hrun : forall a, List.length a = List.length bs ->
            Scrambled_Read fuel s a
            = Filled (drawn ((List.length bs + 7) / 8) s,
                      scrambled_bytes fuel s (List.length bs))).
  { intros a Ha. unfold Scrambled_Read.
    rewrite <- (app_nil_r a) at 1.
    rewrite Scrambled_loop_spec by lia.
    now rewrite Ha, app_nil_r. }
  split; [now apply Hrun|]. split; [now apply length_scrambled_bytes|].
  exact Hrun.
Qed.

(** X16.  The last bytes of the buffer are the low bytes of the first value
    drawn, the lowest byte last; in front of them is what [Read] leaves in
    a buffer shorter by eight bytes when it starts from the source after
    that draw. *)
Theorem Scrambled_Read_last_bytes (fuel : nat) (s : Src) (bs : list byte) :
  (0 < List.length bs <= 8 * S fuel)%nat ->
  exists s' front,
    Scrambled_Read (S fuel) s bs
    = Filled (s', front
                  ++ low_bytes (Nat.min 8 (List.length bs)) (fst (Int63 s))) /\
    Scrambled_Read fuel (snd (Int63 s)) (repeat x00 (List.length bs - 8))
    = Filled (s', front).
Proof.
  intros Hn.
  exists (drawn ((List.length bs + 7) / 8) s),
    (scrambled_bytes fuel (snd (Int63 s)) (List.length bs - 8)).
  split.
  - unfold Scrambled_Read. rewrite <- (app_nil_r bs) at 1.
    rewrite Scrambled_loop_spec by lia. rewrite app_nil_r.
    destruct (List.length bs) as [|n'] eqn:El; [lia|]. reflexivity.
  - unfold Scrambled_Read.
    rewrite <- (app_nil_r (repeat x00 (List.length bs - 8))) at 1.
    rewrite Scrambled_loop_spec by (rewrite repeat_length; lia).
    rewrite repeat_length, app_nil_r.
    rewrite (@ceil8_step (List.length bs)) by lia. reflexivity.
Qed.

Hypothesis Int63_range : forall s : Src, 0 <= fst (Int63 s) < 2 ^ 63.

Lemma scrambled_bytes_high (fuel : nat) (s : Src) (n i : nat) :
  (n <= 8 * fuel)%nat -> (i < n)%nat -> ((n - 1 - i) mod 8 = 7)%nat ->
  Z_of_byte (nth i (scrambled_bytes fuel s n) x00) < 128.
Proof.
  revert s n i. induction fuel as [|fuel IH]; intros s n i Hn Hi Hm; [lia|].
  destruct n as [|n']; [lia|]. cbn [scrambled_bytes].
  set (n := S n') in *.
  pose proof (@length_scrambled_bytes _ _ fuel (snd (Int63 s)) (n - 8))
    as Hlen.
  destruct (Nat.lt_ge_cases i (n - 8)) as [Hfront | Hback].
  - rewrite app_nth1 by (rewrite Hlen; lia).
    apply IH; try lia.
    replace (n - 1 - i)%nat with (n - 8 - 1 - i + 1 * 8)%nat in Hm by lia.
    now rewrite Nat.Div0.mod_add in Hm.
  - rewrite app_nth2 by (rewrite Hlen; lia). rewrite Hlen by lia.
    assert (Hsmall : (n - 1 - i < 8)%nat) by lia.
    rewrite Nat.mod_small in Hm by lia.
    assert (Hn8 : (8 <= n)%nat) by lia.
    rewrite Nat.min_l by lia.
    replace (i - (n - 8))%nat with 0%nat by lia.
    destruct (low_bytes_8 (Int63_range s)) as (b & rest & -> & Hb).
    exact Hb.
Qed.

(** X15.  When the source keeps the contract of [Int63] (values from 0 up
    to 2^63 - 1), every eighth byte counted from the end of the buffer,
    the one that gets the highest byte of a value, is below 128. *)
Theorem Scrambled_Read_high_bytes (fuel : nat) (s s' : Src)
    (bs out : list byte) (i : nat) :
  (List.length bs <= 8 * fuel)%nat ->
  Scrambled_Read fuel s bs = Filled (s', out) ->
  (i < List.length bs)%nat -> ((List.length bs - 1 - i) mod 8 = 7)%nat ->
  Z_of_byte (nth i out x00) < 128.
Proof.
  intros Hf Hrun Hi Hm. unfold Scrambled_Read in Hrun.
  rewrite <- (app_nil_r bs) in Hrun at 1.
  rewrite Scrambled_loop_spec in Hrun by lia. rewrite app_nil_r in Hrun.
  injection Hrun as _ <-. now apply scrambled_bytes_high.
Qed.

End ScrambledProperties.

Lemma lcg_Int63_range (s : lcg) : 0 <= fst (Int63 s) < 2 ^ 63.
Proof. cbn. apply Z.mod_pos_bound. zlia. Qed.

Lemma Scrambled_Read_fills_witness :
  exists out,
    Scrambled_Read 2 (mkLcg 1) (repeat x00 11)
    = Filled (drawn 2 (mkLcg 1), out) /\
    List.length out = 11%nat.
Proof.
  destruct (@Scrambled_Read_fills lcg _ 2 (mkLcg 1) (repeat x00 11))
    as (out & H1 & H2 & _); [cbn; lia|].
  exists out. split; assumption.
Defined.

Lemma Scrambled_Read_last_bytes_witness :
  exists s' front,
    Scrambled_Read 2 (mkLcg 1) (repeat x00 11)
    = Filled (s', front ++ low_bytes 8 (fst (Int63 (mkLcg 1)))) /\
    Scrambled_Read 1 (snd (Int63 (mkLcg 1))) (repeat x00 3)
    = Filled (s', front).
Proof.
  apply (@Scrambled_Read_last_bytes lcg _ 1 (mkLcg 1) (repeat x00 11)).
  cbn. lia.
Defined.

Lemma Scrambled_Read_high_bytes_witness :
  exists s' out,
    Scrambled_Read 2 (mkLcg 1) (repeat xff 11) = Filled (s', out) /\
    Z_of_byte (nth 3 out x00) < 128.
Proof.
  assert (Hrun : Scrambled_Read 2 (mkLcg 1) (repeat xff 11)
                 = Filled (drawn 2 (mkLcg 1),
                           scrambled_bytes 2 (mkLcg 1) 11))
    by (vm_compute; reflexivity).
  exists (drawn 2 (mkLcg 1)), (scrambled_bytes 2 (mkLcg 1) 11).
  split; [exact Hrun|].
  apply (@Scrambled_Read_high_bytes lcg _ lcg_Int63_range 2 (mkLcg 1)
           (drawn 2 (mkLcg 1)) (repeat xff 11)
           (scrambled_bytes 2 (mkLcg 1) 11) 3);
    [cbn; lia | exact Hrun | cbn; lia | reflexivity].
Defined.


(** ** Read and the stored digests *)

(** A bit flipped inside a stored digest leaves a tail layout of the same
    content. *)
Lemma tail_layout_flip_digest (interval off : Z) (s c : list byte)
    (q : Z) (bit : nat) :
  tail_layout interval off s c ->
  (bit < 8)%nat -> 0 <= q < len s ->
  interval <= (off + q) mod (interval + 4) \/ len s - 4 <= q ->
  tail_layout interval off (flip_bit s q bit) c.
Proof.
  intros Ht Hbit. revert q.
  induction Ht as [off Hoff | off b d rest c Hoff Hb Hd Ht IH | off b d Hoff Hb Hd];
    intros q Hq Hdig.
  - rewrite (@len_nil byte) in Hq. lia.
  - pose proof (len_nonneg b). pose proof (len_nonneg rest).
    rewrite !len_app in Hq, Hdig.
    destruct (Z_lt_ge_dec q (len b)) as [Hqb | Hqb].
    { exfalso. destruct Hdig as [Hm | Hm]; [|lia].
      rewrite Z.mod_small in Hm by lia. lia. }
    destruct (Z_lt_ge_dec q (len b + 4)) as [Hqd | Hqd].
    + replace q with (len b + (q - len b)) by lia.
      rewrite flip_bit_inside by lia.
      apply TL_full; try assumption.
      destruct (@flip_bit_spec d (q - len b) bit) as [Hl _]; [lia | exact Hbit|].
      now rewrite Hl.
    + replace (b ++ d ++ rest) with ((b ++ d) ++ rest ++ [])
        by (now rewrite app_nil_r, <- app_assoc).
      replace q with (len (b ++ d) + (q - len b - 4))
        by (rewrite len_app; lia).
      rewrite flip_bit_inside by lia.
      rewrite app_nil_r, <- app_assoc.
      apply TL_full; try assumption.
      apply IH; [lia|].
      destruct Hdig as [Hm | Hm]; [left | right; lia].
      replace (off + q) with (q - len b - 4 + 1 * (interval + 4)) in Hm by lia.
      rewrite Z.mod_add in Hm by lia. exact Hm.
  - pose proof (len_nonneg b). rewrite len_app in Hq, Hdig.
    assert (Hqb : len b <= q).
    { destruct Hdig as [Hm | Hm]; [|lia].
      rewrite Z.mod_small in Hm by lia. lia. }
    replace (b ++ d) with (b ++ d ++ []) by (now rewrite app_nil_r).
    replace q with (len b + (q - len b)) by lia.
    rewrite flip_bit_inside by lia. rewrite app_nil_r.
    apply TL_partial; try assumption.
    destruct (@flip_bit_spec d (q - len b) bit) as [Hl _]; [lia | exact Hbit|].
    now rewrite Hl.
Qed.

(** X17.  [Read] does not check the stored digests: with one bit flipped
    in any digest of the stream the writer leaves (a byte whose position
    in its stored block is at or past the interval, or one of the last
    four bytes), reading to the end still gives the whole content and then
    [io.EOF].  Only [Verify] looks at the digests. *)
Theorem Read_does_not_check_digests {H32 : Hash32} (interval : Z)
    (vs : list (list byte)) (v : list byte) (fuel : nat)
    (q : Z) (bit : nat) :
  1 <= interval ->
  1 <= len v ->
  len (List.concat vs) < 2 ^ 60 ->
  (List.length (List.concat vs) + 1 < fuel)%nat ->
  (bit < 8)%nat ->
  0 <= q < len (layout interval (List.concat vs)) ->
  interval <= q mod (interval + 4)
  \/ len (layout interval (List.concat vs)) - 4 <= q ->
  exists w cwi r cri,
    writeAllClose (mkBytesBuffer [])
      (Writer.newChecksummedWriterImpl interval) vs
    = Ret (w, cwi, None) /\
    flip_bit (wdata w) q bit <> wdata w /\
    readAll fuel (mkBytesReader (flip_bit (wdata w) q bit) 0)
      (Reader.newChecksummedReaderImpl interval) v
    = Ret (r, cri, List.concat vs, Some EOF).
Proof.
  intros Hi Hv Hc Hf Hbit Hq Hdig.
  set (c := List.concat vs) in *.
  destruct (@writeAll_mem _ _ Hi vs [] _ (@writer_holds_new interval))
    as (cwi & Hrun & Hw).
  destruct (Close_mem Hi Hw) as (cwi' & Hclose).
  cbn [app] in *. fold c in Hrun, Hclose.
  change (sofar interval []) with (@nil byte) in Hrun.
  pose proof (len_layout Hi c) as Hlen.
  pose proof (len_nonneg c) as Hc0.
  assert (Hceil : (len c + interval - 1) / interval <= len c).
  { destruct (Z_le_gt_dec (len c) 0).
    - assert (Hz : len c = 0) by lia. rewrite Hz.
      rewrite Z.div_small; lia.
    - apply Z.lt_succ_r. apply Z.div_lt_upper_bound; nia. }
  destruct (flip_bit_spec (layout interval c) Hq Hbit) as [Hfl Hne].
  destruct (@readAll_tail interval fuel
              (mkBytesReader (flip_bit (layout interval c) q bit) 0)
              0 (repeat x00 4) v c)
    as (r & cri & Hread).
  - exact Hv.
  - reflexivity.
  - cbn [rdata]. rewrite Hfl. zlia.
  - cbn [rdata rpos]. rewrite Hfl. lia.
  - unfold ahead. cbn [rdata rpos N.to_nat skipn].
    apply tail_layout_flip_digest; [now apply layout_tail | exact Hbit
                                   | exact Hq | exact Hdig].
  - destruct (ahead _); lia.
  - exists (mkBytesBuffer (layout interval c)), cwi', r, cri.
    split; [|split; [exact Hne | exact Hread]].
    unfold writeAllClose. rewrite Hrun. cbn [bind]. now rewrite Hclose.
Qed.

Lemma Read_does_not_check_digests_witness :
  let vs := [[x01; x02; x03]; [x04; x05]] in
  exists w cwi r cri,
    writeAllClose (H32 := fnv32a) (mkBytesBuffer [])
      (Writer.newChecksummedWriterImpl 2) vs
    = Ret (w, cwi, None) /\
    flip_bit (wdata w) 9 0 <> wdata w /\
    readAll 10 (mkBytesReader (flip_bit (wdata w) 9 0) 0)
      (Reader.newChecksummedReaderImpl 2) [x00; x00; x00]
    = Ret (r, cri, List.concat vs, Some EOF).
Proof.
  apply (@Read_does_not_check_digests fnv32a 2
           [[x01; x02; x03]; [x04; x05]] [x00; x00; x00] 10 9 0).
  - lia.
  - vm_compute. discriminate.
  - vm_compute. reflexivity.
  - vm_compute. lia.
  - lia.
  - vm_compute. split; [discriminate | reflexivity].
  - left. vm_compute. discriminate.
Defined.
